(** * ankiflow: the flashcard store, the import parser, the backup codec
      and the playlist scheduler

    A shallow embedding of [MemorizationDB] (the IndexedDB persistence layer)
    and of [AppManager] (parser, backup, playlist, start and subjects) of the
    ankiflow sources, with the properties of the design document stated
    against them, and with what else the code shows of itself.

    Not modelled: [TTSManager] (speech synthesis, audio and timers), the
    maintenance calls that open and delete whole databases, the pages, and the
    two methods [saveSettings] and [saveProgress], which write through objects
    that [this.subjects], [this.items] and [this.playlist] may or may not
    share; their writes to the store are [updateSubject] and
    [updateProgress].

    Conventions.
    - JavaScript numbers are integers of [Z]: ids and levels are integers in
      the source, and of a time stamp the code only asks whether it is 0 and
      how it compares with another one.  Array positions are [nat].
    - The draws of [Math.random] are doubles, written as the rationals they
      are; their product with an index is rounded as a product of doubles is.
    - A JavaScript string is a [string]; each [ascii] stands for one code
      unit below 256.
    - An IndexedDB object store is a finite map from its primary key to the
      stored row ([gmap Z _]); the in-line key ([id], [item_id]) is the key of
      the map.  A store with [autoIncrement] carries its key generator, the
      next key to hand out.
    - A promise is the pair of its outcome and the database it leaves. *)

From Stdlib Require Import QArith Qround Qpower Lqa Ascii.
From stdpp Require Import gmap strings list sorting.
Close Scope Q_scope.

(** ** The persistence engine *)

Module Store.

(** What a request can fail with.  [add] on a key that is already present is
    a ConstraintError; no other request of this program fails on data. *)
Inductive DOMError := ConstraintError.

Inductive Outcome (A : Type) :=
  | Resolved (a : A)
  | Rejected (e : DOMError).
Arguments Resolved {A} a.
Arguments Rejected {A} e.

Record Settings := mkSettings {
  frontLang : option string;
  backLang : option string
}.

(** [{}], the default of [createSubject] and of a backup without settings. *)
Definition noSettings : Settings := mkSettings None None.

Record SubjectRow := mkSubject {
  name : string;
  settings : Settings;
  s_created_at : Z
}.

Record ItemRow := mkItem {
  subject_id : Z;
  front : string;
  front_info : string;
  back : string;
  back_info : string;
  created_at : Z
}.

Record ProgressRow := mkProgress {
  level : Z;
  last_studied : Z
}.

Record DB := mkDB {
  subjects : gmap Z SubjectRow;
  subjects_key : Z;
  items : gmap Z ItemRow;
  items_key : Z;
  progress : gmap Z ProgressRow
}.

(** The database [onupgradeneeded] creates: three empty stores, both key
    generators at 1. *)
Definition init : DB := mkDB ∅ 1 ∅ 1 ∅.

Definition set_subjects (f : gmap Z SubjectRow → gmap Z SubjectRow) (db : DB) : DB :=
  mkDB (f (subjects db)) (subjects_key db) (items db) (items_key db) (progress db).
Definition set_items (f : gmap Z ItemRow → gmap Z ItemRow) (db : DB) : DB :=
  mkDB (subjects db) (subjects_key db) (f (items db)) (items_key db) (progress db).
Definition set_progress (f : gmap Z ProgressRow → gmap Z ProgressRow) (db : DB) : DB :=
  mkDB (subjects db) (subjects_key db) (items db) (items_key db) (f (progress db)).

(** *** Requests on one object store *)

(** [store.add(value)] under an explicit key. *)
Definition os_add {V} (k : Z) (v : V) (m : gmap Z V) : DOMError + gmap Z V :=
  match m !! k with
  | Some _ => inl ConstraintError
  | None => inr (<[k := v]> m)
  end.

(** The rows of a store in ascending key order, as [getAll] and index scans
    return them. *)
Definition key_le {V} (a b : Z * V) : Prop := (a.1 ≤ b.1)%Z.

#[global] Instance key_le_dec {V} : RelDecision (@key_le V).
Proof. intros a b. unfold key_le. apply _. Defined.

Definition os_getAll {V} (m : gmap Z V) : list (Z * V) :=
  merge_sort key_le (map_to_list m).

(** The index [subject_id] of the items store. *)
Definition index_getAll (subjectId : Z) (m : gmap Z ItemRow) : list (Z * ItemRow) :=
  filter (λ kv, subject_id kv.2 = subjectId) (os_getAll m).

Definition index_getAllKeys (subjectId : Z) (m : gmap Z ItemRow) : list Z :=
  (index_getAll subjectId m).*1.

(** *** Transactions *)

(** The body of a transaction either fails with the error of a request or
    yields a value and the written stores.  No handler of this program calls
    [preventDefault], so a failed request aborts the transaction: every write
    of the transaction, and every key it drew from a generator, is undone,
    and [transaction.onerror] rejects the promise. *)
Definition Tx (A : Type) : Type := DB → DOMError + (A * DB).

Definition transaction {A} (body : Tx A) (db : DB) : Outcome A * DB :=
  match body db with
  | inr (a, db') => (Resolved a, db')
  | inl e => (Rejected e, db)
  end.

(** *** Subjects *)

Definition getSubjects (db : DB) : list (Z * SubjectRow) :=
  os_getAll (subjects db).

Definition createSubject (nm : string) (st : Settings) (now : Z) (db : DB)
  : Outcome Z * DB :=
  transaction (λ db,
    let id := subjects_key db in
    match os_add id (mkSubject nm st now) (subjects db) with
    | inl e => inl e
    | inr m =>
        inr (id, mkDB m (id + 1)%Z (items db) (items_key db) (progress db))
    end) db.

(** The properties [updateSubject] is given to overwrite in the row; its one
    caller, [saveSettings], gives [settings] alone.  An absent property is
    [None]. *)
Record SubjectUpdates := mkUpdates {
  u_name : option string;
  u_settings : option Settings
}.

(** What the promise of [updateSubject] settles with: it resolves once the
    row is put, and rejects with the text Subject not found. *)
Inductive Updated := SubjectUpdated | SubjectNotFound.

(** [get], then [put] of the row spread with [updates]; the key of the row
    is its own, so [put] overwrites it and draws no key. *)
Definition updateSubject (id : Z) (updates : SubjectUpdates) (db : DB) : Updated * DB :=
  match subjects db !! id with
  | None => (SubjectNotFound, db)
  | Some data =>
      let newData :=
        mkSubject (default (name data) (u_name updates))
                  (default (settings data) (u_settings updates))
                  (s_created_at data) in
      (SubjectUpdated, set_subjects (<[id := newData]>) db)
  end.

(** One step of the [forEach] of [deleteSubject] and [clearItemsBySubject]. *)
Definition delete_item_and_progress (db : DB) (itemId : Z) : DB :=
  set_progress (delete itemId) (set_items (delete itemId) db).

Definition deleteSubject (id : Z) (db : DB) : Outcome unit * DB :=
  transaction (λ db,
    let db1 := set_subjects (delete id) db in
    let itemIds := index_getAllKeys id (items db1) in
    inr (tt, foldl delete_item_and_progress db1 itemIds)) db.

(** *** Items *)

(** A record handed to [importItems]: a parsed line, a placeholder of the
    editor, or an item of a backup (which also carries the [id] and
    [subject_id] it had in the store it was exported from). *)
Record ImportRecord := mkRecord {
  r_id : option Z;
  r_subject_id : option Z;
  r_front : string;
  r_front_info : option string;
  r_back : string;
  r_back_info : option string;
  r_level : option Z;
  r_last_studied : option Z
}.

Definition clearItemsBySubject (subjectId : Z) (db : DB) : Outcome unit * DB :=
  transaction (λ db,
    let itemIds := index_getAllKeys subjectId (items db) in
    inr (tt, foldl delete_item_and_progress db itemIds)) db.

(** The row [itemStore.add] is given for a record; [now] is [Date.now()]. *)
Definition item_of_record (subjectId : Z) (item : ImportRecord) (now : Z) : ItemRow :=
  mkItem subjectId (r_front item) (default EmptyString (r_front_info item))
         (r_back item) (default EmptyString (r_back_info item)) now.

(** The row the [onsuccess] handler of that request adds to the progress
    store. *)
Definition progress_of_record (item : ImportRecord) : ProgressRow :=
  match r_level item with
  | Some l => mkProgress l (default 0%Z (r_last_studied item))
  | None => mkProgress 0 0
  end.

(** The [forEach] of [importItems] places one [itemStore.add] per record;
    requests run in the order they were placed, so all of them run before
    the first [progressStore.add], which is placed by a success handler.
    [n] counts the records seen, [now n] is the clock read for record [n]. *)
Fixpoint add_items (subjectId : Z) (now : nat → Z) (n : nat)
    (recs : list ImportRecord) (db : DB) : DOMError + (list (Z * ImportRecord) * DB) :=
  match recs with
  | [] => inr ([], db)
  | item :: recs' =>
      let id := items_key db in
      match os_add id (item_of_record subjectId item (now n)) (items db) with
      | inl e => inl e
      | inr m =>
          let db' := mkDB (subjects db) (subjects_key db) m (id + 1)%Z (progress db) in
          match add_items subjectId now (S n) recs' db' with
          | inl e => inl e
          | inr (added, db'') => inr ((id, item) :: added, db'')
          end
      end
  end.

Fixpoint add_progress (added : list (Z * ImportRecord)) (db : DB) : DOMError + DB :=
  match added with
  | [] => inr db
  | (id, item) :: added' =>
      match os_add id (progress_of_record item) (progress db) with
      | inl e => inl e
      | inr m => add_progress added' (set_progress (λ _, m) db)
      end
  end.

(** The body of the transaction of [importItems]. *)
Definition add_batch (subjectId : Z) (recs : list ImportRecord) (now : nat → Z)
  : Tx unit :=
  λ db,
    match add_items subjectId now 0 recs db with
    | inl e => inl e
    | inr (added, db') =>
        match add_progress added db' with
        | inl e => inl e
        | inr db'' => inr (tt, db'')
        end
    end.

(** [clearItemsBySubject] is awaited first, in a transaction of its own; the
    records are added in a second transaction. *)
Definition importItems (subjectId : Z) (recs : list ImportRecord)
    (clearExisting : bool) (now : nat → Z) (db : DB) : Outcome unit * DB :=
  let db1 := if clearExisting then (clearItemsBySubject subjectId db).2 else db in
  transaction (add_batch subjectId recs now) db1.

(** An item joined with its progress, as the application holds it. *)
Record MergedItem := mkMerged {
  m_id : Z;
  m_subject_id : Z;
  m_front : string;
  m_front_info : string;
  m_back : string;
  m_back_info : string;
  m_level : Z;
  m_last_studied : Z
}.

Definition merge_progress (pm : gmap Z ProgressRow) (kv : Z * ItemRow) : MergedItem :=
  let p := default (mkProgress 0 0) (pm !! kv.1) in
  mkMerged kv.1 (subject_id kv.2) (front kv.2) (front_info kv.2)
           (back kv.2) (back_info kv.2) (level p) (last_studied p).

(** [progressMap] of the source is keyed by [item_id], the key of the
    progress store: it has the lookups of the store itself. *)
Definition getAllItemsWithProgress (subjectId : Z) (db : DB) : list MergedItem :=
  merge_progress (progress db) <$> index_getAll subjectId (items db).

(** [now] is [Date.now() / 1000]. *)
Definition updateProgress (itemId lvl now : Z) (db : DB) : Outcome unit * DB :=
  transaction (λ db,
    inr (tt, set_progress (<[itemId := mkProgress lvl now]>) db)) db.

Definition updateItem (item : MergedItem) (db : DB) : Outcome bool * DB :=
  transaction (λ db,
    match items db !! m_id item with
    | Some existing =>
        let existing' :=
          mkItem (subject_id existing) (m_front item) (m_front_info item)
                 (m_back item) (m_back_info item) (created_at existing) in
        inr (true, set_items (<[m_id item := existing']>) db)
    | None => inr (true, db)
    end) db.

Definition deleteItem (itemId : Z) (db : DB) : Outcome bool * DB :=
  transaction (λ db,
    inr (true, set_progress (delete itemId) (set_items (delete itemId) db))) db.

(** *** Predicates on databases *)

(** Every key of a store is below [n]. *)
Definition keys_below {V} (n : Z) (m : gmap Z V) : Prop :=
  map_Forall (λ k _, (k < n)%Z) m.

(** What the engine guarantees of a store with a key generator: the
    generator is ahead of every key in use. *)
Definition generators_ahead (db : DB) : Prop :=
  keys_below (subjects_key db) (subjects db) ∧ keys_below (items_key db) (items db).

(** No progress row sits at a key the generator of the items store has yet
    to issue.  The engine knows nothing of it: it holds as long as progress
    is written for items that exist or existed. *)
Definition progress_issued (db : DB) : Prop :=
  keys_below (items_key db) (progress db).

(** [db1] is [db] without the items of subject [sid] and without their
    progress rows. *)
Definition cleared (sid : Z) (db db1 : DB) : Prop :=
  subjects db1 = subjects db ∧ subjects_key db1 = subjects_key db ∧
  items_key db1 = items_key db ∧
  (∀ k it, items db1 !! k = Some it ↔ items db !! k = Some it ∧ subject_id it ≠ sid) ∧
  (∀ k it, items db !! k = Some it → subject_id it = sid → progress db1 !! k = None) ∧
  (∀ k, (∀ it, items db !! k = Some it → subject_id it ≠ sid) →
        progress db1 !! k = progress db !! k).

(** [db'] is [db] with one new item and one new progress row per record, at
    the keys the generator hands out from [items_key db] on, and nothing else
    changed. *)
Definition batch_added (sid : Z) (recs : list ImportRecord) (now : nat → Z)
    (db db' : DB) : Prop :=
  subjects db' = subjects db ∧ subjects_key db' = subjects_key db ∧
  items_key db' = (items_key db + Z.of_nat (length recs))%Z ∧
  (∀ (i : nat) r, recs !! i = Some r →
     let id := (items_key db + Z.of_nat i)%Z in
     items db !! id = None ∧ progress db !! id = None ∧
     items db' !! id = Some (item_of_record sid r (now i)) ∧
     progress db' !! id = Some (progress_of_record r)) ∧
  (∀ k, (k < items_key db ∨ items_key db + Z.of_nat (length recs) ≤ k)%Z →
     items db' !! k = items db !! k ∧ progress db' !! k = progress db !! k).

(** *** The interface as a whole *)

(** A call of one of the mutating operations. *)
Inductive Call :=
  | CreateSubject (nm : string) (st : Settings) (now : Z)
  | DeleteSubject (id : Z)
  | ImportItems (subjectId : Z) (recs : list ImportRecord) (clearExisting : bool)
                (now : nat → Z)
  | ClearItemsBySubject (subjectId : Z)
  | UpdateProgress (itemId lvl now : Z)
  | UpdateItem (item : MergedItem)
  | DeleteItem (itemId : Z).

(** The database a call leaves, whatever its outcome. *)
Definition call (c : Call) (db : DB) : DB :=
  match c with
  | CreateSubject nm st now => (createSubject nm st now db).2
  | DeleteSubject id => (deleteSubject id db).2
  | ImportItems subjectId recs clearExisting now =>
      (importItems subjectId recs clearExisting now db).2
  | ClearItemsBySubject subjectId => (clearItemsBySubject subjectId db).2
  | UpdateProgress itemId lvl now => (updateProgress itemId lvl now db).2
  | UpdateItem item => (updateItem item db).2
  | DeleteItem itemId => (deleteItem itemId db).2
  end.

(** A grade is for an item the store has or had: the pages grade the items
    they were given by [getAllItemsWithProgress]. *)
Definition grades_known_item (c : Call) (db : DB) : Prop :=
  match c with
  | UpdateProgress itemId _ _ => (itemId < items_key db)%Z
  | _ => True
  end.

(** The databases that calls a caller is [allowed] to make lead to from the
    empty one. *)
Inductive reachable (allowed : Call → DB → Prop) : DB → Prop :=
  | reachable_init : reachable allowed init
  | reachable_call c db :
      reachable allowed db → allowed c db → reachable allowed (call c db).

(** A record without the [id] and [subject_id] it may have brought along. *)
Definition without_ids (r : ImportRecord) : ImportRecord :=
  mkRecord None None (r_front r) (r_front_info r) (r_back r) (r_back_info r)
           (r_level r) (r_last_studied r).

End Store.

(** ** The import parser, [AppManager.parseCSV] *)

Module Csv.

Definition dquote : ascii := "034"%char.
Definition tab : ascii := "009"%char.
Definition lf : ascii := "010"%char.
Definition cr : ascii := "013"%char.
Definition comma : ascii := ","%char.

(** White space and line terminators of ECMAScript among the code units
    below 256: U+0009 to U+000D, U+0020 and U+00A0. *)
Definition is_whitespace (c : ascii) : bool :=
  let n := nat_of_ascii c in
  (9 <=? n)%nat && (n <=? 13)%nat || (n =? 32)%nat || (n =? 160)%nat.

Definition push (s : string) (c : ascii) : string := s +:+ String c EmptyString.

Fixpoint trimStart (s : string) : string :=
  match s with
  | EmptyString => EmptyString
  | String c s' => if is_whitespace c then trimStart s' else s
  end.

Fixpoint trimEnd (s : string) : string :=
  match s with
  | EmptyString => EmptyString
  | String c s' =>
      match trimEnd s' with
      | EmptyString => if is_whitespace c then EmptyString else String c EmptyString
      | t => String c t
      end
  end.

Definition trim (s : string) : string := trimEnd (trimStart s).

(** [text.split(/\r?\n/)]; [current] is the line read so far. *)
Fixpoint split_lines (text current : string) : list string :=
  match text with
  | EmptyString => [current]
  | String c text' =>
      if Ascii.eqb c lf then current :: split_lines text' EmptyString
      else
        match text' with
        | String c' text'' =>
            if Ascii.eqb c cr && Ascii.eqb c' lf
            then current :: split_lines text'' EmptyString
            else split_lines text' (push current c)
        | EmptyString => split_lines text' (push current c)
        end
  end.

(** [line.includes('\t')] *)
Fixpoint includes (c : ascii) (line : string) : bool :=
  match line with
  | EmptyString => false
  | String c' line' => Ascii.eqb c' c || includes c line'
  end.

(** [line.split('\t')] *)
Fixpoint split (sep : ascii) (line current : string) : list string :=
  match line with
  | EmptyString => [current]
  | String c line' =>
      if Ascii.eqb c sep then current :: split sep line' EmptyString
      else split sep line' (push current c)
  end.

(** The loop of the helper [parseLine]: [line] is what is left to read from
    position [i] on. *)
Fixpoint parseLine_loop (delimiter : ascii) (line current : string)
    (inQuote : bool) (values : list string) : list string :=
  match line with
  | EmptyString => values ++ [current]
  | String c line' =>
      if Ascii.eqb c dquote then
        match line' with
        | String c' line'' =>
            if inQuote && Ascii.eqb c' dquote
            then parseLine_loop delimiter line'' (push current dquote) inQuote values
            else parseLine_loop delimiter line' current (negb inQuote) values
        | EmptyString => parseLine_loop delimiter line' current (negb inQuote) values
        end
      else if Ascii.eqb c delimiter && negb inQuote
      then parseLine_loop delimiter line' EmptyString inQuote (values ++ [current])
      else parseLine_loop delimiter line' (push current c) inQuote values
  end.

Definition parseLine (line : string) (delimiter : ascii) : list string :=
  parseLine_loop delimiter line EmptyString false [].

(** The first [replace] of a part, on the pattern "quote at the start or
    quote at the end", global: a quote at the start goes, then a quote at the
    end of what is left. *)
Fixpoint strip_last_quote (p : string) : string :=
  match p with
  | EmptyString => EmptyString
  | String c EmptyString => if Ascii.eqb c dquote then EmptyString else p
  | String c p' => String c (strip_last_quote p')
  end.

Definition strip_quotes (p : string) : string :=
  match p with
  | EmptyString => EmptyString
  | String c p' => strip_last_quote (if Ascii.eqb c dquote then p' else p)
  end.

(** The second [replace] of a part: every pair of quotes becomes one quote,
    matches taken from left to right. *)
Fixpoint collapse_quotes (p : string) : string :=
  match p with
  | EmptyString => EmptyString
  | String c p' =>
      match p' with
      | String c' p'' =>
          if Ascii.eqb c dquote && Ascii.eqb c' dquote
          then String dquote (collapse_quotes p'')
          else String c (collapse_quotes p')
      | EmptyString => p
      end
  end.

Definition clean_part (p : string) : string :=
  collapse_quotes (strip_quotes (trim p)).

(** The fields of a trimmed, non-blank line. *)
Definition line_parts (line : string) : list string :=
  clean_part <$>
    (if includes tab line then split tab line EmptyString else parseLine line comma).

Record ParsedItem := mkParsed {
  front : string;
  front_info : string;
  back : string;
  back_info : string
}.

Definition part (parts : list string) (i : nat) : string :=
  nth i parts EmptyString.

(** Mapping based on column count. *)
Definition map_columns (parts : list string) : ParsedItem :=
  let n := length parts in
  if (4 <=? n)%nat then mkParsed (part parts 0) (part parts 1) (part parts 2) (part parts 3)
  else if (n =? 3)%nat then mkParsed (part parts 0) (part parts 2) (part parts 1) EmptyString
  else if (n =? 2)%nat then mkParsed (part parts 0) EmptyString (part parts 1) EmptyString
  else if (n =? 1)%nat then mkParsed (part parts 0) EmptyString EmptyString EmptyString
  else mkParsed EmptyString EmptyString EmptyString EmptyString.

Definition nonempty (s : string) : bool :=
  match s with EmptyString => false | _ => true end.

(** One round of the loop over the lines: what it pushes, if anything. *)
Definition line_item (line : string) : option ParsedItem :=
  let line := trim line in
  if nonempty line then
    let parts := line_parts line in
    if (0 <? length parts)%nat then
      let item := map_columns parts in
      if nonempty (front item) || nonempty (back item) then Some item else None
    else None
  else None.

Definition parseCSV (text : string) : list ParsedItem :=
  omap line_item (split_lines text EmptyString).

(** *** Lines as they are written *)

(** [fields.join(sep)] *)
Fixpoint join (sep : ascii) (fields : list string) : string :=
  match fields with
  | [] => EmptyString
  | f :: fields' =>
      match fields' with
      | [] => f
      | _ => f +:+ String sep (join sep fields')
      end
  end.

(** A field as a CSV file holds it: between quotes, every quote of its own
    doubled. *)
Fixpoint double_quotes (f : string) : string :=
  match f with
  | EmptyString => EmptyString
  | String c f' =>
      if Ascii.eqb c dquote then String dquote (String dquote (double_quotes f'))
      else String c (double_quotes f')
  end.

Definition enclose (f : string) : string :=
  String dquote (double_quotes f +:+ String dquote EmptyString).

(** Nothing but white space. *)
Fixpoint whitespace_only (s : string) : bool :=
  match s with
  | EmptyString => true
  | String c s' => is_whitespace c && whitespace_only s'
  end.

(** A field the cleaning of the parts leaves as it is: no quote in it, and
    no white space around it. *)
Definition plain (f : string) : Prop :=
  includes dquote f = false ∧ trim f = f.

End Csv.

(** ** The application object, [AppManager] *)

Module App.
Import Store.

(** The fields of the object the playlist and the backup work on.  [db] is
    the database behind [this.db]; [draws] counts the calls of
    [Math.random] made so far. *)
Record AppManager := mkApp {
  db : DB;
  items : list MergedItem;
  playlist : list MergedItem;
  currentIndex : nat;
  isRandom : bool;
  subjects : list (Z * SubjectRow);
  currentSubject : option (Z * SubjectRow);
  targetLevels : list Z;
  sortMode : string;
  draws : nat
}.

Definition set_db (d : DB) (app : AppManager) : AppManager :=
  mkApp d (items app) (playlist app) (currentIndex app) (isRandom app)
        (subjects app) (currentSubject app) (targetLevels app) (sortMode app) (draws app).
Definition set_items (l : list MergedItem) (app : AppManager) : AppManager :=
  mkApp (db app) l (playlist app) (currentIndex app) (isRandom app)
        (subjects app) (currentSubject app) (targetLevels app) (sortMode app) (draws app).
Definition set_playlist (l : list MergedItem) (app : AppManager) : AppManager :=
  mkApp (db app) (items app) l (currentIndex app) (isRandom app)
        (subjects app) (currentSubject app) (targetLevels app) (sortMode app) (draws app).
Definition set_currentIndex (i : nat) (app : AppManager) : AppManager :=
  mkApp (db app) (items app) (playlist app) i (isRandom app)
        (subjects app) (currentSubject app) (targetLevels app) (sortMode app) (draws app).
Definition set_isRandom (b : bool) (app : AppManager) : AppManager :=
  mkApp (db app) (items app) (playlist app) (currentIndex app) b
        (subjects app) (currentSubject app) (targetLevels app) (sortMode app) (draws app).
Definition set_subjects (l : list (Z * SubjectRow)) (app : AppManager) : AppManager :=
  mkApp (db app) (items app) (playlist app) (currentIndex app) (isRandom app)
        l (currentSubject app) (targetLevels app) (sortMode app) (draws app).
Definition set_currentSubject (s : option (Z * SubjectRow)) (app : AppManager) : AppManager :=
  mkApp (db app) (items app) (playlist app) (currentIndex app) (isRandom app)
        (subjects app) s (targetLevels app) (sortMode app) (draws app).
Definition set_filter (levels : list Z) (mode : string) (app : AppManager) : AppManager :=
  mkApp (db app) (items app) (playlist app) (currentIndex app) (isRandom app)
        (subjects app) (currentSubject app) levels mode (draws app).
Definition set_draws (n : nat) (app : AppManager) : AppManager :=
  mkApp (db app) (items app) (playlist app) (currentIndex app) (isRandom app)
        (subjects app) (currentSubject app) (targetLevels app) (sortMode app) n.

(** *** Loading *)

Definition loadSubjects (app : AppManager) : AppManager :=
  set_subjects (getSubjects (db app)) app.

Definition loadData (app : AppManager) : AppManager :=
  match currentSubject app with
  | None => app
  | Some s => set_items (getAllItemsWithProgress s.1 (db app)) app
  end.

(** The [localStorage] entry it also writes is not part of the object. *)
Definition selectSubject (id : Z) (app : AppManager) : AppManager :=
  match list_find (λ s : Z * SubjectRow, s.1 = id) (subjects app) with
  | None => app
  | Some (_, subject) => loadData (set_currentSubject (Some subject) app)
  end.

(** *** Backup *)

(** The document behind the JSON text.  The text itself is not modelled:
    [JSON.parse] gives back the value [JSON.stringify] was given, property
    by property, and an absent property is [None]. *)
Record BackupSubject := mkBackupSubject {
  bs_name : string;
  bs_settings : option Settings
}.

Record Backup := mkBackup {
  version : Z;
  b_subject : option BackupSubject;
  b_items : option (list ImportRecord)
}.

(** An item of [this.items] as it reads back from the document. *)
Definition json_item (m : MergedItem) : ImportRecord :=
  mkRecord (Some (m_id m)) (Some (m_subject_id m)) (m_front m) (Some (m_front_info m))
           (m_back m) (Some (m_back_info m)) (Some (m_level m)) (Some (m_last_studied m)).

(** [None] is the [null] returned without a current subject. *)
Definition exportSubjectBackup (app : AppManager) : option Backup :=
  match currentSubject app with
  | None => None
  | Some s =>
      Some (mkBackup 1 (Some (mkBackupSubject (name s.2) (Some (settings s.2))))
                     (Some (json_item <$> items app)))
  end.

(** [json] is [None] for a text [JSON.parse] throws on, or parses to [null];
    every throw ends in the [catch], which returns [false].  [now] is the
    clock of [createSubject], [clock] the one of [importItems]. *)
Definition importSubjectBackup (json : option Backup) (now : Z) (clock : nat → Z)
    (app : AppManager) : bool * AppManager :=
  match json with
  | None => (false, app)
  | Some backup =>
      match b_subject backup, b_items backup with
      | Some subject, Some its =>
          let nm := bs_name subject +:+ " (Imported)" in
          match createSubject nm (default noSettings (bs_settings subject)) now (db app) with
          | (Rejected _, db1) => (false, set_db db1 app)
          | (Resolved newId, db1) =>
              match importItems newId its true clock db1 with
              | (Rejected _, db2) => (false, set_db db2 app)
              | (Resolved _, db2) =>
                  (true, selectSubject newId (loadSubjects (set_db db2 app)))
              end
          end
      | _, _ => (false, app)
      end
  end.

(** *** Playlist *)

(** [Array.prototype.sort] with a comparator: a stable sort, here by
    insertion.  [insert_sorted x l] puts [x], which came before all of [l],
    in front of the first element it does not compare greater than. *)
Fixpoint insert_sorted {A} (cmp : A → A → Z) (x : A) (l : list A) : list A :=
  match l with
  | [] => [x]
  | y :: l' => if (cmp x y <=? 0)%Z then x :: l else y :: insert_sorted cmp x l'
  end.

Definition sort {A} (cmp : A → A → Z) (l : list A) : list A :=
  foldr (insert_sorted cmp) [] l.

Definition by_id (a b : MergedItem) : Z := (m_id a - m_id b)%Z.
Definition by_last_studied (a b : MergedItem) : Z :=
  (m_last_studied a - m_last_studied b)%Z.

(** [[array[i], array[j]] = [array[j], array[i]]].  Both positions are inside
    the array whenever [Math.random() < 1]; the array is left alone
    otherwise. *)
Definition swap {A} (array : list A) (i j : nat) : list A :=
  match array !! i, array !! j with
  | Some ai, Some aj => <[j := ai]> (<[i := aj]> array)
  | _, _ => array
  end.

(** The arithmetic of doubles, as far as [shuffle] needs it: the product of
    two doubles is their exact product rounded to the nearest double, to the
    one with the even last bit when two are as near.  A double has 53 bits,
    the last of them at [2 ^ -1074] or above.  The results here are below
    the length of an array: none leaves the range of the doubles. *)

(** The integer nearest to [q], the even one of two. *)
Definition round_half_even (q : Q) : Z :=
  let f := Qfloor q in
  match (q - inject_Z f ?= 1 # 2)%Q with
  | Lt => f
  | Eq => if Z.even f then f else (f + 1)%Z
  | Gt => (f + 1)%Z
  end.

(** The largest [l] with [2 ^ l <= x], for [x] above 0. *)
Definition log2_floor (x : Q) : Z :=
  let l := (Z.log2 (Qnum x) - Z.log2 (Zpos (Qden x)))%Z in
  if Qle_bool (2 ^ l) x then l else (l - 1)%Z.

(** The exponent of the last bit of the doubles around [x]. *)
Definition ulp_exponent (x : Q) : Z := Z.max (log2_floor x - 52) (-1074).

Definition round_positive (x : Q) : Q :=
  let e := ulp_exponent x in
  (inject_Z (round_half_even (x / 2 ^ e)) * 2 ^ e)%Q.

(** The double nearest to [x]. *)
Definition round_double (x : Q) : Q :=
  match (x ?= 0)%Q with
  | Gt => round_positive x
  | Lt => (- round_positive (- x))%Q
  | Eq => 0%Q
  end.

(** [x] is a double. *)
Definition double (x : Q) : Prop := (round_double x == x)%Q.

(** [Math.floor(r * currentIndex)], the product a product of doubles. *)
Definition floor_scaled (r : Q) (currentIndex : nat) : nat :=
  Z.to_nat (Qfloor (round_double (r * inject_Z (Z.of_nat currentIndex)))).

Section Playlist.

(** [random n] is the value of the [n]-th call of [Math.random]. *)
Variable random : nat → Q.

(** The loop of [shuffle]; [currentIndex] is the loop variable, [n] the
    number of draws made before. *)
Fixpoint shuffle_loop {A} (currentIndex n : nat) (array : list A) : list A * nat :=
  match currentIndex with
  | O => (array, n)
  | S currentIndex' =>
      let randomIndex := floor_scaled (random n) currentIndex in
      shuffle_loop currentIndex' (S n) (swap array currentIndex' randomIndex)
  end.

Definition shuffle {A} (n : nat) (array : list A) : list A * nat :=
  shuffle_loop (length array) n array.

Definition candidates (activeLevels : list Z) (app : AppManager) : list MergedItem :=
  filter (λ item, m_level item ∈ activeLevels) (items app).

Definition refreshPlaylist (activeLevels : list Z) (mode : string)
    (app : AppManager) : AppManager :=
  let app := set_filter activeLevels mode app in
  let candidates := candidates activeLevels app in
  match candidates with
  | [] => set_playlist [] app
  | _ =>
      let app :=
        if decide (mode = "random") then
          let '(array, n) := shuffle (draws app) candidates in
          set_draws n (set_playlist array (set_isRandom true app))
        else if decide (mode = "id_asc") then
          set_playlist (sort by_id candidates) (set_isRandom false app)
        else
          set_playlist (sort by_last_studied candidates) (set_isRandom false app)
      in
      set_currentIndex 0 app
  end.

(** [None] stands for [null] and for [undefined], the value of
    [this.playlist[this.currentIndex]] outside the array. *)
Definition getNextItem (app : AppManager) : option MergedItem * AppManager :=
  match playlist app with
  | [] => (None, app)
  | _ =>
      let app :=
        if (length (playlist app) <=? currentIndex app)%nat then
          let app := set_currentIndex 0 app in
          if isRandom app then refreshPlaylist (targetLevels app) (sortMode app) app
          else app
        else app
      in
      let item := playlist app !! currentIndex app in
      (item, set_currentIndex (S (currentIndex app)) app)
  end.

(** [n] calls of [getNextItem] in a row and what they return. *)
Fixpoint nextItems (n : nat) (app : AppManager) : list (option MergedItem) * AppManager :=
  match n with
  | O => ([], app)
  | S n' =>
      let '(item, app') := getNextItem app in
      let '(rest, app'') := nextItems n' app' in
      (item :: rest, app'')
  end.

End Playlist.


(** The object the constructor builds, over a database. *)
Definition new (d : DB) : AppManager :=
  mkApp d [] [] 0 false [] None [0; 1; 2]%Z "random" 0.

End App.

(** ** The session: the name of the database, the start, the subjects *)

Module Manager.
Import Store App.

(** *** The name of the database, from the constructor *)

Definition slash : ascii := "/"%char.

(** A letter in lower case, any other character as it is: how the flag [i]
    compares. *)
Definition lower (c : ascii) : ascii :=
  let n := nat_of_ascii c in
  if (65 <=? n)%nat && (n <=? 90)%nat then ascii_of_nat (n + 32) else c.

Fixpoint lower_string (s : string) : string :=
  match s with
  | EmptyString => EmptyString
  | String c s' => String (lower c) (lower_string s')
  end.

(** [.htm] or [.html], in any case. *)
Definition is_extension (s : string) : bool :=
  bool_decide (lower_string s = ".html") || bool_decide (lower_string s = ".htm").

(** What the pattern asks of the text after its slash, besides holding no
    slash: one character at least, then the extension, then the end. *)
Fixpoint ends_html (s : string) : bool :=
  match s with
  | EmptyString => false
  | String _ s' => is_extension s' || ends_html s'
  end.

(** The first [replace] of the constructor: the text without the match of
    the pattern, a slash and a page name at the end, or [None] without a
    match.  A match starts at the last slash, the text after it holding
    none. *)
Fixpoint replace_page (path : string) : option string :=
  match path with
  | EmptyString => None
  | String c path' =>
      match replace_page path' with
      | Some dir => Some (String c dir)
      | None =>
          if Ascii.eqb c slash && negb (Csv.includes slash path') && ends_html path'
          then Some EmptyString
          else None
      end
  end.

(** [dirPath.substring(0, dirPath.length - 1)] when [dirPath.endsWith('/')]. *)
Fixpoint chop_slash (dirPath : string) : string :=
  match dirPath with
  | EmptyString => EmptyString
  | String c EmptyString => if Ascii.eqb c slash then EmptyString else dirPath
  | String c dirPath' => String c (chop_slash dirPath')
  end.

Definition alphanumeric (c : ascii) : bool :=
  let n := nat_of_ascii c in
  (48 <=? n)%nat && (n <=? 57)%nat || (65 <=? n)%nat && (n <=? 90)%nat
  || (97 <=? n)%nat && (n <=? 122)%nat.

(** The second [replace]: an underscore for every character that is no
    letter and no digit. *)
Fixpoint pathSuffix (dirPath : string) : string :=
  match dirPath with
  | EmptyString => EmptyString
  | String c dirPath' =>
      String (if alphanumeric c then c else "_"%char) (pathSuffix dirPath')
  end.

(** The name the constructor gives [MemorizationDB], from
    [window.location.pathname]. *)
Definition dbName (pathname : string) : string :=
  let dirPath := default pathname (replace_page pathname) in
  "MemorizationAppDB_v2_" +:+ pathSuffix (chop_slash dirPath).

(** *** Subjects *)

Definition defaultSettings : Settings := mkSettings (Some "en-US") (Some "ja-JP").

(** A rejection of the store is thrown on by the [await]. *)
Definition createSubject (nm : string) (now : Z) (app : AppManager)
  : Outcome Z * AppManager :=
  match Store.createSubject nm defaultSettings now (db app) with
  | (Rejected e, db1) => (Rejected e, set_db db1 app)
  | (Resolved id, db1) =>
      (Resolved id, selectSubject id (loadSubjects (set_db db1 app)))
  end.

(** [confirmed] is the answer to [confirm]. *)
Definition deleteSubject (confirmed : bool) (id : Z) (now : Z) (app : AppManager)
  : Outcome bool * AppManager :=
  if confirmed then
    match Store.deleteSubject id (db app) with
    | (Rejected e, db1) => (Rejected e, set_db db1 app)
    | (Resolved _, db1) =>
        let app := loadSubjects (set_db db1 app) in
        match currentSubject app with
        | Some s =>
            if decide (s.1 = id) then
              match subjects app with
              | first :: _ => (Resolved true, selectSubject first.1 app)
              | [] =>
                  match createSubject "General" now app with
                  | (Rejected e, app') => (Rejected e, app')
                  | (Resolved _, app') => (Resolved true, app')
                  end
              end
            else (Resolved true, app)
        | None => (Resolved true, app)
        end
    end
  else (Resolved false, app).

(** *** The start *)

(** [generals.sort((a, b) => a.id - b.id)] *)
Definition by_subject_id (a b : Z * SubjectRow) : Z := (a.1 - b.1)%Z.

(** One round of the loop over the duplicates. *)
Definition delete_if_empty (db : DB) (subjectToDelete : Z * SubjectRow) : DB :=
  match getAllItemsWithProgress subjectToDelete.1 db with
  | [] => (Store.deleteSubject subjectToDelete.1 db).2
  | _ => db
  end.

(** The clean-up of duplicate subjects named General; the loop starts at
    the second of them. *)
Definition cleanup (app : AppManager) : AppManager :=
  let generals := filter (λ s : Z * SubjectRow, name s.2 = "General") (subjects app) in
  if (1 <? length generals)%nat then
    let generals := sort by_subject_id generals in
    loadSubjects (set_db (foldl delete_if_empty (db app) (tail generals)) app)
  else app.

(** The body behind [initPromise], run once.  [db app] is the database
    [this.db.init()] opens.  [lastId] is what [parseInt] makes of the entry
    [lastSubjectId] of [localStorage]: [None] without an entry, and for one
    that does not start with a number, which no [id] equals. *)
Definition init (lastId : option Z) (now : Z) (app : AppManager)
  : Outcome unit * AppManager :=
  let app := cleanup (loadSubjects app) in
  match subjects app with
  | [] =>
      match createSubject "General" now app with
      | (Rejected e, app') => (Rejected e, app')
      | (Resolved _, app') => (Resolved tt, app')
      end
  | first :: _ =>
      match lastId with
      | Some id =>
          match list_find (λ s : Z * SubjectRow, s.1 = id) (subjects app) with
          | Some (_, found) => (Resolved tt, selectSubject found.1 app)
          | None => (Resolved tt, selectSubject first.1 app)
          end
      | None => (Resolved tt, selectSubject first.1 app)
      end
  end.

(** *** The import of text *)

(** A parsed line as [importItems] is given it: the four texts, no level. *)
Definition record_of_parsed (p : Csv.ParsedItem) : ImportRecord :=
  mkRecord None None (Csv.front p) (Some (Csv.front_info p))
           (Csv.back p) (Some (Csv.back_info p)) None None.

(** [clock] is the clock [importItems] reads. *)
Definition importDataRaw (text : string) (clock : nat → Z) (app : AppManager)
  : Outcome Z * AppManager :=
  match currentSubject app with
  | None => (Resolved (-1)%Z, app)
  | Some s =>
      let parsedItems := Csv.parseCSV text in
      match parsedItems with
      | [] => (Resolved 0%Z, app)
      | _ =>
          match importItems s.1 (record_of_parsed <$> parsedItems) false clock (db app) with
          | (Rejected e, db1) => (Rejected e, set_db db1 app)
          | (Resolved _, db1) =>
              (Resolved (Z.of_nat (length parsedItems)), loadData (set_db db1 app))
          end
      end
  end.

End Manager.

(** ** Databases and sessions used as examples *)

Module Examples.

Definition card (f b : string) : Store.ImportRecord :=
  Store.mkRecord None None f None b None None None.

(** A clock that stands still. *)
Definition epoch : nat → Z := λ _, 0%Z.

(** One subject with one card, made through the interface. *)
Definition one_card : Store.DB :=
  (Store.importItems 1 [card "A" "B"] false epoch
     (Store.createSubject "S" Store.noSettings 0 Store.init).2).2.

(** [updateProgress(2, 0)] on it: a progress row under the key the next item
    will get. *)
Definition graded_ahead : Store.DB := (Store.updateProgress 2 0 0 one_card).2.

(** The card is deleted, and graded afterwards by a page that still shows
    it: a progress row without its item. *)
Definition graded_after_delete : Store.DB :=
  (Store.updateProgress 1 2 100 (Store.deleteItem 1 one_card).2).2.

(** Two records, the first as a backup holds them. *)
Definition restored : list Store.ImportRecord :=
  [Store.mkRecord (Some 1%Z) (Some 9%Z) "A" None "B" None (Some 2%Z) (Some 100%Z);
   card "C" "D"].

Definition blank (id lvl : Z) : Store.MergedItem :=
  Store.mkMerged id 1 EmptyString EmptyString EmptyString EmptyString lvl 0.

(** The items of ids 1, 2, 3 and levels 0, 1, 2. *)
Definition three_cards : App.AppManager :=
  App.set_items [blank 1 0; blank 2 1; blank 3 2] (App.new Store.init).

(** [Math.random] returning one half at every call. *)
Definition half : nat → Q := λ _, (1 # 2)%Q.

(** A session on a subject with the single item A / B, level 2, last studied
    at 100. *)
Definition stored : App.AppManager :=
  let d :=
    (Store.importItems 1
       [Store.mkRecord None None "A" None "B" None (Some 2%Z) (Some 100%Z)] false epoch
       (Store.createSubject "Words" Store.noSettings 0 Store.init).2).2 in
  App.selectSubject 1 (App.loadSubjects (App.set_db d (App.new Store.init))).

(** Three items last studied at 30, never, and 30. *)
Definition studied_cards : App.AppManager :=
  App.set_items
    [Store.mkMerged 1 1 "a" EmptyString "b" EmptyString 0 30;
     Store.mkMerged 2 1 "c" EmptyString "d" EmptyString 0 0;
     Store.mkMerged 3 1 "e" EmptyString "f" EmptyString 0 30]%Z
    (App.new Store.init).

(** A round in random order over the level 0 has come to its end, and its
    one item was graded 2 on the way. *)
Definition graded_out : App.AppManager :=
  App.mkApp Store.init [blank 1 2] [blank 1 2] 1 true [] None [0%Z] "random" 1.

(** A session over a store with two subjects named General, the older with
    a card, and a third subject; nothing is loaded yet. *)
Definition duplicate_generals : App.AppManager :=
  let d0 := (Store.createSubject "General" Store.noSettings 0 Store.init).2 in
  let d1 := (Store.createSubject "General" Store.noSettings 0 d0).2 in
  let d2 := (Store.createSubject "Words" Store.noSettings 0 d1).2 in
  App.set_db (Store.importItems 1 [card "A" "B"] false epoch d2).2 (App.new Store.init).


(** The line x, tab, y, tab, z. *)
Definition tab_line : string :=
  "x" +:+ String Csv.tab ("y" +:+ String Csv.tab "z").

Definition quoted (s : string) : string :=
  String Csv.dquote (s +:+ String Csv.dquote EmptyString).

(** The line of the four quoted fields a, b, c, d, comma separated. *)
Definition quoted_line : string :=
  quoted "a" +:+ "," +:+ quoted "b" +:+ "," +:+ quoted "c" +:+ "," +:+ quoted "d".

End Examples.

(** ** Facts about the store *)

Module StoreFacts.
Import Store Examples.
Local Open Scope Z_scope.

(** Evaluates a key invariant on a database given in full. *)
Ltac keys_by_evaluation :=
  unfold generators_ahead, progress_issued, keys_below;
  apply (bool_decide_unpack _); vm_compute; exact I.

(** *** Reading a store in key order *)

#[local] Instance key_le_total {V} : Total (@key_le V).
Proof. intros a b. unfold key_le. lia. Qed.

#[local] Instance key_le_trans {V} : Transitive (@key_le V).
Proof. intros a b c. unfold key_le. lia. Qed.

Lemma os_getAll_sorted {V} (m : gmap Z V) : StronglySorted key_le (os_getAll m).
Proof. apply StronglySorted_merge_sort; apply _. Qed.

Lemma elem_of_os_getAll {V} (m : gmap Z V) k v :
  (k, v) ∈ os_getAll m ↔ m !! k = Some v.
Proof.
  unfold os_getAll. rewrite merge_sort_Permutation. apply elem_of_map_to_list.
Qed.

Lemma os_getAll_insert_last {V} (m : gmap Z V) k v :
  keys_below k m →
  os_getAll (<[k := v]> m) = os_getAll m ++ [(k, v)].
Proof.
  intros Hlt.
  assert (m !! k = None) as Hk.
  { destruct (m !! k) eqn:E; [|done]. apply Hlt in E. lia. }
  apply (StronglySorted_unique_strong key_le).
  - intros [k1 v1] [k2 v2] H1%elem_of_os_getAll H2; unfold key_le; cbn.
    intros. assert (k1 = k2) as -> by lia. f_equal.
    apply elem_of_app in H2 as [H2%elem_of_os_getAll|H2%list_elem_of_singleton].
    + rewrite lookup_insert_ne in H1; [congruence|]. intros <-. congruence.
    + injection H2 as -> ->. rewrite lookup_insert_eq in H1. congruence.
  - apply os_getAll_sorted.
  - apply StronglySorted_app. split; [|split].
    + intros [k1 v1] x2 H1%elem_of_os_getAll ->%list_elem_of_singleton.
      unfold key_le; cbn. apply Hlt in H1. lia.
    + apply os_getAll_sorted.
    + repeat constructor.
  - unfold os_getAll. rewrite !merge_sort_Permutation.
    rewrite map_to_list_insert by done. by rewrite Permutation_cons_append.
Qed.

Lemma elem_of_index_getAll sid (m : gmap Z ItemRow) k it :
  (k, it) ∈ index_getAll sid m ↔ m !! k = Some it ∧ subject_id it = sid.
Proof.
  unfold index_getAll. rewrite list_elem_of_filter, elem_of_os_getAll. cbn. tauto.
Qed.

Lemma elem_of_index_getAllKeys sid (m : gmap Z ItemRow) k :
  k ∈ index_getAllKeys sid m ↔ ∃ it, m !! k = Some it ∧ subject_id it = sid.
Proof.
  unfold index_getAllKeys. rewrite list_elem_of_fmap. split.
  - intros [[k' it] [-> H]]. exists it. by apply elem_of_index_getAll.
  - intros [it H]. exists (k, it). split; [done|]. by apply elem_of_index_getAll.
Qed.

Lemma list_find_getSubjects (m : gmap Z SubjectRow) id row :
  m !! id = Some row →
  ∃ i, list_find (λ s : Z * SubjectRow, s.1 = id) (os_getAll m) = Some (i, (id, row)).
Proof.
  intros Hm.
  destruct (list_find (λ s : Z * SubjectRow, s.1 = id) (os_getAll m)) as [[i [k v]]|] eqn:Hf.
  - apply list_find_Some in Hf as (Hi & Hk & _). cbn in Hk. subst k.
    apply list_elem_of_lookup_2, elem_of_os_getAll in Hi. exists i. congruence.
  - exfalso. apply list_find_None in Hf.
    apply (proj1 (Forall_forall _ _) Hf (id, row)); [|done]. by apply elem_of_os_getAll.
Qed.

Lemma filter_all {A} (P : A → Prop) `{∀ x, Decision (P x)} (l : list A) :
  Forall P l → filter P l = l.
Proof.
  induction 1 as [|x l Hx _ IH]; [done|]. by rewrite filter_cons_True, IH.
Qed.

Lemma filter_none {A} (P : A → Prop) `{∀ x, Decision (P x)} (l : list A) :
  Forall (λ x, ¬ P x) l → filter P l = [].
Proof.
  induction 1 as [|x l Hx _ IH]; [done|]. by rewrite filter_cons_False.
Qed.

(** *** The cascade of deletes *)

Lemma foldl_delete_subjects db ks :
  subjects (foldl delete_item_and_progress db ks) = subjects db
  ∧ subjects_key (foldl delete_item_and_progress db ks) = subjects_key db
  ∧ items_key (foldl delete_item_and_progress db ks) = items_key db.
Proof.
  revert db. induction ks as [|k ks IH]; intros db; cbn [foldl]; [done|].
  destruct (IH (delete_item_and_progress db k)) as (-> & -> & ->). done.
Qed.

(** The lookups of a store after the deletes of a list of keys; the same
    argument serves the items and the progress store. *)
Ltac lookup_after_deletes :=
  match goal with
  | |- _ (foldl delete_item_and_progress ?db ?ks) !! ?k = _ =>
      revert db; induction ks as [|k' ks IH]; intros db; cbn [foldl];
      [ destruct (decide (k ∈ [])) as [H|_]; [by apply elem_of_nil in H|done]
      | rewrite IH;
        destruct (decide (k ∈ ks)) as [Hin|Hnin];
        destruct (decide (k ∈ k' :: ks)) as [Hin'|Hnin']; try done;
        [ exfalso; apply Hnin'; by right
        | apply elem_of_cons in Hin' as [->|?]; [|done]; cbn; apply lookup_delete_eq
        | cbn; apply lookup_delete_ne; intros ->; apply Hnin'; by left ] ]
  end.

Lemma foldl_delete_items db ks k :
  items (foldl delete_item_and_progress db ks) !! k =
    if decide (k ∈ ks) then None else items db !! k.
Proof. lookup_after_deletes. Qed.

Lemma foldl_delete_progress db ks k :
  progress (foldl delete_item_and_progress db ks) !! k =
    if decide (k ∈ ks) then None else progress db !! k.
Proof. lookup_after_deletes. Qed.

Lemma clearItemsBySubject_cleared sid db :
  ∃ db1, clearItemsBySubject sid db = (Resolved tt, db1) ∧ cleared sid db db1.
Proof.
  eexists. split; [reflexivity|].
  set (ks := index_getAllKeys sid (items db)).
  destruct (foldl_delete_subjects db ks) as (Hs & Hsk & Hik).
  split; [done|split; [done|split; [done|split; [|split]]]].
  - intros k it. rewrite foldl_delete_items.
    destruct (decide (k ∈ ks)) as [Hin|Hnin].
    + apply elem_of_index_getAllKeys in Hin as (it' & Hit & Hsid).
      split; [done|]. intros [H1 H2]. congruence.
    + split; [|tauto]. intros H. split; [done|]. intros Hsid.
      apply Hnin, elem_of_index_getAllKeys. eauto.
  - intros k it Hit Hsid. rewrite foldl_delete_progress.
    rewrite decide_True; [done|]. apply elem_of_index_getAllKeys. eauto.
  - intros k Hk. rewrite foldl_delete_progress.
    rewrite decide_False; [done|]. intros (it & Hit & Hsid)%elem_of_index_getAllKeys.
    by apply (Hk it).
Qed.

Lemma cleared_keeps_keys sid db db1 :
  cleared sid db db1 →
  (generators_ahead db → generators_ahead db1) ∧ (progress_issued db → progress_issued db1).
Proof.
  intros (Hs & Hsk & Hik & Hitems & Hp1 & Hp2).
  unfold generators_ahead, progress_issued, keys_below. rewrite Hs, Hsk, Hik. split.
  - intros [Hws Hwi]. split; [done|]. intros k it [Hit _]%Hitems. by apply Hwi in Hit.
  - intros Hwp k p Hp. destruct (items db !! k) as [it|] eqn:Hit.
    + destruct (decide (subject_id it = sid)) as [Hsid|Hsid].
      * by rewrite (Hp1 k it Hit Hsid) in Hp.
      * rewrite Hp2 in Hp; [by apply Hwp in Hp|]. intros it'. congruence.
    + rewrite Hp2 in Hp; [by apply Hwp in Hp|]. intros it'. congruence.
Qed.

(** *** The two phases of a batch *)

Lemma add_items_inr sid now recs : ∀ n db added db',
  add_items sid now n recs db = inr (added, db') →
  added = imap (λ i r, (items_key db + Z.of_nat i, r)) recs ∧
  subjects db' = subjects db ∧ subjects_key db' = subjects_key db ∧
  progress db' = progress db ∧
  items_key db' = items_key db + Z.of_nat (length recs) ∧
  (∀ (i : nat) r, recs !! i = Some r →
     items db !! (items_key db + Z.of_nat i) = None ∧
     items db' !! (items_key db + Z.of_nat i) = Some (item_of_record sid r (now (n + i)%nat))) ∧
  (∀ k, k < items_key db ∨ items_key db + Z.of_nat (length recs) ≤ k →
     items db' !! k = items db !! k).
Proof.
  induction recs as [|r recs IH]; intros n db added db' H; cbn in H.
  - injection H as <- <-. cbn. repeat split; try done; try lia.
  - unfold os_add in H. destruct (items db !! items_key db) eqn:Hk; [done|].
    match type of H with context [add_items _ _ _ _ ?d] => set (d1 := d) in * end.
    destruct (add_items sid now (S n) recs d1) as [e|[added1 db1]] eqn:Hrec; [done|].
    injection H as <- <-.
    apply IH in Hrec as (Hadd & Hs & Hsk & Hp & Hik & Hrows & Hframe).
    cbn in *. split; [|split; [done|split; [done|split; [done|split; [lia|split]]]]].
    + rewrite Hadd. rewrite Z.add_0_r. f_equal. apply imap_ext. intros i x _.
      cbn. f_equal. lia.
    + intros [|i] r' Hi; cbn in Hi.
      * injection Hi as <-. cbn. rewrite Z.add_0_r, Nat.add_0_r. split; [done|].
        rewrite Hframe by lia. apply lookup_insert_eq.
      * apply Hrows in Hi as [Hi1 Hi2].
        replace (items_key db + Z.of_nat (S i)) with (items_key db + 1 + Z.of_nat i) by lia.
        replace (n + S i)%nat with (S (n + i)) by lia.
        rewrite lookup_insert_ne in Hi1 by lia. done.
    + intros k Hk'. rewrite Hframe by lia. apply lookup_insert_ne. lia.
Qed.

Lemma add_items_succeeds sid now recs : ∀ n db,
  keys_below (items_key db) (items db) →
  ∃ added db', add_items sid now n recs db = inr (added, db').
Proof.
  induction recs as [|r recs IH]; intros n db Hwf; cbn.
  - eauto.
  - unfold os_add. destruct (items db !! items_key db) eqn:Hk.
    { apply Hwf in Hk. lia. }
    match goal with |- context [add_items _ _ _ _ ?d] => set (d1 := d) end.
    destruct (IH (S n) d1) as (added & db' & ->); [|eauto].
    unfold d1, keys_below. cbn. apply map_Forall_insert_2; [lia|].
    eapply map_Forall_impl; [exact Hwf|]. cbn. intros. lia.
Qed.

Lemma add_items_getAll sid now recs : ∀ n db added db',
  keys_below (items_key db) (items db) →
  add_items sid now n recs db = inr (added, db') →
  os_getAll (items db') =
    os_getAll (items db) ++
    imap (λ i r, (items_key db + Z.of_nat i, item_of_record sid r (now (n + i)%nat))) recs.
Proof.
  induction recs as [|r recs IH]; intros n db added db' Hwf H; cbn in H.
  - injection H as <- <-. cbn. by rewrite app_nil_r.
  - unfold os_add in H. destruct (items db !! items_key db) eqn:Hk; [done|].
    match type of H with context [add_items _ _ _ _ ?d] => set (d1 := d) in * end.
    destruct (add_items sid now (S n) recs d1) as [e|[added1 db1]] eqn:Hrec; [done|].
    injection H as <- <-.
    apply IH in Hrec.
    + rewrite Hrec. cbn. rewrite os_getAll_insert_last by done.
      rewrite <-app_assoc. cbn. rewrite Z.add_0_r, Nat.add_0_r. do 2 f_equal.
      apply imap_ext. intros i x _. cbn. f_equal; [lia|]. do 2 f_equal. lia.
    + unfold d1, keys_below. cbn. apply map_Forall_insert_2; [lia|].
      eapply map_Forall_impl; [exact Hwf|]. cbn. intros. lia.
Qed.

Lemma add_progress_inr added : ∀ db db',
  add_progress added db = inr db' →
  subjects db' = subjects db ∧ subjects_key db' = subjects_key db ∧
  items db' = items db ∧ items_key db' = items_key db ∧
  (∀ id r, (id, r) ∈ added →
     progress db !! id = None ∧ progress db' !! id = Some (progress_of_record r)) ∧
  (∀ k, k ∉ added.*1 → progress db' !! k = progress db !! k).
Proof.
  induction added as [|[id r] added IH]; intros db db' H; cbn in H.
  - injection H as <-.
    split; [done|split; [done|split; [done|split; [done|split]]]]; [|done].
    by intros ?? ?%elem_of_nil.
  - unfold os_add in H. destruct (progress db !! id) eqn:Hk; [done|].
    apply IH in H as (Hs & Hsk & Hi & Hik & Hrows & Hframe). cbn in *.
    assert (id ∉ added.*1) as Hfresh.
    { intros [[id0 r0] [-> Hin]]%list_elem_of_fmap.
      apply Hrows in Hin as [Hin _]. cbn in Hin. by rewrite lookup_insert_eq in Hin. }
    split; [done|split; [done|split; [done|split; [done|split]]]].
    + intros id' r' [Heq|Hin]%elem_of_cons.
      * injection Heq as -> ->. split; [done|].
        rewrite Hframe by done. apply lookup_insert_eq.
      * pose proof (Hrows _ _ Hin) as [H1 H2]. split; [|done].
        destruct (decide (id = id')) as [->|Hne]; [by rewrite lookup_insert_eq in H1|].
        by rewrite lookup_insert_ne in H1.
    + intros k Hk'. apply not_elem_of_cons in Hk' as [Hne Hk'].
      rewrite Hframe by done. by apply lookup_insert_ne.
Qed.

Lemma add_progress_succeeds added : ∀ db,
  NoDup added.*1 →
  (∀ id, id ∈ added.*1 → progress db !! id = None) →
  ∃ db', add_progress added db = inr db'.
Proof.
  induction added as [|[id r] added IH]; intros db Hnd Hfree; cbn.
  - eauto.
  - apply NoDup_cons in Hnd as [Hnin Hnd]. unfold os_add.
    rewrite Hfree by (cbn; left). apply IH; [done|].
    intros id' Hin. cbn. rewrite lookup_insert_ne; [|by intros ->].
    apply Hfree. by right.
Qed.

Lemma imap_keys_elem (key : Z) (recs : list ImportRecord) id r :
  (id, r) ∈ imap (λ (i : nat) r, (key + Z.of_nat i, r)) recs ↔
  ∃ i : nat, recs !! i = Some r ∧ id = key + Z.of_nat i.
Proof.
  rewrite elem_of_lookup_imap. split.
  - intros (i & y & Heq & Hi). injection Heq as -> ->. eauto.
  - intros (i & Hi & ->). eauto.
Qed.

Lemma imap_keys_NoDup (key : Z) (recs : list ImportRecord) :
  NoDup (imap (λ (i : nat) r, (key + Z.of_nat i, r)) recs).*1.
Proof.
  apply NoDup_alt. intros i j x.
  rewrite !list_lookup_fmap, !list_lookup_imap.
  destruct (recs !! i); destruct (recs !! j); cbn; try done.
  intros [= <-] [= H]. lia.
Qed.

Lemma add_batch_inr sid recs now db db' :
  add_batch sid recs now db = inr (tt, db') → batch_added sid recs now db db'.
Proof.
  unfold add_batch. intros H.
  destruct (add_items sid now 0 recs db) as [e|[added db2]] eqn:H1; [done|].
  destruct (add_progress added db2) as [e|db3] eqn:H2; [done|].
  injection H as <-.
  apply add_items_inr in H1 as (Hadd & Hs & Hsk & Hp & Hik & Hrows & Hframe).
  apply add_progress_inr in H2 as (Hs' & Hsk' & Hi' & Hik' & Hrows' & Hframe').
  split; [congruence|split; [congruence|split; [congruence|split]]].
  - intros i r Hi id.
    destruct (Hrows i r Hi) as [Hfree Hrow].
    destruct (Hrows' id r) as [Hpfree Hprow].
    { rewrite Hadd. apply imap_keys_elem. eauto. }
    rewrite Hi'. rewrite Hp in Hpfree. done.
  - intros k Hk. rewrite Hi', Hframe by done. split; [done|].
    rewrite Hframe', Hp; [done|].
    rewrite Hadd. intros [[id r] [-> Hin]]%list_elem_of_fmap.
    apply imap_keys_elem in Hin as (i & Hi & Hid). cbn in Hk.
    apply lookup_lt_Some in Hi. lia.
Qed.

Lemma add_batch_succeeds sid recs now db :
  keys_below (items_key db) (items db) → progress_issued db →
  ∃ db', add_batch sid recs now db = inr (tt, db').
Proof.
  intros Hwi Hwp. unfold add_batch.
  destruct (add_items_succeeds sid now recs 0%nat db Hwi) as (added & db2 & H1).
  rewrite H1.
  apply add_items_inr in H1 as (Hadd & Hs & Hsk & Hp & Hik & Hrows & Hframe).
  destruct (add_progress_succeeds added db2) as [db3 ->]; [..|eauto].
  - rewrite Hadd. apply imap_keys_NoDup.
  - intros id [[id' r] [-> Hin]]%list_elem_of_fmap. rewrite Hadd in Hin.
    apply imap_keys_elem in Hin as (i & Hi & ->). cbn. rewrite Hp.
    destruct (progress db !! (items_key db + Z.of_nat i)) eqn:E; [|done].
    apply Hwp in E. lia.
Qed.

Lemma add_batch_getAll sid recs now db db' :
  keys_below (items_key db) (items db) →
  add_batch sid recs now db = inr (tt, db') →
  os_getAll (items db') =
    os_getAll (items db) ++
    imap (λ (i : nat) r, (items_key db + Z.of_nat i, item_of_record sid r (now i))) recs.
Proof.
  unfold add_batch. intros Hwf H.
  destruct (add_items sid now 0 recs db) as [e|[added db2]] eqn:H1; [done|].
  destruct (add_progress added db2) as [e|db3] eqn:H2; [done|].
  injection H as <-.
  apply add_progress_inr in H2 as (_ & _ & -> & _).
  by apply (add_items_getAll _ _ _ _ _ _ _ Hwf) in H1.
Qed.

Lemma add_items_without_ids sid now recs : ∀ n db,
  add_items sid now n (without_ids <$> recs) db =
    match add_items sid now n recs db with
    | inl e => inl e
    | inr (added, db') => inr (prod_map id without_ids <$> added, db')
    end.
Proof.
  induction recs as [|r recs IH]; intros n db; cbn; [done|].
  change (item_of_record sid (without_ids r) (now n)) with (item_of_record sid r (now n)).
  destruct (os_add _ _ _) as [e|m]; [done|]. rewrite IH.
  by destruct (add_items _ _ _ recs _) as [e|[added db']].
Qed.

Lemma add_progress_without_ids added : ∀ db,
  add_progress (prod_map id without_ids <$> added) db = add_progress added db.
Proof.
  induction added as [|[id r] added IH]; intros db; cbn; [done|].
  change (progress_of_record (without_ids r)) with (progress_of_record r).
  destruct (os_add _ _ _) as [e|m]; [done|]. apply IH.
Qed.

Lemma importItems_without_ids sid recs clearExisting now db :
  importItems sid (without_ids <$> recs) clearExisting now db =
  importItems sid recs clearExisting now db.
Proof.
  unfold importItems, transaction, add_batch. rewrite add_items_without_ids.
  destruct (add_items _ _ _ recs _) as [e|[added db']]; [done|].
  by rewrite add_progress_without_ids.
Qed.

(** *** Whole operations *)

(** A resolved [importItems] cleared the subject, when asked to, and added
    the batch to what that left. *)
Lemma importItems_resolved sid recs clearExisting now db db' :
  importItems sid recs clearExisting now db = (Resolved tt, db') →
  ∃ db1, (if clearExisting then cleared sid db db1 else db1 = db) ∧
         batch_added sid recs now db1 db' ∧
         add_batch sid recs now db1 = inr (tt, db').
Proof.
  unfold importItems, transaction.
  set (db1 := if clearExisting then (clearItemsBySubject sid db).2 else db).
  destruct (add_batch sid recs now db1) as [e|[[] d]] eqn:Hadd; [done|].
  intros [= <-]. exists db1. split; [|split; [by apply add_batch_inr|done]].
  unfold db1. destruct clearExisting; [|done].
  destruct (clearItemsBySubject_cleared sid db) as (d1 & -> & Hc). done.
Qed.

(** A rejected one leaves what the clearing left. *)
Lemma importItems_rejected sid recs clearExisting now db e db' :
  importItems sid recs clearExisting now db = (Rejected e, db') →
  if clearExisting then cleared sid db db' else db' = db.
Proof.
  unfold importItems, transaction.
  set (db1 := if clearExisting then (clearItemsBySubject sid db).2 else db).
  destruct (add_batch sid recs now db1) as [e'|[[] d]]; [|done].
  intros Heq. assert (db' = db1) as -> by congruence. clear Heq.
  unfold db1. destruct clearExisting; [|done].
  destruct (clearItemsBySubject_cleared sid db) as (d1 & -> & Hc). done.
Qed.

(** It resolves on every database whose keys were issued. *)
Lemma importItems_resolves sid recs clearExisting now db :
  generators_ahead db → progress_issued db →
  ∃ db', importItems sid recs clearExisting now db = (Resolved tt, db').
Proof.
  intros Hg Hp. unfold importItems, transaction.
  assert (∃ db1, (if clearExisting then (clearItemsBySubject sid db).2 else db) = db1 ∧
                 generators_ahead db1 ∧ progress_issued db1) as (db1 & -> & Hg1 & Hp1).
  { destruct clearExisting; [|by exists db].
    destruct (clearItemsBySubject_cleared sid db) as (d & -> & Hc).
    exists d. destruct (cleared_keeps_keys _ _ _ Hc) as [Hcg Hcp]. auto. }
  destruct (add_batch_succeeds sid recs now db1 (proj2 Hg1) Hp1) as [db' ->]. eauto.
Qed.


(** [createSubject] draws a key no subject has. *)
Lemma createSubject_fresh nm st now db :
  generators_ahead db →
  subjects db !! subjects_key db = None ∧
  createSubject nm st now db =
    (Resolved (subjects_key db),
     mkDB (<[subjects_key db := mkSubject nm st now]> (subjects db))
          (subjects_key db + 1) (items db) (items_key db) (progress db)).
Proof.
  intros [Hwf _].
  assert (subjects db !! subjects_key db = None) as Hfree.
  { destruct (subjects db !! subjects_key db) eqn:E; [|done]. apply Hwf in E. lia. }
  split; [done|]. unfold createSubject, transaction, os_add. by rewrite Hfree.
Qed.

(** *** The keys in use stay issued *)

Lemma keys_below_insert {V} (n k : Z) (v : V) (m : gmap Z V) :
  k < n → keys_below n m → keys_below n (<[k := v]> m).
Proof. intros Hk Hm. by apply map_Forall_insert_2. Qed.

Lemma keys_below_delete {V} (n k : Z) (m : gmap Z V) :
  keys_below n m → keys_below n (delete k m).
Proof. intros Hm. by apply map_Forall_delete. Qed.

Lemma keys_below_mono {V} (n n' : Z) (m : gmap Z V) :
  n ≤ n' → keys_below n m → keys_below n' m.
Proof. intros Hn Hm k v Hk. apply Hm in Hk. lia. Qed.

Lemma foldl_delete_keeps_keys ks : ∀ db,
  (generators_ahead db → generators_ahead (foldl delete_item_and_progress db ks)) ∧
  (progress_issued db → progress_issued (foldl delete_item_and_progress db ks)).
Proof.
  induction ks as [|k ks IH]; intros db; cbn [foldl]; [done|].
  destruct (IH (delete_item_and_progress db k)) as [IHg IHp]. split.
  - intros [Hs Hi]. apply IHg. split; [done|]. by apply keys_below_delete.
  - intros Hp. apply IHp. by apply keys_below_delete.
Qed.

Lemma batch_added_keeps_keys sid recs now db db' :
  batch_added sid recs now db db' →
  (generators_ahead db → generators_ahead db') ∧ (progress_issued db → progress_issued db').
Proof.
  intros (Hs & Hsk & Hik & Hrows & Hframe).
  unfold generators_ahead, progress_issued. rewrite Hs, Hsk, Hik.
  assert (∀ k, k < items_key db + Z.of_nat (length recs) ∨
               (items db' !! k = items db !! k ∧ progress db' !! k = progress db !! k)) as Hk.
  { intros k. destruct (decide (k < items_key db + Z.of_nat (length recs))); [by left|].
    right. apply Hframe. lia. }
  split.
  - intros [Hws Hwi]. split; [done|]. intros k v Hv.
    destruct (Hk k) as [?|[Hki _]]; [done|]. rewrite Hki in Hv. apply Hwi in Hv. lia.
  - intros Hwp k v Hv.
    destruct (Hk k) as [?|[_ Hkp]]; [done|]. rewrite Hkp in Hv. apply Hwp in Hv. lia.
Qed.

(** Every call keeps the generators ahead, and keeps the progress rows at
    issued keys when it is not a grade for an item yet to come. *)
Lemma call_keeps_keys (c : Call) (db : DB) :
  generators_ahead db →
  generators_ahead (call c db) ∧
  (grades_known_item c db → progress_issued db → progress_issued (call c db)).
Proof.
  intros Hg. destruct c; cbn [call grades_known_item].
  - unfold createSubject, transaction, os_add.
    destruct (subjects db !! subjects_key db); [done|]. cbn. split; [|done].
    destruct Hg as [Hs Hi]. split; [|done]. cbn.
    apply keys_below_insert; [lia|]. apply (keys_below_mono (subjects_key db)); [lia|done].
  - set (db1 := set_subjects (delete id) db).
    change (deleteSubject id db).2
      with (foldl delete_item_and_progress db1 (index_getAllKeys id (items db1))).
    destruct (foldl_delete_keeps_keys (index_getAllKeys id (items db1)) db1) as [Hfg Hfp].
    split; [|by intros _; apply Hfp].
    apply Hfg. destruct Hg as [Hs Hi]. split; [|done]. by apply keys_below_delete.
  - destruct (importItems subjectId recs clearExisting now db) as [o db'] eqn:Himp.
    cbn [snd]. destruct o as [[]|e].
    + apply importItems_resolved in Himp as (db1 & Hc & Hb & _).
      destruct (batch_added_keeps_keys _ _ _ _ _ Hb) as [Hbg Hbp].
      destruct clearExisting; [|subst db1; split; [auto|intros _; auto]].
      destruct (cleared_keeps_keys _ _ _ Hc) as [Hcg Hcp]. split; [auto|intros _; auto].
    + revert Himp. unfold importItems, transaction.
      destruct (add_batch _ _ _ _) as [e'|[[] d]]; [|done]. intros Heq.
      assert (db' = if clearExisting then (clearItemsBySubject subjectId db).2 else db)
        as -> by congruence. clear Heq.
      destruct clearExisting; [|done].
      destruct (clearItemsBySubject_cleared subjectId db) as (d & -> & Hc).
      destruct (cleared_keeps_keys _ _ _ Hc) as [Hcg Hcp]. split; [auto|intros _; auto].
  - destruct (clearItemsBySubject_cleared subjectId db) as (d & -> & Hc).
    destruct (cleared_keeps_keys _ _ _ Hc) as [Hcg Hcp]. split; [auto|intros _; auto].
  - cbn. split; [done|]. intros Hk Hp. by apply keys_below_insert.
  - unfold updateItem, transaction.
    destruct (items db !! m_id item) as [existing|] eqn:E; [|done]. cbn. split; [|done].
    destruct Hg as [Hs Hi]. split; [done|]. cbn.
    apply keys_below_insert; [|done]. by apply Hi in E.
  - cbn. destruct Hg as [Hs Hi]. split; [|intros _ Hp; by apply keys_below_delete].
    split; [done|]. by apply keys_below_delete.
Qed.

(** So the generators are ahead in every database the interface leads to,
    whatever is called. *)
Lemma reachable_generators_ahead allowed (db : DB) :
  reachable allowed db → generators_ahead db.
Proof.
  induction 1 as [|c db _ IH Hc].
  - split; apply map_Forall_empty.
  - by apply call_keeps_keys.
Qed.

(** And the progress rows are at issued keys when the grades are for items
    the store has or had. *)
Lemma reachable_progress_issued (db : DB) :
  reachable grades_known_item db → progress_issued db.
Proof.
  induction 1 as [|c db Hr IH Hc].
  - apply map_Forall_empty.
  - apply call_keeps_keys; [|done..]. by eapply reachable_generators_ahead.
Qed.

(** The examples are databases the interface leads to: [graded_ahead] by a
    grade for an item yet to come, [graded_after_delete] by grades for known
    items only. *)
Lemma graded_ahead_reachable : reachable (λ _ _, True) graded_ahead.
Proof.
  change graded_ahead with
    (call (UpdateProgress 2 0 0)
       (call (ImportItems 1 [card "A" "B"] false epoch)
          (call (CreateSubject "S" noSettings 0) init))).
  repeat (apply reachable_call; [|exact I]). apply reachable_init.
Qed.

Lemma graded_after_delete_reachable : reachable grades_known_item graded_after_delete.
Proof.
  change graded_after_delete with
    (call (UpdateProgress 1 2 100)
       (call (DeleteItem 1)
          (call (ImportItems 1 [card "A" "B"] false epoch)
             (call (CreateSubject "S" noSettings 0) init)))).
  apply reachable_call; [|reflexivity].
  repeat (apply reachable_call; [|exact I]). apply reachable_init.
Qed.

(** *** The properties of the design *)

(** C1. Whatever the stores hold, [deleteSubject id] resolves and leaves no
    subject [id], no item whose [subject_id] is [id], and neither the item
    nor the progress row of any item that had that [subject_id]. *)
Theorem deleteSubject_no_orphans (id : Z) (db : DB) :
  ∃ db', deleteSubject id db = (Resolved tt, db') ∧
    subjects db' !! id = None ∧
    (∀ k it, items db' !! k = Some it → subject_id it ≠ id) ∧
    (∀ k it, items db !! k = Some it → subject_id it = id →
       items db' !! k = None ∧ progress db' !! k = None).
Proof.
  eexists. split; [reflexivity|].
  set (db1 := set_subjects (delete id) db).
  set (ks := index_getAllKeys id (items db1)).
  split; [|split].
  - destruct (foldl_delete_subjects db1 ks) as (-> & _). apply lookup_delete_eq.
  - intros k it Hk Hsid. rewrite foldl_delete_items in Hk.
    destruct (decide (k ∈ ks)) as [|Hnin]; [done|].
    apply Hnin, elem_of_index_getAllKeys. eauto.
  - intros k it Hk Hsid.
    assert (k ∈ ks) as Hin by (apply elem_of_index_getAllKeys; eauto).
    rewrite foldl_delete_items, foldl_delete_progress. by rewrite !decide_True.
Qed.

(** X1. What [deleteSubject] keeps: the other subjects, the items of the
    other subjects, and the progress rows of everything but the subject's
    items. *)
Lemma deleteSubject_frame (id : Z) (db : DB) :
  let db' := (deleteSubject id db).2 in
  (∀ k, k ≠ id → subjects db' !! k = subjects db !! k) ∧
  (∀ k it, items db !! k = Some it → subject_id it ≠ id → items db' !! k = Some it) ∧
  (∀ k, (∀ it, items db !! k = Some it → subject_id it ≠ id) →
        progress db' !! k = progress db !! k).
Proof.
  set (db1 := set_subjects (delete id) db).
  set (ks := index_getAllKeys id (items db1)).
  change (deleteSubject id db).2 with (foldl delete_item_and_progress db1 ks).
  cbv zeta. split; [|split].
  - intros k Hk. destruct (foldl_delete_subjects db1 ks) as (-> & _).
    by apply lookup_delete_ne.
  - intros k it Hit Hsid. rewrite foldl_delete_items, decide_False; [done|].
    intros (it' & Hit' & Hsid')%elem_of_index_getAllKeys. cbn in Hit'. congruence.
  - intros k Hk. rewrite foldl_delete_progress, decide_False; [done|].
    intros (it' & Hit' & Hsid')%elem_of_index_getAllKeys. by apply (Hk it').
Qed.

(** C3, as the code has it.  [importItems] is two transactions in a row: the
    clearing one, when asked for, commits on its own, and the batch is added
    in a second one, which is atomic.  So the call either rejects and leaves
    the database of the first transaction (the subject cleared, nothing of
    the batch present), or resolves with every record's item and progress
    row added to it. *)
Theorem importItems_two_transactions (subjectId : Z) (recs : list ImportRecord)
    (clearExisting : bool) (now : nat → Z) (db : DB) :
  ∃ db1,
    (if clearExisting
     then clearItemsBySubject subjectId db = (Resolved tt, db1) ∧ cleared subjectId db db1
     else db1 = db) ∧
    ((∃ e, importItems subjectId recs clearExisting now db = (Rejected e, db1)) ∨
     (∃ db', importItems subjectId recs clearExisting now db = (Resolved tt, db') ∧
        batch_added subjectId recs now db1 db')).
Proof.
  set (db1 := if clearExisting then (clearItemsBySubject subjectId db).2 else db).
  exists db1. split.
  - unfold db1. destruct clearExisting; [|done].
    destruct (clearItemsBySubject_cleared subjectId db) as (d & Hd & Hc).
    rewrite Hd. done.
  - unfold importItems. fold db1. unfold transaction.
    destruct (add_batch subjectId recs now db1) as [e|[[] db']] eqn:H.
    + left. eauto.
    + right. exists db'. split; [done|]. by apply add_batch_inr.
Qed.

(** C3, as the design states it, does not hold: on [graded_ahead] the
    clearing import of one card rejects, the progress row under key 2 being
    in the way of the new item's, and the card the subject had is gone all
    the same. *)
Lemma importItems_not_atomic :
  items graded_ahead !! 1 = Some (mkItem 1 "A" EmptyString "B" EmptyString 0) ∧
  ∃ db', importItems 1 [card "C" "D"] true epoch graded_ahead = (Rejected ConstraintError, db') ∧
    items db' !! 1 = None ∧ items db' = ∅ ∧ progress db' !! 1 = None ∧
    db' ≠ graded_ahead.
Proof.
  split; [reflexivity|]. eexists. split; [vm_compute; reflexivity|].
  split; [reflexivity|]. split; [reflexivity|]. split; [reflexivity|].
  intros H. apply (f_equal (λ d, items d !! 1)) in H. vm_compute in H. discriminate.
Qed.

(** C7. Whenever [importItems] resolves, the record at position [i] has its
    item stored under the key the generator hands out, which no item had, and
    a progress row at that key: with the level and [last_studied] of the
    record when the record has a level, and level 0, never studied,
    otherwise.  The [id] a record brought along plays no part.  And the call
    does resolve on every database whose keys were issued. *)
Theorem importItems_rows (subjectId : Z) (recs : list ImportRecord)
    (clearExisting : bool) (now : nat → Z) (db : DB) :
  (∀ db', importItems subjectId recs clearExisting now db = (Resolved tt, db') →
     importItems subjectId (without_ids <$> recs) clearExisting now db = (Resolved tt, db') ∧
     ∀ (i : nat) item, recs !! i = Some item →
       let id := items_key db + Z.of_nat i in
       (generators_ahead db → items db !! id = None) ∧
       items db' !! id = Some (item_of_record subjectId item (now i)) ∧
       (∀ l, r_level item = Some l →
          progress db' !! id = Some (mkProgress l (default 0 (r_last_studied item)))) ∧
       (r_level item = None → progress db' !! id = Some (mkProgress 0 0))) ∧
  (generators_ahead db → progress_issued db →
   ∃ db', importItems subjectId recs clearExisting now db = (Resolved tt, db')).
Proof.
  split; [|apply importItems_resolves].
  intros db' Himp. split; [by rewrite importItems_without_ids|].
  apply importItems_resolved in Himp as (db1 & Hc & (_ & _ & _ & Hrows & _) & _).
  assert (items_key db1 = items_key db) as Hkey.
  { destruct clearExisting; [apply Hc|by subst]. }
  intros i item Hi id.
  destruct (Hrows i item Hi) as (_ & _ & Hrow & Hprow). rewrite Hkey in Hrow, Hprow.
  fold id in Hrow, Hprow. unfold progress_of_record in Hprow.
  split; [|split; [done|split]].
  - intros [_ Hwi]. destruct (items db !! id) eqn:E; [|done].
    apply Hwi in E. unfold id in E. lia.
  - intros l Hl. by rewrite Hl in Hprow.
  - intros Hl. by rewrite Hl in Hprow.
Qed.

(** On [one_card], whose keys were issued: a record with level 2 studied at
    100, and one without level. *)
Lemma importItems_rows_witness :
  generators_ahead one_card ∧ progress_issued one_card ∧
  ∃ db', importItems 1 restored true epoch one_card = (Resolved tt, db') ∧
    progress db' !! 2 = Some (mkProgress 2 100) ∧ progress db' !! 3 = Some (mkProgress 0 0).
Proof.
  assert (generators_ahead one_card) as Hg by keys_by_evaluation.
  assert (progress_issued one_card) as Hp by keys_by_evaluation.
  split; [exact Hg|]. split; [exact Hp|].
  destruct (importItems_rows 1 restored true epoch one_card) as [Hrows Hres].
  destruct (Hres Hg Hp) as [db' Himp].
  destruct (Hrows db' Himp) as [_ Hrow].
  exists db'. split; [exact Himp|]. split.
  - destruct (Hrow 0%nat _ eq_refl) as (_ & _ & Hl & _). exact (Hl 2 eq_refl).
  - destruct (Hrow 1%nat _ eq_refl) as (_ & _ & _ & Hn). exact (Hn eq_refl).
Defined.

(** C8. [updateItem] resolves with [true] in every case and touches nothing
    but the item under [item.id]: without such an item the database is left
    as it was; with one, the four text fields of the row are those of [item]
    and its [subject_id] and [created_at] stay. *)
Theorem updateItem_missing_or_found (item : MergedItem) (db : DB) :
  ∃ db', updateItem item db = (Resolved true, db') ∧
    subjects db' = subjects db ∧ subjects_key db' = subjects_key db ∧
    items_key db' = items_key db ∧ progress db' = progress db ∧
    (∀ k, k ≠ m_id item → items db' !! k = items db !! k) ∧
    (items db !! m_id item = None → db' = db) ∧
    (∀ existing, items db !! m_id item = Some existing →
       items db' !! m_id item =
         Some (mkItem (subject_id existing) (m_front item) (m_front_info item)
                      (m_back item) (m_back_info item) (created_at existing))).
Proof.
  unfold updateItem, transaction.
  destruct (items db !! m_id item) as [existing|] eqn:E.
  - eexists. split; [reflexivity|]. cbn.
    repeat (split; [done|]). split; [|split; [done|]].
    + intros k Hk. by apply lookup_insert_ne.
    + intros ? [= <-]. apply lookup_insert_eq.
  - exists db. repeat (split; [done|]). done.
Qed.

(** C10, as the code has it.  [deleteItem] resolves with [true] in every
    case.  Without an item under [itemId] the items store is left as it was,
    and the progress store loses the row under [itemId] if it has one: it is
    left as it was only when it has none. *)
Theorem deleteItem_absent (itemId : Z) (db : DB) :
  ∃ db', deleteItem itemId db = (Resolved true, db') ∧
    subjects db' = subjects db ∧
    progress db' = delete itemId (progress db) ∧
    (items db !! itemId = None →
       items db' = items db ∧
       (progress db !! itemId = None → progress db' = progress db)).
Proof.
  eexists. split; [reflexivity|]. cbn. split; [done|]. split; [done|].
  intros Hi. split; [by apply delete_id|]. intros Hp. by apply delete_id.
Qed.

(** C10, as stated, does not hold: [graded_after_delete] has no item 1, and
    [deleteItem 1] takes the progress row under 1 away. *)
Lemma deleteItem_drops_orphan_progress :
  items graded_after_delete !! 1 = None ∧
  progress graded_after_delete !! 1 = Some (mkProgress 2 100) ∧
  ∃ db', deleteItem 1 graded_after_delete = (Resolved true, db') ∧
    items db' = items graded_after_delete ∧
    progress db' !! 1 = None ∧ progress db' ≠ progress graded_after_delete.
Proof.
  split; [reflexivity|]. split; [reflexivity|]. eexists. split; [reflexivity|].
  split; [reflexivity|]. split; [reflexivity|].
  intros H. apply (f_equal (λ m, m !! 1)) in H. vm_compute in H. discriminate.
Qed.

End StoreFacts.

(** ** Facts about the import parser *)

Module CsvFacts.
Import Csv Examples.

Lemma line_parts_blank : line_parts EmptyString = [EmptyString].
Proof. reflexivity. Qed.

(** C4. A line whose fields are exactly three, [a], [b], [c], is mapped in
    the legacy order: front [a], back [b], front info [c], back info empty.
    A line of four fields or more is mapped in order, front [a], front info
    [b], back [c], back info [d], and the fields after the fourth are
    dropped.  The record is pushed when its front or its back is not
    empty. *)
Theorem line_item_column_mapping (line : string) :
  (∀ a b c, line_parts (trim line) = [a; b; c] →
     map_columns (line_parts (trim line)) =
       {| front := a; back := b; front_info := c; back_info := EmptyString |} ∧
     line_item line =
       if nonempty a || nonempty b
       then Some {| front := a; back := b; front_info := c; back_info := EmptyString |}
       else None) ∧
  (∀ a b c d extras, line_parts (trim line) = a :: b :: c :: d :: extras →
     map_columns (line_parts (trim line)) =
       {| front := a; front_info := b; back := c; back_info := d |} ∧
     line_item line =
       if nonempty a || nonempty c
       then Some {| front := a; front_info := b; back := c; back_info := d |}
       else None).
Proof.
  assert (∀ parts, line_parts (trim line) = parts → (2 ≤ length parts)%nat →
            line_item line =
              if nonempty (front (map_columns parts)) || nonempty (back (map_columns parts))
              then Some (map_columns parts) else None) as Hkeep.
  { intros parts Hparts Hlen. unfold line_item.
    destruct (trim line) eqn:Htrim.
    - rewrite line_parts_blank in Hparts. subst parts. cbn in Hlen. lia.
    - cbn [nonempty]. rewrite Hparts.
      destruct parts as [|p parts]; [cbn in Hlen; lia|]. done. }
  split.
  - intros a b c Hparts. split; [by rewrite Hparts|].
    by rewrite (Hkeep _ Hparts) by (cbn; lia).
  - intros a b c d extras Hparts. split; [by rewrite Hparts|].
    by rewrite (Hkeep _ Hparts) by (cbn; lia).
Qed.

Example parseCSV_tab_line :
  parseCSV tab_line = [{| front := "x"; back := "y"; front_info := "z"; back_info := EmptyString |}].
Proof. reflexivity. Qed.

Example parseCSV_quoted_line :
  parseCSV quoted_line = [{| front := "a"; front_info := "b"; back := "c"; back_info := "d" |}].
Proof. reflexivity. Qed.

(** Every item [parseCSV] returns is what [line_item] makes of a line of
    the text. *)
Lemma parseCSV_items (text : string) (item : ParsedItem) :
  item ∈ parseCSV text ↔
  ∃ line, line ∈ split_lines text EmptyString ∧ line_item line = Some item.
Proof. unfold parseCSV. apply list_elem_of_omap. Qed.

End CsvFacts.

(** ** The product of a draw and an index *)

Module RoundingFacts.
Import App.
Local Open Scope Q_scope.

Lemma round_half_even_le (q : Q) : inject_Z (round_half_even q) <= q + (1 # 2).
Proof.
  unfold round_half_even. pose proof (Qfloor_le q) as Hf.
  destruct (Qcompare_spec (q - inject_Z (Qfloor q)) (1 # 2)) as [He|Hl|Hg].
  - destruct (Z.even (Qfloor q)); [lra|]. rewrite inject_Z_plus.
    change (inject_Z 1) with 1. lra.
  - lra.
  - rewrite inject_Z_plus. change (inject_Z 1) with 1. lra.
Qed.

Lemma two_power_pos (e : Z) : 0 < 2 ^ e.
Proof. by apply Qpower_0_lt. Qed.

Lemma two_power_succ (e : Z) : 2 ^ (e + 1) == 2 * 2 ^ e.
Proof. rewrite Qpower_plus by done. change (2 ^ 1) with 2. lra. Qed.

Lemma two_power_log2 (n : Z) :
  (0 < n)%Z → 2 ^ Z.log2 n <= inject_Z n ∧ inject_Z n < 2 ^ (Z.log2 n + 1).
Proof.
  intros Hn. destruct (Z.log2_spec n Hn) as [Hlo Hhi].
  pose proof (Z.log2_nonneg n) as Hnn.
  change 2 with (inject_Z 2). rewrite <-!Zpower_Qpower by lia.
  split; [by rewrite <-Zle_Qle|]. rewrite <-Zlt_Qlt. by rewrite Z.add_1_r.
Qed.

Lemma log2_floor_spec (x : Q) :
  0 < x → 2 ^ log2_floor x <= x ∧ x < 2 ^ (log2_floor x + 1).
Proof.
  intros Hx. unfold log2_floor.
  set (l := (Z.log2 (Qnum x) - Z.log2 (Z.pos (Qden x)))%Z).
  assert (0 < Qnum x)%Z as Hnum.
  { destruct x as [a b]. unfold Qlt in Hx. cbn in *. lia. }
  destruct (two_power_log2 (Qnum x) Hnum) as [Ha1 Ha2].
  destruct (two_power_log2 (Z.pos (Qden x)) eq_refl) as [Hb1 Hb2].
  rewrite two_power_succ in Ha2, Hb2.
  pose proof (two_power_pos (Z.log2 (Qnum x))) as Hpa.
  pose proof (two_power_pos (Z.log2 (Z.pos (Qden x)))) as Hpb.
  pose proof (two_power_pos l) as Hpl.
  assert (2 ^ Z.log2 (Qnum x) == 2 ^ l * 2 ^ Z.log2 (Z.pos (Qden x))) as Hsplit.
  { rewrite <-Qpower_plus by done. unfold l. apply Qpower_comp; [done|lia]. }
  assert (x * inject_Z (Z.pos (Qden x)) == inject_Z (Qnum x)) as Hxb.
  { destruct x as [a b]. cbn [Qnum Qden]. rewrite (Qmake_Qdiv a b). field.
    intros H. discriminate. }
  set (A := inject_Z (Qnum x)) in *. set (B := inject_Z (Z.pos (Qden x))) in *.
  set (P := 2 ^ Z.log2 (Qnum x)) in *. set (R := 2 ^ Z.log2 (Z.pos (Qden x))) in *.
  assert (0 < B) as HB by lra.
  assert (2 ^ l <= 2 * x) as Hlow.
  { apply (Qmult_le_r _ _ R); [done|]. nra. }
  assert (x < 2 * 2 ^ l) as Hhigh.
  { apply (Qmult_lt_r _ _ B); [done|]. nra. }
  destruct (Qle_bool (2 ^ l) x) eqn:Hle.
  - apply Qle_bool_iff in Hle. split; [done|]. by rewrite two_power_succ.
  - assert (x < 2 ^ l) as Hlt.
    { apply Qnot_le_lt. intros H. apply Qle_bool_iff in H. congruence. }
    replace (l - 1 + 1)%Z with l by lia. split; [|done].
    assert (2 ^ l == 2 * 2 ^ (l - 1)) as Heq.
    { rewrite <-two_power_succ. apply Qpower_comp; [done|lia]. }
    lra.
Qed.

Lemma round_positive_le (x : Q) :
  round_positive x <= x + 2 ^ ulp_exponent x * (1 # 2).
Proof.
  unfold round_positive. set (e := ulp_exponent x).
  pose proof (two_power_pos e) as He.
  pose proof (round_half_even_le (x / 2 ^ e)) as Hm.
  apply (Qmult_le_compat_r _ _ (2 ^ e)) in Hm; [|lra].
  assert ((x / 2 ^ e + (1 # 2)) * 2 ^ e == x + 2 ^ e * (1 # 2)) as Heq by (field; lra).
  by rewrite Heq in Hm.
Qed.

Lemma round_double_below (x N : Q) :
  0 <= x → 1 <= N → x <= N * (1 - 2 ^ (-53)) → round_double x < N.
Proof.
  intros Hx HN Hle. unfold round_double.
  assert (2 ^ (-53) == 1 # 9007199254740992) as Hu by reflexivity.
  rewrite Hu in Hle.
  destruct (Qcompare_spec x 0) as [H0|Hneg|Hpos]; [lra|lra|].
  pose proof (round_positive_le x) as Hr.
  destruct (log2_floor_spec x Hpos) as [Hlo Hhi].
  unfold ulp_exponent in Hr.
  destruct (Z.max_spec (log2_floor x - 52) (-1074)) as [[Hlt Hmax]|[Hge Hmax]];
    rewrite Hmax in Hr.
  - assert (2 ^ (log2_floor x + 1) <= 2 ^ (-2)) as Hsmall
      by (apply Qpower_le_compat_l; [lia|done]).
    assert (2 ^ (-1074) <= 2 ^ (-2)) as Hulp by (by apply Qpower_le_compat_l).
    assert (2 ^ (-2) == 1 # 4) as Hq by reflexivity.
    rewrite Hq in Hsmall, Hulp. lra.
  - assert (2 ^ log2_floor x == 2 ^ (log2_floor x - 52) * 4503599627370496) as Hsplit.
    { change 4503599627370496 with (2 ^ 52). rewrite <-Qpower_plus by done.
      apply Qpower_comp; [done|lia]. }
    pose proof (two_power_pos (log2_floor x - 52)) as He.
    set (E := 2 ^ (log2_floor x - 52)) in *. lra.
Qed.

Lemma double_below_one (r : Q) :
  double r → 0 <= r → r < 1 → r <= 1 - 2 ^ (-53).
Proof.
  unfold double, round_double. intros Hd H0 H1.
  assert (2 ^ (-53) == 1 # 9007199254740992) as Hu by reflexivity.
  destruct (Qcompare_spec r 0) as [Hz|Hneg|Hpos]; [lra|lra|].
  destruct (log2_floor_spec r Hpos) as [Hlo Hhi].
  assert (log2_floor r < 0)%Z as Hl.
  { apply (Qpower_lt_compat_l_inv 2); [|done]. change (2 ^ 0) with 1. lra. }
  destruct (decide (log2_floor r = -1)%Z) as [Heq|Hne].
  - unfold round_positive, ulp_exponent in Hd. rewrite Heq in Hd.
    change (Z.max (-1 - 52) (-1074)) with (-53)%Z in Hd.
    set (m := round_half_even (r / 2 ^ (-53))) in *.
    assert (m < 9007199254740992)%Z as Hm.
    { rewrite Zlt_Qlt. rewrite Hu in Hd.
      change (inject_Z 9007199254740992) with 9007199254740992. lra. }
    assert (inject_Z m <= 9007199254740991) as Hm'.
    { change 9007199254740991 with (inject_Z 9007199254740991). rewrite <-Zle_Qle. lia. }
    rewrite Hu in Hd |- *. lra.
  - assert (2 ^ (log2_floor r + 1) <= 2 ^ (-1)) as Hsmall
      by (apply Qpower_le_compat_l; [lia|done]).
    assert (2 ^ (-1) == 1 # 2) as Hq by reflexivity.
    rewrite Hq in Hsmall. rewrite Hu. lra.
Qed.

Lemma floor_scaled_lt (r : Q) (c : nat) :
  double r → 0 <= r → r < 1 → (floor_scaled r (S c) ≤ c)%nat.
Proof.
  intros Hd H0 H1. unfold floor_scaled.
  set (n := inject_Z (Z.of_nat (S c))).
  assert (1 <= n) as Hn.
  { unfold n. change 1 with (inject_Z 1). rewrite <-Zle_Qle. lia. }
  pose proof (double_below_one r Hd H0 H1) as Hr.
  assert (round_double (r * n) < n) as Hlt.
  { apply round_double_below; [nra|done|]. rewrite (Qmult_comm n). 
    apply Qmult_le_compat_r; [done|lra]. }
  pose proof (Qfloor_le (round_double (r * n))) as Hfl.
  assert (Qfloor (round_double (r * n)) < Z.of_nat (S c))%Z as Hz.
  { rewrite Zlt_Qlt. fold n. lra. }
  lia.
Qed.

(** The double nearest to one third, times 3, is as near to 1 as to the
    double below 1, and rounds to 1: the index drawn is 1. *)
Example floor_scaled_third :
  double (6004799503160661 # 18014398509481984) ∧
  floor_scaled (6004799503160661 # 18014398509481984) 3 = 1%nat.
Proof. split; [reflexivity|]. vm_compute. reflexivity. Qed.

End RoundingFacts.

(** ** Facts about the playlist *)

Module PlaylistFacts.
Import Store App Examples.

Section Cursor.
Variable random : nat → Q.

(** A call that does not reach the end of the playlist. *)
Lemma getNextItem_inside app :
  (currentIndex app < length (playlist app))%nat →
  getNextItem random app =
    (playlist app !! currentIndex app, set_currentIndex (S (currentIndex app)) app).
Proof.
  intros Hlt. unfold getNextItem.
  destruct (playlist app) as [|x p] eqn:Hp; [cbn in Hlt; lia|].
  rewrite <-Hp in *.
  destruct (Nat.leb_spec (length (playlist app)) (currentIndex app)); [lia|done].
Qed.

(** A call at or past the end, fixed order. *)
Lemma getNextItem_wrap_fixed app :
  playlist app ≠ [] → isRandom app = false →
  (length (playlist app) ≤ currentIndex app)%nat →
  getNextItem random app = (playlist app !! 0%nat, set_currentIndex 1 app).
Proof.
  intros Hne Hfix Hge. unfold getNextItem.
  destruct (playlist app) as [|x p] eqn:Hp; [done|].
  rewrite <-Hp in *.
  destruct (Nat.leb_spec (length (playlist app)) (currentIndex app)); [|lia].
  cbn. by rewrite Hfix.
Qed.

Lemma nextItems_fixed (k : nat) : ∀ app,
  playlist app ≠ [] → isRandom app = false →
  (currentIndex app ≤ length (playlist app))%nat →
  (nextItems random k app).1 =
    (λ j, playlist app !! ((currentIndex app + j) mod length (playlist app))%nat) <$> seq 0 k
  ∧ playlist (nextItems random k app).2 = playlist app
  ∧ isRandom (nextItems random k app).2 = false.
Proof.
  induction k as [|k IH]; intros app Hne Hfix Hle; [done|].
  set (n := length (playlist app)).
  assert (n ≠ 0)%nat as Hn by (unfold n; destruct (playlist app); cbn; [done|lia]).
  cbn [nextItems].
  assert (∃ c', getNextItem random app =
            (playlist app !! (currentIndex app mod n)%nat, set_currentIndex c' app)
          ∧ (c' ≤ n)%nat ∧ (c' mod n = (currentIndex app + 1) mod n)%nat)
    as (c' & -> & Hc' & Hmod).
  { destruct (decide (currentIndex app < n)%nat) as [Hlt|Hge].
    - exists (S (currentIndex app)). rewrite getNextItem_inside by done.
      rewrite Nat.mod_small by done. split; [done|]. split; [lia|]. f_equal. lia.
    - exists 1%nat. rewrite getNextItem_wrap_fixed by (done || lia).
      assert (currentIndex app = n) as -> by lia.
      rewrite Nat.Div0.mod_same. split; [done|]. split; [lia|].
      replace (n + 1)%nat with (1 + 1 * n)%nat by lia. by rewrite Nat.Div0.mod_add. }
  specialize (IH (set_currentIndex c' app) Hne Hfix Hc').
  destruct (nextItems random k (set_currentIndex c' app)) as [rest app''] eqn:Hrest.
  cbn in IH. destruct IH as (IH1 & IH2 & IH3). cbn. split; [|done].
  rewrite Nat.add_0_r. f_equal. rewrite IH1, <-fmap_S_seq, <-list_fmap_compose.
  apply list_fmap_ext. intros _ j _. cbn. f_equal. fold n.
  rewrite <-Nat.Div0.add_mod_idemp_l, Hmod, Nat.Div0.add_mod_idemp_l. f_equal. lia.
Qed.

Lemma refreshPlaylist_fixed app activeLevels mode :
  mode ≠ "random" →
  playlist (refreshPlaylist random activeLevels mode app) ≠ [] →
  isRandom (refreshPlaylist random activeLevels mode app) = false ∧
  currentIndex (refreshPlaylist random activeLevels mode app) = 0%nat.
Proof.
  intros Hmode. unfold refreshPlaylist.
  destruct (candidates activeLevels (set_filter activeLevels mode app)) as [|c cs]; [done|].
  rewrite decide_False by done. by destruct (decide (mode = "id_asc")).
Qed.

End Cursor.

(** *** The shuffle *)

Lemma insert_Permutation {A} (l : list A) : ∀ (j : nat) a x,
  l !! j = Some a → a :: <[j := x]> l ≡ₚ x :: l.
Proof.
  induction l as [|y l IH]; intros [|j] a x Hj; cbn in *; try done.
  - injection Hj as ->. apply perm_swap.
  - rewrite (perm_swap y a), (IH j a x Hj). apply perm_swap.
Qed.

Lemma swap_Permutation {A} (array : list A) : ∀ i j, swap array i j ≡ₚ array.
Proof.
  unfold swap. induction array as [|y l IH]; intros i j; [by destruct i|].
  destruct i as [|i], j as [|j]; cbn.
  - done.
  - destruct (l !! j) as [aj|] eqn:Hj; [|done]. cbn. by apply insert_Permutation.
  - destruct (l !! i) as [ai|] eqn:Hi; [|done]. cbn. by apply insert_Permutation.
  - specialize (IH i j). destruct (l !! i), (l !! j); cbn; try done. by rewrite IH.
Qed.

Lemma shuffle_loop_Permutation {A} random (currentIndex : nat) : ∀ n (array : list A),
  (shuffle_loop random currentIndex n array).1 ≡ₚ array.
Proof.
  induction currentIndex as [|c IH]; intros n array; cbn; [done|].
  rewrite IH. apply swap_Permutation.
Qed.

Lemma shuffle_Permutation {A} random n (array : list A) :
  (shuffle random n array).1 ≡ₚ array.
Proof. apply shuffle_loop_Permutation. Qed.

Section Random.
Variable random : nat → Q.

Lemma set_currentIndex_same app : set_currentIndex (currentIndex app) app = app.
Proof. by destruct app. Qed.

Lemma nextItems_inside (k : nat) : ∀ app,
  (currentIndex app + k ≤ length (playlist app))%nat →
  nextItems random k app =
    (Some <$> take k (drop (currentIndex app) (playlist app)),
     set_currentIndex (currentIndex app + k) app).
Proof.
  induction k as [|k IH]; intros app Hle; cbn [nextItems].
  - rewrite Nat.add_0_r, set_currentIndex_same. done.
  - rewrite getNextItem_inside by lia.
    rewrite (IH (set_currentIndex (S (currentIndex app)) app)) by (cbn; lia). cbn.
    destruct (lookup_lt_is_Some_2 (playlist app) (currentIndex app)) as [x Hx]; [lia|].
    rewrite (drop_S _ _ _ Hx), Hx. cbn. f_equal. destruct app; cbn. unfold set_currentIndex; cbn. f_equal; lia.
Qed.

Lemma nextItems_add (a b : nat) : ∀ app,
  (nextItems random (a + b) app).2 = (nextItems random b (nextItems random a app).2).2.
Proof.
  induction a as [|a IH]; intros app; cbn [nextItems Nat.add]; [done|].
  destruct (getNextItem random app) as [item app1].
  specialize (IH app1).
  destruct (nextItems random (a + b) app1) as [l2 app2].
  destruct (nextItems random a app1) as [l3 app3]. cbn in *.
  done.
Qed.

Lemma refreshPlaylist_random app levels :
  candidates levels app ≠ [] →
  let app' := refreshPlaylist random levels "random" app in
  playlist app' ≡ₚ candidates levels app ∧ isRandom app' = true ∧
  currentIndex app' = 0%nat ∧ targetLevels app' = levels ∧
  sortMode app' = "random" ∧ items app' = items app.
Proof.
  intros Hne. unfold refreshPlaylist.
  change (candidates levels (set_filter levels "random" app)) with (candidates levels app).
  destruct (candidates levels app) as [|c cs] eqn:Hc; [done|].
  rewrite decide_True by done.
  pose proof (shuffle_Permutation random (draws (set_filter levels "random" app)) (c :: cs)) as Hp.
  destruct (shuffle random _ (c :: cs)) as [array n]. cbn in *. done.
Qed.

(** A call at or past the end in random mode: a fresh shuffle first. *)
Lemma getNextItem_wrap_random app :
  playlist app ≠ [] → isRandom app = true →
  (length (playlist app) ≤ currentIndex app)%nat →
  getNextItem random app =
    let app1 := refreshPlaylist random (targetLevels app) (sortMode app)
                                (set_currentIndex 0 app) in
    (playlist app1 !! currentIndex app1, set_currentIndex (S (currentIndex app1)) app1).
Proof.
  intros Hne Hrand Hge. unfold getNextItem.
  destruct (playlist app) as [|x p] eqn:Hp; [done|].
  rewrite <-Hp in *.
  destruct (Nat.leb_spec (length (playlist app)) (currentIndex app)); [|lia].
  cbn. by rewrite Hrand.
Qed.

(** One pass over the playlist of a random session, from its start or from
    its end (where the next call reshuffles). *)
Lemma nextItems_round app :
  let cands := candidates (targetLevels app) app in
  isRandom app = true → sortMode app = "random" → cands ≠ [] →
  playlist app ≡ₚ cands →
  currentIndex app = 0%nat ∨ currentIndex app = length cands →
  ∃ order,
    (nextItems random (length cands) app).1 = Some <$> order ∧ order ≡ₚ cands ∧
    let app' := (nextItems random (length cands) app).2 in
    isRandom app' = true ∧ sortMode app' = "random" ∧
    targetLevels app' = targetLevels app ∧ items app' = items app ∧
    playlist app' = order ∧ currentIndex app' = length cands.
Proof.
  intros cands Hrand Hmode Hne Hperm Hcur.
  pose proof (Permutation_length Hperm) as Hlen.
  assert (length cands ≠ 0)%nat as HN by (destruct cands; cbn; [done|lia]).
  destruct (decide (currentIndex app = 0%nat)) as [H0|Hn0].
  - exists (playlist app). rewrite nextItems_inside by lia. cbn.
    rewrite H0, drop_0, <-Hlen, firstn_all. done.
  - assert (currentIndex app = length cands) as HcN by (destruct Hcur; [done|done]).
    destruct (length cands) as [|N'] eqn:HNeq; [done|].
    cbn [nextItems]. rewrite getNextItem_wrap_random; [|by intros E; rewrite E in Hlen|done|lia].
    rewrite Hmode.
    destruct (refreshPlaylist_random (set_currentIndex 0 app) (targetLevels app))
      as (Hp1 & Hr1 & Hc1 & Ht1 & Hs1 & Hi1); [done|].
    set (app1 := refreshPlaylist random (targetLevels app) "random" (set_currentIndex 0 app)) in *.
    cbn zeta. rewrite Hc1.
    change (candidates (targetLevels app) (set_currentIndex 0 app)) with cands in Hp1.
    pose proof (Permutation_length Hp1) as Hlen1. rewrite HNeq in Hlen1.
    rewrite (nextItems_inside N' (set_currentIndex 1 app1)) by (cbn; lia). cbn.
    exists (playlist app1).
    destruct (playlist app1) as [|x p1] eqn:Hpl; [done|]. cbn in Hlen1.
    cbn. rewrite drop_0. replace N' with (length p1) by lia. rewrite firstn_all.
    split; [done|]. split; [done|]. rewrite Hr1, Hs1, Ht1. cbn in Hi1. rewrite Hi1.
    repeat split; try done; lia.
Qed.

Lemma candidates_ids_NoDup levels app :
  NoDup (m_id <$> items app) → NoDup (m_id <$> candidates levels app).
Proof.
  intros Hnd. eapply sublist_NoDup; [exact Hnd|].
  apply fmap_sublist, sublist_filter.
Qed.

Lemma rounds_invariant app activeLevels (r : nat) :
  let cands := candidates activeLevels app in
  let app_r := (nextItems random (r * length cands)
                  (refreshPlaylist random activeLevels "random" app)).2 in
  cands ≠ [] →
  isRandom app_r = true ∧ sortMode app_r = "random" ∧
  targetLevels app_r = activeLevels ∧ items app_r = items app ∧
  playlist app_r ≡ₚ cands ∧
  (currentIndex app_r = 0%nat ∨ currentIndex app_r = length cands).
Proof.
  intros cands app_r Hne. unfold app_r. clear app_r.
  induction r as [|r IH].
  - cbn. destruct (refreshPlaylist_random app activeLevels Hne)
      as (Hp & Hr & Hc & Ht & Hs & Hi). auto 10.
  - replace (S r * length cands)%nat with (r * length cands + length cands)%nat by lia.
    rewrite nextItems_add.
    set (app_r := (nextItems random (r * length cands)
                     (refreshPlaylist random activeLevels "random" app)).2) in *.
    destruct IH as (Hr & Hs & Ht & Hi & Hp & Hc).
    assert (candidates (targetLevels app_r) app_r = cands) as Hcands.
    { unfold candidates, cands. by rewrite Ht, Hi. }
    destruct (nextItems_round app_r) as (order & _ & Hperm & H');
      rewrite ?Hcands; try done.
    rewrite Hcands in H'. cbn zeta in H'.
    destruct H' as (Hr' & Hs' & Ht' & Hi' & Hp' & Hc').
    rewrite Hr', Hs', Ht', Hi', Hp', Hc', Ht, Hi.
    split; [done|split; [done|split; [done|split; [done|split]]]];
      [by rewrite <-Hcands|by right].
Qed.

End Random.

(** C9. With every draw of [Math.random] a double in [0, 1), the positions
    [shuffle] swaps are inside the array, the product of the draw and the
    index rounded as the code rounds it; the playlist [refreshPlaylist] builds in
    random mode is a permutation of the candidates, and so is what each pass
    of [N] calls of [getNextItem] returns, [N] the number of candidates: the
    first pass reads that playlist, every later one the playlist of a fresh
    shuffle.  The ids of a pass are those of the candidates, each once when
    the items have distinct ids. *)
Theorem random_rounds_are_permutations (random : nat → Q) (app : AppManager)
    (activeLevels : list Z) :
  (∀ n, double (random n) ∧ (0 <= random n)%Q ∧ (random n < 1)%Q) →
  let cands := candidates activeLevels app in
  let app0 := refreshPlaylist random activeLevels "random" app in
  cands ≠ [] →
  (∀ n c, (floor_scaled (random n) (S c) ≤ c)%nat) ∧
  playlist app0 ≡ₚ cands ∧
  ∀ r : nat,
    let app_r := (nextItems random (r * length cands) app0).2 in
    ∃ order,
      (nextItems random (length cands) app_r).1 = Some <$> order ∧
      order ≡ₚ cands ∧
      m_id <$> order ≡ₚ m_id <$> cands ∧
      (NoDup (m_id <$> items app) → NoDup (m_id <$> order)).
Proof.
  intros Hrand cands app0 Hne. split; [|split].
  - intros n c. destruct (Hrand n) as (Hd & H0 & H1).
    by apply RoundingFacts.floor_scaled_lt.
  - by apply refreshPlaylist_random.
  - intros r app_r.
    destruct (rounds_invariant random app activeLevels r Hne)
      as (Hr & Hs & Ht & Hi & Hp & Hc). fold cands app0 app_r in Hr, Hs, Ht, Hi, Hp, Hc.
    assert (candidates (targetLevels app_r) app_r = cands) as Hcands.
    { unfold candidates, cands. by rewrite Ht, Hi. }
    destruct (nextItems_round random app_r) as (order & Hread & Hperm & _);
      rewrite ?Hcands; try done.
    rewrite Hcands in Hread, Hperm.
    exists order. split; [done|]. split; [done|]. split; [by rewrite Hperm|].
    intros Hnd. rewrite Hperm. by apply candidates_ids_NoDup.
Qed.

(** The second pass over [three_cards], every draw one half. *)
Lemma random_rounds_are_permutations_witness :
  (∀ n, double (half n) ∧ (0 <= half n)%Q ∧ (half n < 1)%Q) ∧
  candidates [0; 1; 2]%Z three_cards ≠ [] ∧
  ∃ order,
    (nextItems half 3 (nextItems half 3 (refreshPlaylist half [0; 1; 2]%Z "random" three_cards)).2).1
      = Some <$> order ∧
    NoDup (m_id <$> order) ∧
    m_id <$> order ≡ₚ [1; 2; 3]%Z.
Proof.
  assert (∀ n, double (half n) ∧ (0 <= half n)%Q ∧ (half n < 1)%Q) as Hhalf
    by (intros n; split; [reflexivity|unfold half, Qle, Qlt; cbn; lia]).
  assert (candidates [0; 1; 2]%Z three_cards ≠ []) as Hne by (vm_compute; discriminate).
  split; [exact Hhalf|]. split; [exact Hne|].
  destruct (random_rounds_are_permutations half three_cards [0; 1; 2]%Z Hhalf Hne)
    as (_ & _ & Hrounds).
  destruct (Hrounds 1%nat) as (order & Hread & _ & Hids & Hnd).
  exists order. split; [exact Hread|]. split; [|exact Hids].
  apply Hnd. apply (bool_decide_unpack _). vm_compute. exact I.
Defined.

(** C5. A playlist built in a mode other than random is read round and
    round: the call number [k] (from 0) returns its element [k mod n], and the
    playlist stays what [refreshPlaylist] made it.  With the items of ids 1, 2
    and 3 in mode id_asc, four calls return the items 1, 2, 3 and 1. *)
Theorem getNextItem_wraps_fixed_order (random : nat → Q) (app : AppManager)
    (activeLevels : list Z) (mode : string) :
  mode ≠ "random" →
  let app0 := refreshPlaylist random activeLevels mode app in
  playlist app0 ≠ [] →
  (∀ k : nat,
     (nextItems random k app0).1 =
       (λ j : nat, playlist app0 !! (j mod length (playlist app0))%nat) <$> seq 0 k ∧
     playlist (nextItems random k app0).2 = playlist app0) ∧
  (λ item : option MergedItem, m_id <$> item) <$>
    (nextItems random 4 (refreshPlaylist random [0; 1; 2]%Z "id_asc" three_cards)).1
    = [Some 1; Some 2; Some 3; Some 1]%Z.
Proof.
  intros Hmode app0 Hne. split; [|reflexivity].
  destruct (refreshPlaylist_fixed random app activeLevels mode Hmode Hne) as [Hfix Hcur].
  fold app0 in Hfix, Hcur. intros k.
  destruct (nextItems_fixed random k app0 Hne Hfix) as (Hread & Hsame & _); [lia|].
  split; [|done]. rewrite Hread, Hcur. done.
Qed.

(** The items of levels 1 and 2 of [three_cards], by date: 2, 3, 2, 3, 2. *)
Lemma getNextItem_wraps_fixed_order_witness :
  "date_asc" ≠ "random" ∧
  playlist (refreshPlaylist half [1; 2]%Z "date_asc" three_cards) ≠ [] ∧
  (λ item : option MergedItem, m_id <$> item) <$>
    (nextItems half 5 (refreshPlaylist half [1; 2]%Z "date_asc" three_cards)).1
    = [Some 2; Some 3; Some 2; Some 3; Some 2]%Z.
Proof.
  assert ("date_asc" ≠ "random") as Hmode by discriminate.
  assert (playlist (refreshPlaylist half [1; 2]%Z "date_asc" three_cards) ≠ []) as Hne
    by discriminate.
  split; [exact Hmode|]. split; [exact Hne|].
  destruct (getNextItem_wraps_fixed_order half three_cards [1; 2]%Z "date_asc" Hmode Hne)
    as [Hall _].
  destruct (Hall 5%nat) as [-> _]. reflexivity.
Defined.

(** C2.  After two calls of [getNextItem] the cursor is at 2; a
    [refreshPlaylist] whose levels match no item empties the playlist and
    returns before the cursor is reset: the cursor is still 2. *)
Theorem refreshPlaylist_empty_keeps_cursor :
  let app := (nextItems half 2 (refreshPlaylist half [0; 1; 2]%Z "id_asc" three_cards)).2 in
  currentIndex app = 2%nat ∧
  candidates [5]%Z app = [] ∧
  playlist (refreshPlaylist half [5]%Z "id_asc" app) = [] ∧
  currentIndex (refreshPlaylist half [5]%Z "id_asc" app) = 2%nat.
Proof. cbv zeta. split; [|split; [|split]]; reflexivity. Qed.

(** The cursor of a refresh without candidates, in general. *)
Lemma refreshPlaylist_no_candidates random app activeLevels mode :
  candidates activeLevels app = [] →
  playlist (refreshPlaylist random activeLevels mode app) = [] ∧
  currentIndex (refreshPlaylist random activeLevels mode app) = currentIndex app.
Proof.
  intros Hc. unfold refreshPlaylist.
  change (candidates activeLevels (set_filter activeLevels mode app))
    with (candidates activeLevels app). by rewrite Hc.
Qed.

(** With candidates the cursor is reset. *)
Lemma refreshPlaylist_resets_cursor random app activeLevels mode :
  candidates activeLevels app ≠ [] →
  currentIndex (refreshPlaylist random activeLevels mode app) = 0%nat.
Proof.
  intros Hc. unfold refreshPlaylist.
  change (candidates activeLevels (set_filter activeLevels mode app))
    with (candidates activeLevels app).
  destruct (candidates activeLevels app) as [|c cs]; [done|].
  destruct (decide (mode = "random")); [|by destruct (decide (mode = "id_asc"))].
  by destruct (shuffle random _ _).
Qed.
End PlaylistFacts.

(** ** Facts about the backup *)

Module BackupFacts.
Import Store App StoreFacts Examples.
Local Open Scope Z_scope.





End BackupFacts.

(** ** What the pages read back from the store *)

Module ListingFacts.
Import Store StoreFacts Examples.
Local Open Scope Z_scope.

(** *** Lists in key order *)

Lemma os_getAll_keys_NoDup {V} (m : gmap Z V) : NoDup (os_getAll m).*1.
Proof.
  unfold os_getAll. rewrite merge_sort_Permutation. apply NoDup_fst_map_to_list.
Qed.

Lemma NoDup_keys_functional {V} (l : list (Z * V)) k v1 v2 :
  NoDup l.*1 → (k, v1) ∈ l → (k, v2) ∈ l → v1 = v2.
Proof.
  induction l as [|[k' v'] l IH]; cbn; [by intros _ ?%elem_of_nil|].
  intros [Hnin Hnd]%NoDup_cons [H1|H1]%elem_of_cons [H2|H2]%elem_of_cons.
  - congruence.
  - injection H1 as -> ->. exfalso. apply Hnin. apply list_elem_of_fmap. by exists (k', v2).
  - injection H2 as -> ->. exfalso. apply Hnin. apply list_elem_of_fmap. by exists (k', v1).
  - by apply IH.
Qed.

(** A list in key order without a key twice is determined by its elements. *)
Lemma key_order_unique {V} (l1 l2 : list (Z * V)) :
  StronglySorted key_le l1 → StronglySorted key_le l2 →
  NoDup l1.*1 → NoDup l2.*1 →
  (∀ x, x ∈ l1 ↔ x ∈ l2) → l1 = l2.
Proof.
  intros Hs1 Hs2 Hn1 Hn2 Hel.
  apply (StronglySorted_unique_strong key_le); [|done..|].
  - intros [k1 v1] [k2 v2] H1 H2; unfold key_le; cbn. intros.
    assert (k1 = k2) as -> by lia. f_equal.
    apply Hel in H2. exact (NoDup_keys_functional l1 k2 v1 v2 Hn1 H1 H2).
  - apply NoDup_Permutation; [by apply (NoDup_fmap_1 fst)..|done].
Qed.

Lemma StronglySorted_filter {A} (R : relation A) (P : A → Prop)
    `{∀ x, Decision (P x)} (l : list A) :
  StronglySorted R l → StronglySorted R (filter P l).
Proof.
  induction 1 as [|x l Hl IH Hx]; [constructor|].
  rewrite filter_cons. destruct (decide (P x)); [|done].
  constructor; [done|]. apply Forall_forall. intros y [_ Hy]%list_elem_of_filter.
  by apply (proj1 (Forall_forall _ _) Hx).
Qed.

Lemma NoDup_keys_filter {V} (P : Z * V → Prop) `{∀ x, Decision (P x)} (l : list (Z * V)) :
  NoDup l.*1 → NoDup (filter P l).*1.
Proof.
  intros Hn. eapply sublist_NoDup; [done|]. apply fmap_sublist, sublist_filter.
Qed.

Lemma index_getAll_sorted sid m : StronglySorted key_le (index_getAll sid m).
Proof. apply StronglySorted_filter, os_getAll_sorted. Qed.

Lemma index_getAll_keys_NoDup sid m : NoDup (index_getAll sid m).*1.
Proof. apply NoDup_keys_filter, os_getAll_keys_NoDup. Qed.

(** The index reads the same from two stores that hold the same items of the
    subject. *)
Lemma index_getAll_ext sid (m m' : gmap Z ItemRow) :
  (∀ k it, subject_id it = sid → m !! k = Some it ↔ m' !! k = Some it) →
  index_getAll sid m = index_getAll sid m'.
Proof.
  intros Hm. apply key_order_unique;
    try apply index_getAll_sorted; try apply index_getAll_keys_NoDup.
  intros [k it]. rewrite !elem_of_index_getAll. specialize (Hm k it). tauto.
Qed.

(** The ids of a listing ascend strictly. *)
Lemma key_order_strict {V} (l : list (Z * V)) :
  StronglySorted key_le l → NoDup l.*1 → StronglySorted Z.lt l.*1.
Proof.
  induction 1 as [|[k v] l Hl IH Hx]; cbn; [constructor|].
  intros [Hnin Hnd]%NoDup_cons. constructor; [auto|].
  apply Forall_forall. intros k' Hk'.
  assert (k ≠ k') by (intros ->; done).
  apply list_elem_of_fmap in Hk' as ([k'' v'] & -> & Hin).
  apply (proj1 (Forall_forall _ _) Hx) in Hin. unfold key_le in Hin. cbn in *. lia.
Qed.

(** An item rewritten in place keeps its place. *)
Lemma index_getAll_insert_same sid (m : gmap Z ItemRow) k v v' :
  m !! k = Some v → subject_id v' = subject_id v →
  index_getAll sid (<[k := v']> m) =
    (λ kv : Z * ItemRow, if decide (kv.1 = k) then (k, v') else kv) <$> index_getAll sid m.
Proof.
  intros Hk Hsid.
  set (f := λ kv : Z * ItemRow, if decide (kv.1 = k) then (k, v') else kv).
  assert (∀ kv, (f kv).1 = kv.1) as Hf.
  { intros [k0 v0]. unfold f. cbn. by destruct (decide (k0 = k)) as [->|]. }
  assert ((f <$> index_getAll sid m).*1 = (index_getAll sid m).*1) as Hkeys.
  { rewrite <-list_fmap_compose. apply list_fmap_ext. intros i x _. apply Hf. }
  apply key_order_unique.
  - apply index_getAll_sorted.
  - apply (StronglySorted_fmap _ key_le); [|apply index_getAll_sorted].
    intros x y. unfold key_le. by rewrite !Hf.
  - apply index_getAll_keys_NoDup.
  - rewrite Hkeys. apply index_getAll_keys_NoDup.
  - intros [k0 it]. rewrite elem_of_index_getAll, list_elem_of_fmap. split.
    + intros [Hit Hs]. destruct (decide (k0 = k)) as [->|Hne].
      * rewrite lookup_insert_eq in Hit. injection Hit as <-.
        exists (k, v). split; [unfold f; cbn; by rewrite decide_True|].
        apply elem_of_index_getAll. split; [done|congruence].
      * rewrite lookup_insert_ne in Hit by done.
        exists (k0, it). split; [unfold f; cbn; by rewrite decide_False|].
        by apply elem_of_index_getAll.
    + intros ([k1 it1] & Heq & [Hit Hs]%elem_of_index_getAll). unfold f in Heq. cbn in Heq.
      destruct (decide (k1 = k)) as [->|Hne]; injection Heq as -> ->.
      * rewrite lookup_insert_eq. split; [done|congruence].
      * by rewrite lookup_insert_ne.
Qed.

(** A deleted item leaves the others in place. *)
Lemma index_getAll_delete sid (m : gmap Z ItemRow) k :
  index_getAll sid (delete k m) = filter (λ kv : Z * ItemRow, kv.1 ≠ k) (index_getAll sid m).
Proof.
  apply key_order_unique.
  - apply index_getAll_sorted.
  - apply StronglySorted_filter, index_getAll_sorted.
  - apply index_getAll_keys_NoDup.
  - apply NoDup_keys_filter, index_getAll_keys_NoDup.
  - intros [k0 it]. rewrite list_elem_of_filter, !elem_of_index_getAll. cbn.
    destruct (decide (k0 = k)) as [->|Hne].
    + rewrite lookup_delete_eq. split; [by intros [? _]|by intros [? _]].
    + rewrite lookup_delete_ne by done. tauto.
Qed.

Lemma filter_fmap {A B} (f : A → B) (P : B → Prop) `{∀ y, Decision (P y)} (l : list A) :
  filter P (f <$> l) = f <$> filter (λ x, P (f x)) l.
Proof.
  induction l as [|x l IH]; [done|]. cbn [fmap list_fmap]. rewrite !filter_cons.
  destruct (decide (P (f x))); cbn [fmap list_fmap]; by rewrite IH.
Qed.

(** *** Listings *)

(** X2. [getAllItemsWithProgress] is the join of the items of the subject
    with their progress: one entry for each item whose [subject_id] is the
    given one, in strictly ascending order of [id], with the texts of the
    item and the level and [last_studied] of its progress row, both 0 for
    an item without a progress row.  Nothing of another subject is in it. *)
Theorem getAllItemsWithProgress_join (subjectId : Z) (db : DB) :
  StronglySorted Z.lt (m_id <$> getAllItemsWithProgress subjectId db) ∧
  ∀ m, m ∈ getAllItemsWithProgress subjectId db ↔
    ∃ it, items db !! m_id m = Some it ∧ subject_id it = subjectId ∧
      m_subject_id m = subjectId ∧
      m_front m = front it ∧ m_front_info m = front_info it ∧
      m_back m = back it ∧ m_back_info m = back_info it ∧
      (m_level m, m_last_studied m) =
        match progress db !! m_id m with
        | Some p => (level p, last_studied p)
        | None => (0, 0)
        end.
Proof.
  unfold getAllItemsWithProgress. split.
  - rewrite <-list_fmap_compose.
    apply (key_order_strict (index_getAll subjectId (items db)));
      [apply index_getAll_sorted|apply index_getAll_keys_NoDup].
  - intros m. rewrite list_elem_of_fmap. split.
    + intros ([k it] & -> & [Hit Hsid]%elem_of_index_getAll). exists it.
      unfold merge_progress. cbn. by destruct (progress db !! k).
    + intros (it & Hit & Hsid & Hs & Hf & Hfi & Hb & Hbi & Hp).
      exists (m_id m, it). split; [|by apply elem_of_index_getAll].
      unfold merge_progress. destruct m. cbn in *. subst.
      by destruct (progress db !! m_id0); injection Hp as -> ->.
Qed.

(** X3. A grade shows in the listing and nothing else changes there:
    [updateProgress] resolves, leaves subjects and items alone, and the
    listing of any subject afterwards is the one before with the level and
    the time of the grade on the graded item. *)
Theorem updateProgress_listing (itemId lvl now subjectId : Z) (db : DB) :
  ∃ db', updateProgress itemId lvl now db = (Resolved tt, db') ∧
    subjects db' = subjects db ∧ items db' = items db ∧
    getAllItemsWithProgress subjectId db' =
      (λ m, if decide (m_id m = itemId)
            then mkMerged (m_id m) (m_subject_id m) (m_front m) (m_front_info m)
                          (m_back m) (m_back_info m) lvl now
            else m) <$> getAllItemsWithProgress subjectId db.
Proof.
  eexists. split; [reflexivity|]. split; [done|]. split; [done|].
  unfold getAllItemsWithProgress. cbn. rewrite <-list_fmap_compose.
  apply list_fmap_ext. intros i [k it] _. unfold merge_progress. cbn.
  destruct (decide (k = itemId)) as [->|Hne].
  - by rewrite lookup_insert_eq.
  - by rewrite lookup_insert_ne.
Qed.

(** X4. A correction shows in the listing and keeps the progress:
    after [updateItem] the listing of any subject is the one before with
    the four texts of [item] on the entry of that [id]; its level, its
    [last_studied], its subject and its place stay, whatever [item] says of
    them. *)
Theorem updateItem_listing (item : MergedItem) (subjectId : Z) (db : DB) :
  getAllItemsWithProgress subjectId (updateItem item db).2 =
    (λ m, if decide (m_id m = m_id item)
          then mkMerged (m_id m) (m_subject_id m) (m_front item) (m_front_info item)
                        (m_back item) (m_back_info item) (m_level m) (m_last_studied m)
          else m) <$> getAllItemsWithProgress subjectId db.
Proof.
  unfold updateItem, transaction, getAllItemsWithProgress.
  destruct (items db !! m_id item) as [existing|] eqn:E; cbn.
  - rewrite (index_getAll_insert_same _ _ _ existing) by done.
    rewrite <-!list_fmap_compose. apply list_fmap_ext.
    intros i [k it] Hin. cbn.
    destruct (decide (k = m_id item)) as [->|Hne]; [|done].
    apply list_elem_of_lookup_2, elem_of_index_getAll in Hin as [Hit _].
    assert (it = existing) as -> by congruence. done.
  - rewrite <-list_fmap_compose. apply list_fmap_ext.
    intros i [k it] Hin. cbn.
    destruct (decide (k = m_id item)) as [->|Hne]; [|done].
    apply list_elem_of_lookup_2, elem_of_index_getAll in Hin as [Hit _]. congruence.
Qed.

(** X5. After [deleteItem] the listing of any subject is the one before
    without the entry of that [id]: the other entries keep their order,
    their texts and their progress. *)
Theorem deleteItem_listing (itemId subjectId : Z) (db : DB) :
  getAllItemsWithProgress subjectId (deleteItem itemId db).2 =
    filter (λ m, m_id m ≠ itemId) (getAllItemsWithProgress subjectId db).
Proof.
  unfold getAllItemsWithProgress. cbn. rewrite index_getAll_delete, filter_fmap. cbn.
  apply list_fmap_ext. intros i [k it] Hin.
  apply list_elem_of_lookup_2, list_elem_of_filter in Hin as [Hne _]. cbn in Hne.
  unfold merge_progress. cbn. by rewrite lookup_delete_ne.
Qed.

(** The listing after an import that does not clear. *)
Lemma importItems_append_listing (subjectId : Z) (recs : list ImportRecord)
    (now : nat → Z) (db : DB) :
  generators_ahead db → progress_issued db →
  ∃ db', importItems subjectId recs false now db = (Resolved tt, db') ∧
    getAllItemsWithProgress subjectId db' =
      getAllItemsWithProgress subjectId db ++
      imap (λ (i : nat) r,
              mkMerged (items_key db + Z.of_nat i) subjectId
                       (r_front r) (default EmptyString (r_front_info r))
                       (r_back r) (default EmptyString (r_back_info r))
                       (level (progress_of_record r))
                       (last_studied (progress_of_record r))) recs ∧
    ∀ other, other ≠ subjectId →
      getAllItemsWithProgress other db' = getAllItemsWithProgress other db.
Proof.
  intros Hg Hp.
  destruct (importItems_resolves subjectId recs false now db Hg Hp) as [db' Himp].
  exists db'. split; [done|].
  apply importItems_resolved in Himp as (db1 & -> & Hb & Hadd).
  destruct Hb as (_ & _ & _ & Hrows & Hframe).
  pose proof (add_batch_getAll _ _ _ _ _ (proj2 Hg) Hadd) as Hall.
  assert (∀ sid, merge_progress (progress db') <$> index_getAll sid (items db) =
                 merge_progress (progress db) <$> index_getAll sid (items db)) as Hold.
  { intros sid. apply list_fmap_ext. intros i [k it] Hin.
    apply list_elem_of_lookup_2, elem_of_index_getAll in Hin as [Hit _].
    apply (proj2 Hg) in Hit. cbn in Hit.
    unfold merge_progress. cbn. destruct (Hframe k) as [_ ->]; [lia|done]. }
  unfold getAllItemsWithProgress, index_getAll. rewrite Hall, filter_app. split.
  - rewrite fmap_app. fold (index_getAll subjectId (items db)). rewrite Hold. f_equal.
    rewrite filter_all.
    + apply list_eq. intros i. rewrite list_lookup_fmap, !list_lookup_imap.
      destruct (recs !! i) as [r|] eqn:Hi; [|done]. cbn.
      destruct (Hrows i r Hi) as (_ & _ & _ & Hpr).
      unfold merge_progress. cbn. by rewrite Hpr.
    + apply Forall_forall. intros [k it] (i & r & [= -> ->] & _)%elem_of_lookup_imap. done.
  - intros other Hne. rewrite filter_app, fmap_app. fold (index_getAll other (items db)).
    rewrite Hold, filter_none; [by rewrite app_nil_r|].
    apply Forall_forall. intros [k it] (i & r & [= -> ->] & _)%elem_of_lookup_imap.
    cbn. congruence.
Qed.

(** X6. An import that does not clear appends: on a database whose
    keys were issued it resolves, the listing of the subject afterwards is
    the one before followed by one entry for each record, in the order of
    the records, under the ids the generator hands out from [items_key] on,
    and the listing of every other subject is as before. *)
Theorem importItems_appends (subjectId : Z) (recs : list ImportRecord)
    (now : nat → Z) (db : DB) :
  generators_ahead db → progress_issued db →
  ∃ db', importItems subjectId recs false now db = (Resolved tt, db') ∧
    getAllItemsWithProgress subjectId db' =
      getAllItemsWithProgress subjectId db ++
      imap (λ (i : nat) r,
              mkMerged (items_key db + Z.of_nat i) subjectId
                       (r_front r) (default EmptyString (r_front_info r))
                       (r_back r) (default EmptyString (r_back_info r))
                       (level (progress_of_record r))
                       (last_studied (progress_of_record r))) recs ∧
    ∀ other, other ≠ subjectId →
      getAllItemsWithProgress other db' = getAllItemsWithProgress other db.
Proof. apply importItems_append_listing. Qed.

(** One card more for the subject of [one_card]. *)
Lemma importItems_appends_witness :
  generators_ahead one_card ∧ progress_issued one_card ∧
  ∃ db', importItems 1 [card "C" "D"] false epoch one_card = (Resolved tt, db') ∧
    m_id <$> getAllItemsWithProgress 1 db' = [1; 2].
Proof.
  assert (generators_ahead one_card) as Hg by keys_by_evaluation.
  assert (progress_issued one_card) as Hp by keys_by_evaluation.
  split; [exact Hg|]. split; [exact Hp|].
  destruct (importItems_appends 1 [card "C" "D"] epoch one_card Hg Hp)
    as (db' & Himp & Hlist & _).
  exists db'. split; [exact Himp|]. rewrite Hlist. reflexivity.
Defined.

(** X7. On a database whose keys were issued [createSubject] resolves
    with an id above that of every subject there is, and the subjects read
    back afterwards are those before, in their order, followed by the new
    one; items and progress are left alone. *)
Theorem createSubject_listing (nm : string) (st : Settings) (now : Z) (db : DB) :
  generators_ahead db →
  ∃ id db', createSubject nm st now db = (Resolved id, db') ∧
    getSubjects db' = getSubjects db ++ [(id, mkSubject nm st now)] ∧
    (∀ s, s ∈ getSubjects db → s.1 < id) ∧
    items db' = items db ∧ progress db' = progress db.
Proof.
  intros Hg. destruct (createSubject_fresh nm st now db Hg) as [Hfree Heq].
  eexists _, _. split; [exact Heq|]. unfold getSubjects. cbn.
  split; [apply os_getAll_insert_last, Hg|]. split; [|done].
  intros [k row] Hin%elem_of_os_getAll. cbn. by apply (proj1 Hg) in Hin.
Qed.

Lemma createSubject_listing_witness :
  generators_ahead one_card ∧
  ∃ id db', createSubject "T" noSettings 5 one_card = (Resolved id, db') ∧
    (getSubjects db').*1 = [1; 2].
Proof.
  assert (generators_ahead one_card) as Hg by keys_by_evaluation.
  split; [exact Hg|].
  destruct (createSubject_listing "T" noSettings 5 one_card Hg)
    as (id & db' & Hc & Hlist & _).
  exists id, db'. split; [exact Hc|]. rewrite Hlist.
  injection Hc as <- _. reflexivity.
Defined.

(** X8. An id is not handed out twice.  An id below the generator of the
    items store that no item has, be it that its item was deleted, stays
    below the generator and without an item through every call of the
    interface, whatever the call and whatever its outcome. *)
Theorem item_ids_are_not_reused (c : Call) (db : DB) (k : Z) :
  k < items_key db → items db !! k = None →
  k < items_key (call c db) ∧ items (call c db) !! k = None.
Proof.
  intros Hk Hfree.
  assert (∀ sid db1, cleared sid db db1 → k < items_key db1 ∧ items db1 !! k = None) as Hcl.
  { intros sid db1 (_ & _ & Hik & Hitems & _). split; [lia|].
    destruct (items db1 !! k) as [it|] eqn:E; [|done].
    apply Hitems in E as [E _]. congruence. }
  destruct c; cbn [call].
  - unfold createSubject, transaction, os_add.
    by destruct (subjects db !! subjects_key db).
  - set (db1 := set_subjects (delete id) db).
    change (deleteSubject id db).2
      with (foldl delete_item_and_progress db1 (index_getAllKeys id (items db1))).
    destruct (foldl_delete_subjects db1 (index_getAllKeys id (items db1))) as (_ & _ & ->).
    split; [done|]. rewrite foldl_delete_items. by destruct (decide _).
  - destruct (importItems subjectId recs clearExisting now db) as [[[]|e] db'] eqn:Himp;
      cbn [snd].
    + apply importItems_resolved in Himp as (db1 & Hc & Hb & _).
      assert (k < items_key db1 ∧ items db1 !! k = None) as [Hk1 Hfree1].
      { destruct clearExisting; [by eapply Hcl|by subst]. }
      destruct Hb as (_ & _ & Hik & _ & Hframe). split; [lia|].
      destruct (Hframe k) as [-> _]; [lia|done].
    + apply importItems_rejected in Himp.
      destruct clearExisting; [by eapply Hcl|by subst].
  - destruct (clearItemsBySubject_cleared subjectId db) as (d & -> & Hc). by eapply Hcl.
  - done.
  - unfold updateItem, transaction.
    destruct (items db !! m_id item) as [existing|] eqn:E; [|done]. cbn. split; [done|].
    rewrite lookup_insert_ne; [done|]. intros <-. congruence.
  - cbn. split; [done|]. destruct (decide (itemId = k)) as [->|Hne].
    + apply lookup_delete_eq.
    + by rewrite lookup_delete_ne.
Qed.

(** The card of [one_card] deleted: the next import starts at id 2. *)
Lemma item_ids_are_not_reused_witness :
  1 < items_key (deleteItem 1 one_card).2 ∧
  items (deleteItem 1 one_card).2 !! 1 = None ∧
  items (call (ImportItems 1 [card "C" "D"] false epoch) (deleteItem 1 one_card).2) !! 1
    = None.
Proof.
  assert (1 < items_key (deleteItem 1 one_card).2) as Hk by (vm_compute; reflexivity).
  assert (items (deleteItem 1 one_card).2 !! 1 = None) as Hfree by reflexivity.
  split; [exact Hk|]. split; [exact Hfree|].
  exact (proj2 (item_ids_are_not_reused
                  (ImportItems 1 [card "C" "D"] false epoch) _ 1 Hk Hfree)).
Defined.

(** X9. [clearItemsBySubject] resolves and empties the listing of the
    subject, while the subjects and the listing of every other subject,
    progress included, are as before. *)
Theorem clearItemsBySubject_listing (subjectId : Z) (db : DB) :
  ∃ db', clearItemsBySubject subjectId db = (Resolved tt, db') ∧
    getSubjects db' = getSubjects db ∧
    getAllItemsWithProgress subjectId db' = [] ∧
    ∀ other, other ≠ subjectId →
      getAllItemsWithProgress other db' = getAllItemsWithProgress other db.
Proof.
  destruct (clearItemsBySubject_cleared subjectId db)
    as (db' & Hclear & Hs & _ & _ & Hitems & _ & Hprog).
  exists db'. split; [done|]. unfold getSubjects, getAllItemsWithProgress.
  rewrite Hs. split; [done|]. split.
  - replace (index_getAll subjectId (items db')) with (@nil (Z * ItemRow)); [done|].
    symmetry. apply filter_none, Forall_forall.
    intros [k it] Hin%elem_of_os_getAll. cbn. by apply Hitems in Hin as [_ ?].
  - intros other Hne.
    rewrite (index_getAll_ext other (items db') (items db)).
    + apply list_fmap_ext. intros i [k it] Hin.
      apply list_elem_of_lookup_2, elem_of_index_getAll in Hin as [Hit Hsid].
      unfold merge_progress. cbn. rewrite Hprog; [done|].
      intros it' Hit'. congruence.
    + intros k it Hsid. rewrite Hitems. split; [tauto|]. intros Hit. split; [done|congruence].
Qed.

(** X10. [updateSubject] rejects on an id without a subject and leaves the
    database as it was.  On the id of a subject it resolves, and the subjects
    read back afterwards are those before, in their order, that one with the
    name and the settings of the update where it gives them, the settings as
    a whole, and with the [created_at] it had; no subject is added, no key is
    drawn, and items and progress are left alone. *)
Theorem updateSubject_listing (id : Z) (updates : SubjectUpdates) (db : DB) :
  (subjects db !! id = None → updateSubject id updates db = (SubjectNotFound, db)) ∧
  (∀ data, subjects db !! id = Some data →
     ∃ db', updateSubject id updates db = (SubjectUpdated, db') ∧
       getSubjects db' =
         (λ s : Z * SubjectRow,
            if decide (s.1 = id)
            then (id, mkSubject (default (name data) (u_name updates))
                                (default (settings data) (u_settings updates))
                                (s_created_at data))
            else s) <$> getSubjects db ∧
       subjects_key db' = subjects_key db ∧ items db' = items db ∧
       items_key db' = items_key db ∧ progress db' = progress db).
Proof.
  unfold updateSubject. split; [by intros ->|]. intros data Hdata. rewrite Hdata.
  eexists. split; [reflexivity|]. split; [|done]. unfold getSubjects. cbn.
  set (v' := mkSubject _ _ _).
  set (f := λ s : Z * SubjectRow, if decide (s.1 = id) then (id, v') else s).
  assert (∀ s, (f s).1 = s.1) as Hf.
  { intros [k0 v0]. unfold f. cbn. by destruct (decide (k0 = id)) as [->|]. }
  apply key_order_unique.
  - apply os_getAll_sorted.
  - apply (StronglySorted_fmap _ key_le); [|apply os_getAll_sorted].
    intros x y. unfold key_le. by rewrite !Hf.
  - apply os_getAll_keys_NoDup.
  - rewrite <-list_fmap_compose.
    rewrite (list_fmap_ext (fst ∘ f) fst (os_getAll (subjects db))); [|by intros i x _; apply Hf].
    apply os_getAll_keys_NoDup.
  - intros [k0 row]. rewrite elem_of_os_getAll, list_elem_of_fmap. split.
    + intros Hrow. destruct (decide (k0 = id)) as [->|Hne].
      * rewrite lookup_insert_eq in Hrow. injection Hrow as <-.
        exists (id, data). split; [unfold f; cbn; by rewrite decide_True|].
        by apply elem_of_os_getAll.
      * rewrite lookup_insert_ne in Hrow by done.
        exists (k0, row). split; [unfold f; cbn; by rewrite decide_False|].
        by apply elem_of_os_getAll.
    + intros ([k1 row1] & Heq & Hrow%elem_of_os_getAll). unfold f in Heq. cbn in Heq.
      destruct (decide (k1 = id)) as [->|Hne]; injection Heq as -> ->.
      * apply lookup_insert_eq.
      * by rewrite lookup_insert_ne.
Qed.

End ListingFacts.

(** ** What the parser reads *)

Module ParserFacts.
Import Csv.

(** *** Strings *)

Lemma append_cons (c : ascii) (s t : string) : String c s +:+ t = String c (s +:+ t).
Proof. reflexivity. Qed.

Lemma append_nil_l (s : string) : EmptyString +:+ s = s.
Proof. reflexivity. Qed.

Lemma append_nil_r (s : string) : s +:+ EmptyString = s.
Proof. induction s as [|c s IH]; [done|]. by rewrite append_cons, IH. Qed.

Lemma append_assoc (a b c : string) : (a +:+ b) +:+ c = a +:+ (b +:+ c).
Proof. induction a as [|x a IH]; [done|]. by rewrite !append_cons, IH. Qed.

Lemma push_append (cur : string) (c : ascii) (s : string) :
  push cur c +:+ s = cur +:+ String c s.
Proof. unfold push. by rewrite append_assoc. Qed.

Lemma includes_append (c : ascii) (a b : string) :
  includes c (a +:+ b) = includes c a || includes c b.
Proof.
  induction a as [|x a IH]; [done|]. rewrite append_cons. cbn. rewrite IH.
  by destruct (Ascii.eqb x c).
Qed.

(** *** Trimming *)

Lemma trimStart_whitespace (w s : string) :
  whitespace_only w = true → trimStart (w +:+ s) = trimStart s.
Proof.
  induction w as [|c w IH]; [done|]. rewrite append_cons. cbn.
  intros [Hc Hw]%andb_true_iff. rewrite Hc. auto.
Qed.

Lemma trimStart_whitespace_only (w : string) :
  whitespace_only w = true → trimStart w = EmptyString.
Proof.
  induction w as [|c w IH]; [done|]. cbn. intros [Hc Hw]%andb_true_iff.
  rewrite Hc. auto.
Qed.

Lemma trimEnd_whitespace_only (w : string) :
  whitespace_only w = true → trimEnd w = EmptyString.
Proof.
  induction w as [|c w IH]; [done|]. cbn. intros [Hc Hw]%andb_true_iff.
  by rewrite IH, Hc.
Qed.

Lemma trimEnd_whitespace (s w : string) :
  whitespace_only w = true → trimEnd (s +:+ w) = trimEnd s.
Proof.
  intros Hw. induction s as [|c s IH].
  - by apply trimEnd_whitespace_only.
  - rewrite append_cons. cbn. by rewrite IH.
Qed.

Lemma trimStart_cases (s : string) :
  (whitespace_only s = true ∧ trimStart s = EmptyString) ∨
  (∃ w c t, s = w +:+ String c t ∧ whitespace_only w = true ∧
            is_whitespace c = false ∧ trimStart s = String c t).
Proof.
  induction s as [|c s IH]; [by left|]. cbn.
  destruct (is_whitespace c) eqn:Hc.
  - destruct IH as [[Hw Ht]|(w & c' & t & -> & Hw & Hc' & Ht)]; [by left|].
    right. exists (String c w), c', t. cbn. by rewrite Hc, Hw.
  - right. by exists EmptyString, c, s.
Qed.

(** White space around a line is nothing to [trim]. *)
Lemma trim_surrounded (w1 s w2 : string) :
  whitespace_only w1 = true → whitespace_only w2 = true →
  trim (w1 +:+ s +:+ w2) = trim s.
Proof.
  intros H1 H2. unfold trim. rewrite trimStart_whitespace by done.
  destruct (trimStart_cases s) as [[Hw Ht]|(w & c & t & -> & Hw & Hc & Ht)].
  - rewrite Ht, trimStart_whitespace, trimStart_whitespace_only by done. done.
  - rewrite Ht, append_assoc, trimStart_whitespace by done.
    rewrite append_cons. cbn [trimStart]. rewrite Hc, <-append_cons.
    by apply trimEnd_whitespace.
Qed.

Lemma trimEnd_ends_nonblank (s : string) (c : ascii) :
  is_whitespace c = false →
  trimEnd (s +:+ String c EmptyString) = s +:+ String c EmptyString.
Proof.
  intros Hc. induction s as [|x s IH].
  - rewrite append_nil_l. cbn [trimEnd]. by rewrite Hc.
  - rewrite append_cons. cbn [trimEnd]. rewrite IH.
    destruct s; reflexivity.
Qed.

(** What [trim] leaves as it is begins and ends with something else than
    white space. *)
Lemma trimStart_length (s : string) : (String.length (trimStart s) ≤ String.length s)%nat.
Proof.
  induction s as [|c s IH]; [done|]. cbn. destruct (is_whitespace c); cbn; lia.
Qed.

Lemma trimEnd_length (s : string) : (String.length (trimEnd s) ≤ String.length s)%nat.
Proof.
  induction s as [|c s IH]; [done|]. cbn.
  destruct (trimEnd s); [destruct (is_whitespace c)|]; cbn in *; lia.
Qed.

Lemma trimEnd_fixed (s : string) :
  trimEnd s = s → s ≠ EmptyString →
  ∃ s0 c, s = s0 +:+ String c EmptyString ∧ is_whitespace c = false.
Proof.
  induction s as [|x s IH]; [done|]. cbn [trimEnd]. intros Heq _.
  destruct (trimEnd s) as [|y t] eqn:Ht.
  - destruct (is_whitespace x) eqn:Hx; [done|]. injection Heq as <-.
    by exists EmptyString, x.
  - injection Heq as Heq. destruct IH as (s0 & c & -> & Hc); [done|by rewrite <-Heq|].
    by exists (String x s0), c.
Qed.

Lemma trim_fixed (s : string) :
  trim s = s → s ≠ EmptyString →
  (∃ c t, s = String c t ∧ is_whitespace c = false) ∧
  (∃ s0 c, s = s0 +:+ String c EmptyString ∧ is_whitespace c = false).
Proof.
  intros Heq Hne. destruct s as [|c t]; [done|].
  destruct (is_whitespace c) eqn:Hc.
  - exfalso. unfold trim in Heq. cbn [trimStart] in Heq. rewrite Hc in Heq.
    pose proof (trimEnd_length (trimStart t)) as H1.
    pose proof (trimStart_length t) as H2. rewrite Heq in H1. cbn in H1. lia.
  - split; [by exists c, t|]. apply trimEnd_fixed; [|done].
    unfold trim in Heq. cbn [trimStart] in Heq. by rewrite Hc in Heq.
Qed.

Lemma trim_between (c : ascii) (t : string) (s0 : string) (c' : ascii) :
  is_whitespace c = false → is_whitespace c' = false →
  String c t = s0 +:+ String c' EmptyString →
  trim (String c t) = String c t.
Proof.
  intros Hc Hc' Heq. unfold trim. cbn [trimStart]. rewrite Hc, Heq.
  by apply trimEnd_ends_nonblank.
Qed.

(** *** The cleaning of a part *)

Lemma strip_last_quote_plain (f : string) :
  includes dquote f = false → strip_last_quote f = f.
Proof.
  induction f as [|c f IH]; [done|]. cbn [includes].
  intros [Hc Hf]%orb_false_iff. destruct f as [|c' f'].
  - cbn. by rewrite Hc.
  - change (strip_last_quote (String c (String c' f')))
      with (String c (strip_last_quote (String c' f'))).
    by rewrite IH.
Qed.

Lemma collapse_quotes_plain (f : string) :
  includes dquote f = false → collapse_quotes f = f.
Proof.
  induction f as [|c f IH]; [done|]. cbn [includes].
  intros [Hc Hf]%orb_false_iff. destruct f as [|c' f']; [done|].
  change (collapse_quotes (String c (String c' f')))
    with (if Ascii.eqb c dquote && Ascii.eqb c' dquote
          then String dquote (collapse_quotes f')
          else String c (collapse_quotes (String c' f'))).
  rewrite Hc. cbn [andb]. by rewrite IH.
Qed.

Lemma double_quotes_plain (f : string) :
  includes dquote f = false → double_quotes f = f.
Proof.
  induction f as [|c f IH]; [done|]. cbn.
  intros [Hc Hf]%orb_false_iff. by rewrite Hc, IH.
Qed.

Lemma clean_part_plain (f : string) : plain f → clean_part f = f.
Proof.
  intros [Hq Ht]. unfold clean_part. rewrite Ht.
  assert (strip_quotes f = f) as ->.
  { destruct f as [|c f']; [done|]. unfold strip_quotes.
    cbn [includes] in Hq. apply orb_false_iff in Hq as [Hc Hf].
    rewrite Hc. apply strip_last_quote_plain. cbn [includes]. by rewrite Hc. }
  by apply collapse_quotes_plain.
Qed.

Lemma clean_parts_plain (fields : list string) :
  Forall plain fields → clean_part <$> fields = fields.
Proof.
  induction 1 as [|f fields Hf _ IH]; [done|].
  cbn [fmap list_fmap]. by rewrite clean_part_plain, IH.
Qed.

(** *** Fields between quotes *)

Lemma parseLine_loop_open d line cur vals :
  parseLine_loop d (String dquote line) cur false vals =
  parseLine_loop d line cur true vals.
Proof. by destruct line. Qed.

Lemma parseLine_loop_delimiter d line cur vals :
  d ≠ dquote →
  parseLine_loop d (String d line) cur false vals =
  parseLine_loop d line EmptyString false (vals ++ [cur]).
Proof.
  intros Hd. cbn [parseLine_loop].
  rewrite (proj2 (Ascii.eqb_neq d dquote) Hd), Ascii.eqb_refl. done.
Qed.

(** Inside the quotes: up to the closing quote, doubled quotes read as one
    quote each and the delimiter as itself. *)
Lemma parseLine_loop_quoted d (f : string) : ∀ cur rest vals,
  (∀ r, rest ≠ String dquote r) →
  parseLine_loop d (double_quotes f +:+ String dquote rest) cur true vals =
  parseLine_loop d rest (cur +:+ f) false vals.
Proof.
  induction f as [|c f IH]; intros cur rest vals Hrest.
  - rewrite append_nil_r. change (double_quotes EmptyString +:+ String dquote rest)
      with (String dquote rest).
    cbn [parseLine_loop]. rewrite Ascii.eqb_refl.
    destruct rest as [|c' r]; [done|].
    destruct (Ascii.eqb_spec c' dquote) as [->|_]; [by destruct (Hrest r)|done].
  - cbn [double_quotes]. destruct (Ascii.eqb_spec c dquote) as [->|Hc].
    + rewrite !append_cons. cbn [parseLine_loop]. rewrite Ascii.eqb_refl. cbn [andb].
      rewrite IH by done. by rewrite push_append.
    + rewrite append_cons. cbn [parseLine_loop].
      rewrite (proj2 (Ascii.eqb_neq c dquote) Hc), andb_false_r.
      rewrite IH by done. by rewrite push_append.
Qed.

Lemma join_cons sep (f g : string) (fields : list string) :
  join sep (f :: g :: fields) = f +:+ String sep (join sep (g :: fields)).
Proof. reflexivity. Qed.

Lemma parseLine_loop_fields (fields : list string) : ∀ f vals,
  parseLine_loop comma (join comma (enclose <$> f :: fields)) EmptyString false vals =
  vals ++ f :: fields.
Proof.
  induction fields as [|g fields IH]; intros f vals.
  - change (join comma (enclose <$> [f])) with (enclose f). unfold enclose.
    rewrite parseLine_loop_open, parseLine_loop_quoted by done. done.
  - change (enclose <$> f :: g :: fields) with (enclose f :: enclose g :: (enclose <$> fields)).
    rewrite join_cons. unfold enclose at 1.
    rewrite append_cons, append_assoc, append_cons.
    rewrite append_nil_l.
    rewrite parseLine_loop_open, parseLine_loop_quoted by done.
    rewrite parseLine_loop_delimiter by done.
    change (enclose g :: (enclose <$> fields)) with (enclose <$> g :: fields).
    rewrite IH, <-app_assoc. done.
Qed.

(** X11. The helper [parseLine] reads back what was written field by field
    between quotes: a comma inside the quotes does not end the field, and a
    doubled quote is one quote of the field.  Whatever the fields hold. *)
Theorem parseLine_reads_enclosed_fields (f : string) (fields : list string) :
  parseLine (join comma (enclose <$> f :: fields)) comma = f :: fields.
Proof. unfold parseLine. by rewrite parseLine_loop_fields. Qed.

(** *** Whole lines *)

Lemma line_item_trim (a b : string) : trim a = trim b → line_item a = line_item b.
Proof. unfold line_item. by intros ->. Qed.

Lemma line_item_fields (line : string) (fields : list string) :
  trim line = line → line ≠ EmptyString →
  line_parts line = fields → fields ≠ [] →
  line_item line =
    if nonempty (front (map_columns fields)) || nonempty (back (map_columns fields))
    then Some (map_columns fields) else None.
Proof.
  intros Ht Hne Hparts Hfields. unfold line_item. rewrite Ht, Hparts.
  destruct line; [done|]. cbn [nonempty]. by destruct fields.
Qed.

(** A line of fields between quotes begins and ends with a quote. *)
Lemma join_enclosed_shape (fields : list string) : ∀ f,
  ∃ y, join comma (enclose <$> f :: fields) = String dquote (y +:+ String dquote EmptyString).
Proof.
  induction fields as [|g fields IH]; intros f.
  - by exists (double_quotes f).
  - destruct (IH g) as [y Hy].
    change (enclose <$> f :: g :: fields) with (enclose f :: (enclose <$> g :: fields)).
    change (enclose <$> g :: fields) with (enclose g :: (enclose <$> fields)) at 1.
    rewrite join_cons.
    change (enclose g :: (enclose <$> fields)) with (enclose <$> g :: fields).
    rewrite Hy. unfold enclose.
    exists (double_quotes f +:+ String dquote (String comma (String dquote y))).
    rewrite !append_cons, !append_assoc. by rewrite !append_cons, append_nil_l.
Qed.

Lemma includes_double_quotes (c : ascii) (f : string) :
  c ≠ dquote → includes c (double_quotes f) = includes c f.
Proof.
  intros Hc. induction f as [|x f IH]; [done|]. cbn [double_quotes].
  destruct (Ascii.eqb_spec x dquote) as [->|Hx]; cbn [includes]; rewrite IH; [|done].
  by rewrite (proj2 (Ascii.eqb_neq dquote c)).
Qed.

Lemma includes_join_enclosed (fields : list string) : ∀ f,
  Forall (λ g, includes tab g = false) (f :: fields) →
  includes tab (join comma (enclose <$> f :: fields)) = false.
Proof.
  assert (∀ g, includes tab g = false → includes tab (enclose g) = false) as Hone.
  { intros g Hg. unfold enclose. cbn [includes].
    rewrite includes_append, includes_double_quotes, Hg by done. done. }
  induction fields as [|g fields IH]; intros f [Hf Hrest]%Forall_cons.
  - by apply Hone.
  - change (enclose <$> f :: g :: fields) with (enclose f :: enclose g :: (enclose <$> fields)).
    rewrite join_cons, includes_append. rewrite Hone by done. cbn [includes orb].
    change (enclose g :: (enclose <$> fields)) with (enclose <$> g :: fields).
    by rewrite IH.
Qed.

(** X12. A line of fields between quotes, comma separated, is read back
    field by field when the fields are plain, that is without quotes and
    without white space around them, and hold no tab: a comma inside a field
    stays in the field.  The item is then the one the mapping of the columns
    gives for these fields, if its front or its back is not empty. *)
Theorem line_item_enclosed_fields (f : string) (fields : list string) :
  Forall plain (f :: fields) →
  Forall (λ g, includes tab g = false) (f :: fields) →
  line_parts (join comma (enclose <$> f :: fields)) = f :: fields ∧
  line_item (join comma (enclose <$> f :: fields)) =
    if nonempty (front (map_columns (f :: fields))) ||
       nonempty (back (map_columns (f :: fields)))
    then Some (map_columns (f :: fields)) else None.
Proof.
  intros Hplain Htab.
  assert (line_parts (join comma (enclose <$> f :: fields)) = f :: fields) as Hparts.
  { unfold line_parts. rewrite includes_join_enclosed by done.
    unfold parseLine. rewrite parseLine_loop_fields. by apply clean_parts_plain. }
  split; [done|].
  destruct (join_enclosed_shape fields f) as [y Hy].
  apply line_item_fields; [| |done|done].
  - rewrite Hy. apply (trim_between dquote _ (String dquote y) dquote); reflexivity.
  - by rewrite Hy.
Qed.

(** Four fields, the first with a comma of its own. *)
Lemma line_item_enclosed_fields_witness :
  Forall plain ["a, b"; "c"; "d"; "e"] ∧
  Forall (λ g, includes tab g = false) ["a, b"; "c"; "d"; "e"] ∧
  line_item (join comma (enclose <$> ["a, b"; "c"; "d"; "e"])) =
    Some (mkParsed "a, b" "c" "d" "e").
Proof.
  assert (Forall plain ["a, b"; "c"; "d"; "e"]) as Hplain
    by (repeat constructor; reflexivity).
  assert (Forall (λ g, includes tab g = false) ["a, b"; "c"; "d"; "e"]) as Htab
    by (repeat constructor; reflexivity).
  split; [exact Hplain|]. split; [exact Htab|].
  exact (proj2 (line_item_enclosed_fields "a, b" ["c"; "d"; "e"] Hplain Htab)).
Defined.

(** *** Fields between tabs *)

Lemma split_field sep (f : string) : ∀ cur rest,
  includes sep f = false → split sep (f +:+ rest) cur = split sep rest (cur +:+ f).
Proof.
  induction f as [|c f IH]; intros cur rest.
  - by rewrite append_nil_l, append_nil_r.
  - cbn [includes]. intros [Hc Hf]%orb_false_iff.
    rewrite append_cons. cbn [split]. rewrite Hc, IH by done. by rewrite push_append.
Qed.

Lemma split_join sep (fields : list string) : ∀ f cur,
  Forall (λ g, includes sep g = false) (f :: fields) →
  split sep (join sep (f :: fields)) cur = (cur +:+ f) :: fields.
Proof.
  induction fields as [|g fields IH]; intros f cur [Hf Hrest]%Forall_cons.
  - change (join sep [f]) with f. rewrite <-(append_nil_r f) at 1.
    by rewrite split_field.
  - rewrite join_cons, split_field by done. cbn [split]. rewrite Ascii.eqb_refl.
    by rewrite IH.
Qed.

Lemma join_ends sep (l : string) (mid : list string) : ∀ f,
  ∃ p, join sep (f :: mid ++ [l]) = p +:+ l.
Proof.
  induction mid as [|g mid IH]; intros f.
  - exists (f +:+ String sep EmptyString). cbn [app]. rewrite join_cons.
    change (join sep [l]) with l. by rewrite append_assoc.
  - destruct (IH g) as [p Hp]. exists (f +:+ String sep p).
    change (f :: (g :: mid) ++ [l]) with (f :: g :: mid ++ [l]).
    by rewrite join_cons, Hp, append_assoc.
Qed.

Lemma front_map_columns (f : string) (fields : list string) :
  front (map_columns (f :: fields)) = f.
Proof. by destruct fields as [|a [|b [|c fields]]]. Qed.

(** X13. A line of two or more plain fields between tabs, the first and
    the last of them not empty, is read back field by field: commas are of
    the fields, and the item is the one the mapping of the columns gives. *)
Theorem line_item_tab_separated (f : string) (mid : list string) (l : string) :
  Forall plain (f :: mid ++ [l]) →
  Forall (λ g, includes tab g = false) (f :: mid ++ [l]) →
  f ≠ EmptyString → l ≠ EmptyString →
  line_parts (join tab (f :: mid ++ [l])) = f :: mid ++ [l] ∧
  line_item (join tab (f :: mid ++ [l])) = Some (map_columns (f :: mid ++ [l])).
Proof.
  intros Hplain Htab Hf Hl.
  assert (includes tab (join tab (f :: mid ++ [l])) = true) as Hinc.
  { destruct (mid ++ [l]) as [|g rest] eqn:E; [by destruct mid|].
    rewrite join_cons, includes_append. cbn [includes].
    rewrite Ascii.eqb_refl. by rewrite orb_true_r. }
  assert (line_parts (join tab (f :: mid ++ [l])) = f :: mid ++ [l]) as Hparts.
  { unfold line_parts. rewrite Hinc, split_join by done. by apply clean_parts_plain. }
  split; [done|].
  pose proof (Forall_inv Hplain) as [_ Htf].
  assert (plain l) as [_ Htl].
  { apply (proj1 (Forall_forall _ _) Hplain). set_solver. }
  destruct (trim_fixed f Htf Hf) as [(c & t & -> & Hc) _].
  destruct (trim_fixed l Htl Hl) as [_ (l0 & c' & -> & Hc')].
  destruct (join_ends tab (l0 +:+ String c' EmptyString) mid (String c t)) as [p Hp].
  rewrite (line_item_fields _ (String c t :: mid ++ [l0 +:+ String c' EmptyString]));
    [|..|done|done].
  - by rewrite front_map_columns.
  - destruct (mid ++ [l0 +:+ String c' EmptyString]) as [|g rest] eqn:E; [by destruct mid|].
    rewrite join_cons, append_cons in Hp |- *.
    apply (trim_between c _ (p +:+ l0) c'); [done..|].
    by rewrite Hp, append_assoc.
  - destruct (mid ++ [l0 +:+ String c' EmptyString]) as [|g rest] eqn:E; [by destruct mid|].
    by rewrite join_cons, append_cons.
Qed.

(** Three fields, the first with a comma: front, back and front info. *)
Lemma line_item_tab_separated_witness :
  Forall plain ("a,b" :: ["x"] ++ ["c"]) ∧
  Forall (λ g, includes tab g = false) ("a,b" :: ["x"] ++ ["c"]) ∧
  line_item (join tab ("a,b" :: ["x"] ++ ["c"])) =
    Some (mkParsed "a,b" "c" "x" EmptyString).
Proof.
  assert (Forall plain ("a,b" :: ["x"] ++ ["c"])) as Hplain
    by (repeat constructor; reflexivity).
  assert (Forall (λ g, includes tab g = false) ("a,b" :: ["x"] ++ ["c"])) as Htab
    by (repeat constructor; reflexivity).
  split; [exact Hplain|]. split; [exact Htab|].
  refine (proj2 (line_item_tab_separated "a,b" ["x"] "c" Hplain Htab _ _)); discriminate.
Defined.

(** X14. White space around a line, tabs included, is not of the line:
    the item of the line is the same with and without it.  So a row between
    tabs that begins or ends with an empty field is read without that
    field. *)
Theorem line_item_ignores_outer_whitespace (w1 line w2 : string) :
  whitespace_only w1 = true → whitespace_only w2 = true →
  line_item (w1 +:+ line +:+ w2) = line_item line.
Proof. intros H1 H2. by apply line_item_trim, trim_surrounded. Qed.

(** An empty first field before the fields a and b. *)
Lemma line_item_ignores_outer_whitespace_witness :
  line_item (String tab EmptyString +:+ join tab ["a"; "b"] +:+ EmptyString) =
    Some (mkParsed "a" EmptyString "b" EmptyString).
Proof.
  rewrite (line_item_ignores_outer_whitespace (String tab EmptyString) (join tab ["a"; "b"])
             EmptyString eq_refl eq_refl).
  reflexivity.
Defined.

(** *** Whole texts *)

Lemma omap_cons_None {A B} (f : A → option B) (x : A) (l : list A) :
  f x = None → omap f (x :: l) = omap f l.
Proof. intros H. cbn. by rewrite H. Qed.

Lemma split_lines_lf (text current : string) :
  split_lines (String lf text) current = current :: split_lines text EmptyString.
Proof. reflexivity. Qed.

Lemma line_item_push_cr (current : string) :
  line_item (push current cr) = line_item current.
Proof.
  apply line_item_trim. unfold push.
  rewrite <-(append_nil_l (current +:+ String cr EmptyString)).
  by rewrite (trim_surrounded EmptyString current (String cr EmptyString)).
Qed.

Lemma parseCSV_lines_from (a b : string) : ∀ current,
  omap line_item (split_lines (a +:+ String lf b) current) =
  omap line_item (split_lines a current) ++ omap line_item (split_lines b EmptyString).
Proof.
  induction a as [|c a IH]; intros current.
  - rewrite append_nil_l, split_lines_lf. cbn [split_lines omap list_omap].
    by destruct (line_item current).
  - rewrite append_cons. destruct (Ascii.eqb c lf) eqn:Hc.
    + apply Ascii.eqb_eq in Hc as ->. rewrite !split_lines_lf.
      cbn [omap list_omap]. rewrite IH. by destruct (line_item current).
    + destruct a as [|c' a'].
      * rewrite append_nil_l. cbn [split_lines]. rewrite Hc, Ascii.eqb_refl, andb_true_r.
        destruct (Ascii.eqb c cr) eqn:Hcr.
        -- apply Ascii.eqb_eq in Hcr as ->. cbn [omap list_omap].
           rewrite line_item_push_cr. by destruct (line_item current).
        -- cbn [andb omap list_omap].
           by destruct (line_item (push current c)).
      * specialize (IH (push current c)) as IH1. specialize (IH EmptyString) as IH0.
        rewrite append_cons in *. cbn [split_lines]. rewrite Hc.
        destruct (Ascii.eqb c cr && Ascii.eqb c' lf) eqn:Hcrlf.
        -- apply andb_true_iff in Hcrlf as [_ ->%Ascii.eqb_eq].
           rewrite !split_lines_lf in IH0.
           rewrite !(omap_cons_None _ EmptyString) in IH0 by reflexivity.
           cbn [omap list_omap]. rewrite IH0. by destruct (line_item current).
        -- exact IH1.
Qed.

(** X15. The lines of a text are read one by one: the items of two texts
    put together with a line feed between them are the items of the first
    followed by the items of the second. *)
Theorem parseCSV_line_by_line (a b : string) :
  parseCSV (a +:+ String lf b) = parseCSV a ++ parseCSV b.
Proof. apply parseCSV_lines_from. Qed.

Lemma whitespace_only_push (current : string) (c : ascii) :
  whitespace_only current = true → is_whitespace c = true →
  whitespace_only (push current c) = true.
Proof.
  intros Hcur Hc. unfold push. induction current as [|x current IH].
  - rewrite append_nil_l. cbn [whitespace_only]. by rewrite Hc.
  - rewrite append_cons. cbn [whitespace_only] in *.
    apply andb_true_iff in Hcur as [-> Hcur]. auto.
Qed.

Lemma line_item_whitespace_only (line : string) :
  whitespace_only line = true → line_item line = None.
Proof.
  intros Hw. unfold line_item, trim.
  by rewrite trimStart_whitespace_only.
Qed.

Lemma parseCSV_blank_from (text : string) : ∀ current,
  whitespace_only text = true → whitespace_only current = true →
  omap line_item (split_lines text current) = [].
Proof.
  induction text as [|c text IH]; intros current Htext Hcur.
  - cbn. by rewrite line_item_whitespace_only.
  - cbn [whitespace_only] in Htext. apply andb_true_iff in Htext as [Hc Htext].
    destruct (Ascii.eqb c lf) eqn:Hlf.
    + apply Ascii.eqb_eq in Hlf as ->. rewrite split_lines_lf.
      rewrite omap_cons_None by by apply line_item_whitespace_only. by apply IH.
    + cbn [split_lines]. rewrite Hlf. destruct text as [|c' text'].
      * cbn. rewrite line_item_whitespace_only; [done|]. by apply whitespace_only_push.
      * destruct (Ascii.eqb c cr && Ascii.eqb c' lf) eqn:Hcrlf.
        -- apply andb_true_iff in Hcrlf as [_ ->%Ascii.eqb_eq].
           specialize (IH EmptyString Htext eq_refl). rewrite split_lines_lf in IH.
           rewrite omap_cons_None in IH by reflexivity.
           rewrite omap_cons_None by by apply line_item_whitespace_only. done.
        -- apply IH; [done|]. by apply whitespace_only_push.
Qed.

(** X16. A text of nothing but white space, line ends included, holds no
    item. *)
Theorem parseCSV_blank (text : string) :
  whitespace_only text = true → parseCSV text = [].
Proof. intros Hw. by apply parseCSV_blank_from. Qed.

(** Blanks, a line feed, a tab, and a line end of two characters. *)
Lemma parseCSV_blank_witness :
  parseCSV (String " " (String lf (String tab (String cr (String lf EmptyString))))) = [].
Proof.
  exact (parseCSV_blank
           (String " " (String lf (String tab (String cr (String lf EmptyString)))))
           eq_refl).
Defined.

End ParserFacts.

(** ** The order of the playlist *)

Module OrderFacts.
Import Store App Examples.
Local Open Scope Z_scope.

Section ByKey.
Context {A : Type} (key : A → Z).

Let cmp (a b : A) : Z := key a - key b.

Lemma insert_sorted_Permutation (x : A) (l : list A) :
  insert_sorted cmp x l ≡ₚ x :: l.
Proof.
  induction l as [|y l IH]; [done|]. cbn.
  destruct (cmp x y <=? 0); [done|]. by rewrite IH, Permutation_swap.
Qed.

Lemma sort_Permutation (l : list A) : sort cmp l ≡ₚ l.
Proof.
  induction l as [|x l IH]; [done|]. unfold sort in *. cbn [foldr].
  by rewrite insert_sorted_Permutation, IH.
Qed.

Lemma insert_sorted_sorted (x : A) (l : list A) :
  StronglySorted (λ a b, key a ≤ key b) l →
  StronglySorted (λ a b, key a ≤ key b) (insert_sorted cmp x l).
Proof.
  induction 1 as [|y l Hl IH Hy]; cbn; [repeat constructor|].
  unfold cmp at 1. destruct (Z.leb_spec (key x - key y) 0) as [Hle|Hgt].
  - constructor; [by constructor|]. constructor; [lia|].
    eapply Forall_impl; [exact Hy|]. cbn. intros z Hz. lia.
  - constructor; [done|]. rewrite insert_sorted_Permutation.
    constructor; [lia|done].
Qed.

Lemma sort_sorted (l : list A) : StronglySorted (λ a b, key a ≤ key b) (sort cmp l).
Proof.
  induction l as [|x l IH]; [constructor|]. by apply insert_sorted_sorted.
Qed.

(** The sort is stable: items of one key stay in the order they had. *)
Lemma insert_sorted_stable (t : Z) (x : A) (l : list A) :
  filter (λ a, key a = t) (insert_sorted cmp x l) = filter (λ a, key a = t) (x :: l).
Proof.
  induction l as [|y l IH]; [done|]. cbn [insert_sorted].
  unfold cmp at 1. destruct (Z.leb_spec (key x - key y) 0) as [Hle|Hgt]; [done|].
  rewrite (filter_cons _ y), IH, !filter_cons.
  destruct (decide (key y = t)), (decide (key x = t)); try done. lia.
Qed.

Lemma sort_stable (t : Z) (l : list A) :
  filter (λ a, key a = t) (sort cmp l) = filter (λ a, key a = t) l.
Proof.
  induction l as [|x l IH]; [done|]. unfold sort in *. cbn [foldr].
  by rewrite insert_sorted_stable, !filter_cons, IH.
Qed.

End ByKey.

(** X17. In every mode but the random one the playlist holds each
    candidate once, in ascending order of [id] in the mode [id_asc] and of
    [last_studied] in any other, the items never studied first; items equal
    in that are in the order they have in [this.items].  No random number is
    drawn. *)
Theorem refreshPlaylist_sorted (random : nat → Q) (app : AppManager)
    (activeLevels : list Z) (mode : string) :
  mode ≠ "random" →
  let key := if decide (mode = "id_asc") then m_id else m_last_studied in
  let app' := refreshPlaylist random activeLevels mode app in
  playlist app' ≡ₚ candidates activeLevels app ∧
  StronglySorted (λ a b, key a ≤ key b) (playlist app') ∧
  (∀ t, filter (λ m, key m = t) (playlist app') =
        filter (λ m, key m = t) (candidates activeLevels app)) ∧
  draws app' = draws app.
Proof.
  intros Hmode key app'.
  assert (candidates activeLevels (set_filter activeLevels mode app)
          = candidates activeLevels app) as Hcand by done.
  assert (playlist app' = sort (λ a b, key a - key b) (candidates activeLevels app)
          ∧ draws app' = draws app) as [-> ->].
  { unfold app', refreshPlaylist. rewrite Hcand.
    destruct (candidates activeLevels app) as [|m l]; [done|].
    rewrite decide_False by done. unfold key.
    by destruct (decide (mode = "id_asc")). }
  split; [apply sort_Permutation|]. split; [apply sort_sorted|].
  split; [|done]. intros t. apply sort_stable.
Qed.

(** [studied_cards] by date: the item never studied, then the two studied
    at 30 in the order of their ids. *)
Lemma refreshPlaylist_sorted_witness :
  "date_asc" ≠ "random" ∧
  m_id <$> playlist (refreshPlaylist half [0] "date_asc" studied_cards) = [2; 1; 3] ∧
  StronglySorted (λ a b, m_last_studied a ≤ m_last_studied b)
    (playlist (refreshPlaylist half [0] "date_asc" studied_cards)).
Proof.
  assert ("date_asc" ≠ "random") as Hmode by discriminate.
  split; [exact Hmode|]. split; [reflexivity|].
  exact (proj1 (proj2 (refreshPlaylist_sorted half studied_cards [0] "date_asc" Hmode))).
Defined.

(** X18. When a round in random order ends and no item has one of the
    levels any more, [getNextItem] returns no item, leaves an empty playlist
    with the cursor at 1, and returns no item from then on. *)
Theorem getNextItem_round_without_candidates (random : nat → Q) (app : AppManager) :
  playlist app ≠ [] → (length (playlist app) ≤ currentIndex app)%nat →
  isRandom app = true → candidates (targetLevels app) app = [] →
  ∃ app', getNextItem random app = (None, app') ∧
    playlist app' = [] ∧ currentIndex app' = 1%nat ∧ App.items app' = App.items app ∧
    getNextItem random app' = (None, app').
Proof.
  intros Hne Hend Hrandom Hcand. unfold getNextItem at 1.
  destruct (playlist app) as [|m l] eqn:Hpl; [done|]. clear Hne.
  rewrite (proj2 (Nat.leb_le _ _) Hend). cbn [isRandom set_currentIndex].
  rewrite Hrandom.
  change (targetLevels (set_currentIndex 0 app)) with (targetLevels app).
  change (sortMode (set_currentIndex 0 app)) with (sortMode app).
  assert (refreshPlaylist random (targetLevels app) (sortMode app) (set_currentIndex 0 app)
          = set_playlist [] (set_filter (targetLevels app) (sortMode app)
                                        (set_currentIndex 0 app))) as ->.
  { unfold refreshPlaylist.
    change (candidates (targetLevels app) (set_filter _ _ _))
      with (candidates (targetLevels app) app).
    by rewrite Hcand. }
  eexists. split; [reflexivity|]. done.
Qed.

(** [graded_out]: its one item is of level 2 now, the round was over level 0. *)
Lemma getNextItem_round_without_candidates_witness :
  ∃ app', getNextItem half graded_out = (None, app') ∧ playlist app' = [] ∧
    currentIndex app' = 1%nat.
Proof.
  destruct (getNextItem_round_without_candidates half graded_out)
    as (app' & Hnext & Hpl & Hcur & _); [discriminate|cbn; lia|reflexivity|reflexivity|].
  exists app'. split; [exact Hnext|]. split; [exact Hpl|exact Hcur].
Defined.

(** X19. [refreshPlaylist] records the levels and the mode and leaves
    the items alone in every case.  With no item of these levels it leaves an
    empty playlist and nothing else: the cursor, the flag [isRandom] and the
    random numbers drawn are as they were.  With such items the playlist has
    one entry for each of them, the cursor is 0, and [isRandom] tells whether
    the mode is the random one. *)
Theorem refreshPlaylist_cursor (random : nat → Q) (app : AppManager)
    (activeLevels : list Z) (mode : string) :
  targetLevels (refreshPlaylist random activeLevels mode app) = activeLevels ∧
  sortMode (refreshPlaylist random activeLevels mode app) = mode ∧
  App.items (refreshPlaylist random activeLevels mode app) = App.items app ∧
  (candidates activeLevels app = [] →
     playlist (refreshPlaylist random activeLevels mode app) = [] ∧
     currentIndex (refreshPlaylist random activeLevels mode app) = currentIndex app ∧
     isRandom (refreshPlaylist random activeLevels mode app) = isRandom app ∧
     draws (refreshPlaylist random activeLevels mode app) = draws app) ∧
  (candidates activeLevels app ≠ [] →
     playlist (refreshPlaylist random activeLevels mode app) ≡ₚ candidates activeLevels app ∧
     currentIndex (refreshPlaylist random activeLevels mode app) = 0%nat ∧
     isRandom (refreshPlaylist random activeLevels mode app) = bool_decide (mode = "random")).
Proof.
  unfold refreshPlaylist.
  change (candidates activeLevels (set_filter activeLevels mode app))
    with (candidates activeLevels app).
  destruct (candidates activeLevels app) as [|c cs] eqn:Hc.
  - split; [done|]. split; [done|]. split; [done|]. split; [done|]. by intros [].
  - destruct (decide (mode = "random")) as [Hmode|Hmode].
    + rewrite (bool_decide_eq_true_2 _ Hmode).
      pose proof (PlaylistFacts.shuffle_Permutation random
                    (draws (set_filter activeLevels mode app)) (c :: cs)) as Hperm.
      destruct (shuffle random _ (c :: cs)) as [array n].
      split; [done|]. split; [done|]. split; [done|]. split; [done|]. intros _. done.
    + rewrite (bool_decide_eq_false_2 _ Hmode).
      destruct (decide (mode = "id_asc")).
      * split; [done|]. split; [done|]. split; [done|]. split; [done|]. intros _.
        split; [|done]. apply (sort_Permutation m_id).
      * split; [done|]. split; [done|]. split; [done|]. split; [done|]. intros _.
        split; [|done]. apply (sort_Permutation m_last_studied).
Qed.

End OrderFacts.

(** ** The session *)

Module ManagerFacts.
Import App Manager Store StoreFacts ListingFacts OrderFacts Examples.
Local Open Scope Z_scope.

(** *** The name of the database *)

Lemma replace_page_without_slash (s : string) :
  Csv.includes slash s = false → replace_page s = None.
Proof.
  induction s as [|c s IH]; [done|]. cbn [Csv.includes replace_page].
  intros [Hc Hs]%orb_false_iff. by rewrite IH, Hc.
Qed.

Lemma replace_page_match (dir file : string) :
  Csv.includes slash file = false → ends_html file = true →
  replace_page (dir +:+ String slash file) = Some dir.
Proof.
  intros Hfile Hhtml. induction dir as [|c dir IH].
  - rewrite ParserFacts.append_nil_l. cbn [replace_page].
    by rewrite replace_page_without_slash, Hfile, Hhtml.
  - rewrite ParserFacts.append_cons. cbn [replace_page]. by rewrite IH.
Qed.

Lemma replace_page_folder (dir : string) :
  replace_page (dir +:+ String slash EmptyString) = None.
Proof.
  induction dir as [|c dir IH]; [done|].
  rewrite ParserFacts.append_cons. cbn [replace_page]. rewrite IH.
  rewrite ParserFacts.includes_append. cbn [Csv.includes].
  rewrite Ascii.eqb_refl, orb_true_r. by rewrite andb_false_r.
Qed.

Lemma chop_slash_folder (dir : string) :
  chop_slash (dir +:+ String slash EmptyString) = dir.
Proof.
  induction dir as [|c dir IH]; [done|].
  rewrite ParserFacts.append_cons.
  destruct (dir +:+ String slash EmptyString) as [|c' rest] eqn:E; [by destruct dir|].
  change (chop_slash (String c (String c' rest))) with (String c (chop_slash (String c' rest))).
  by rewrite IH.
Qed.

Lemma lower_slash (c : ascii) : Ascii.eqb (lower c) slash = Ascii.eqb c slash.
Proof. by destruct c as [[] [] [] [] [] [] [] []]. Qed.

Lemma includes_lower_string (s : string) :
  Csv.includes slash (lower_string s) = Csv.includes slash s.
Proof.
  induction s as [|c s IH]; [done|]. cbn [lower_string Csv.includes].
  by rewrite lower_slash, IH.
Qed.

Lemma extension_without_slash (ext : string) :
  is_extension ext = true → Csv.includes slash ext = false.
Proof.
  unfold is_extension. rewrite <-includes_lower_string.
  intros [H|H]%orb_true_iff; apply bool_decide_eq_true in H; by rewrite H.
Qed.

Lemma ends_html_page (stem ext : string) :
  stem ≠ EmptyString → is_extension ext = true → ends_html (stem +:+ ext) = true.
Proof.
  intros Hstem Hext. induction stem as [|c stem IH]; [done|].
  rewrite ParserFacts.append_cons. cbn [ends_html].
  destruct stem as [|c' stem'].
  - by rewrite ParserFacts.append_nil_l, Hext.
  - rewrite IH by done. apply orb_true_r.
Qed.

Lemma pathSuffix_characters (s : string) (c : ascii) :
  Csv.includes c (pathSuffix s) = true → alphanumeric c = true ∨ c = "_"%char.
Proof.
  induction s as [|x s IH]; [done|]. cbn [pathSuffix Csv.includes].
  intros [Hx|Hs]%orb_true_iff; [|auto].
  apply Ascii.eqb_eq in Hx as <-. destruct (alphanumeric x) eqn:E; auto.
Qed.

(** X20. The pages of one folder share a database: for a page, that is a
    name of one character at least without slash followed by [.htm] or
    [.html] in any case, the name is made from the folder alone, a slash at
    its end taken off; for the address of the folder itself, from the text
    before its last slash.  What follows the prefix holds letters, digits
    and underscores only. *)
Theorem dbName_of_folder (dir stem ext : string) :
  stem ≠ EmptyString → Csv.includes slash stem = false → is_extension ext = true →
  dbName (dir +:+ String slash (stem +:+ ext)) =
    "MemorizationAppDB_v2_" +:+ pathSuffix (chop_slash dir) ∧
  dbName (dir +:+ String slash EmptyString) = "MemorizationAppDB_v2_" +:+ pathSuffix dir ∧
  ∀ c, Csv.includes c (pathSuffix (chop_slash dir)) = true →
       alphanumeric c = true ∨ c = "_"%char.
Proof.
  intros Hstem Hslash Hext. unfold dbName. split; [|split].
  - rewrite replace_page_match; [done| |by apply ends_html_page].
    rewrite ParserFacts.includes_append, Hslash. by apply extension_without_slash.
  - rewrite replace_page_folder. cbn [default from_option id].
    by rewrite chop_slash_folder.
  - apply pathSuffix_characters.
Qed.

(** The example of the constructor, the extension in capitals. *)
Lemma dbName_of_folder_witness :
  dbName ("/my_folder/app" +:+ String slash ("index" +:+ ".HTML")) =
    "MemorizationAppDB_v2__my_folder_app".
Proof.
  refine (proj1 (dbName_of_folder "/my_folder/app" "index" ".HTML" _ eq_refl eq_refl)).
  discriminate.
Defined.

(** *** Selecting *)

Lemma selectSubject_db id app : db (selectSubject id app) = db app.
Proof.
  unfold selectSubject. destruct (list_find _ _) as [[i s]|]; [|done].
  unfold loadData. by destruct (currentSubject _).
Qed.

Lemma selectSubject_subjects id app : App.subjects (selectSubject id app) = App.subjects app.
Proof.
  unfold selectSubject. destruct (list_find _ _) as [[i s]|]; [|done].
  unfold loadData. by destruct (currentSubject _).
Qed.

(** Selecting a subject the loaded list has makes it the current one and
    loads its items. *)
Lemma selectSubject_stored id row app :
  App.subjects app = getSubjects (db app) → subjects (db app) !! id = Some row →
  currentSubject (selectSubject id app) = Some (id, row) ∧
  App.items (selectSubject id app) = getAllItemsWithProgress id (db app).
Proof.
  intros Hloaded Hrow. unfold selectSubject. rewrite Hloaded.
  destruct (list_find_getSubjects _ _ _ Hrow) as [i Hfind].
  unfold getSubjects. by rewrite Hfind.
Qed.

(** On a database whose keys were issued [createSubject] resolves with the
    subject added, loaded and selected. *)
Lemma createSubject_selects nm now app :
  generators_ahead (db app) →
  ∃ app', Manager.createSubject nm now app = (Resolved (subjects_key (db app)), app') ∧
    db app' = mkDB (<[subjects_key (db app) := mkSubject nm defaultSettings now]>
                      (subjects (db app)))
                   (subjects_key (db app) + 1) (items (db app)) (items_key (db app))
                   (progress (db app)) ∧
    App.subjects app' = getSubjects (db app') ∧
    currentSubject app' = Some (subjects_key (db app), mkSubject nm defaultSettings now) ∧
    App.items app' = getAllItemsWithProgress (subjects_key (db app)) (db app').
Proof.
  intros Hg. destruct (createSubject_fresh nm defaultSettings now (db app) Hg) as [_ Hc].
  unfold Manager.createSubject. rewrite Hc. eexists. split; [reflexivity|].
  rewrite selectSubject_db, selectSubject_subjects. split; [done|]. split; [done|].
  apply selectSubject_stored; [done|]. cbn. apply lookup_insert_eq.
Qed.

(** *** The clean-up at the start *)

Lemma deleteSubject_empty id db :
  getAllItemsWithProgress id db = [] →
  (Store.deleteSubject id db).2 = set_subjects (delete id) db.
Proof.
  intros Hempty. apply fmap_nil_inv in Hempty.
  change (Store.deleteSubject id db).2
    with (foldl delete_item_and_progress (set_subjects (delete id) db)
            (index_getAllKeys id (items db))).
  unfold index_getAllKeys. by rewrite Hempty.
Qed.

Lemma foldl_delete_if_empty (l : list (Z * SubjectRow)) : ∀ db,
  items (foldl delete_if_empty db l) = items db ∧
  progress (foldl delete_if_empty db l) = progress db ∧
  subjects_key (foldl delete_if_empty db l) = subjects_key db ∧
  items_key (foldl delete_if_empty db l) = items_key db ∧
  ∀ k, subjects (foldl delete_if_empty db l) !! k =
    match getAllItemsWithProgress k db with
    | [] => if decide (k ∈ l.*1) then None else subjects db !! k
    | _ => subjects db !! k
    end.
Proof.
  induction l as [|s l IH]; intros db; cbn [foldl].
  - repeat (split; [done|]). intros k.
    destruct (getAllItemsWithProgress k db); [|done].
    destruct (decide (k ∈ [])) as [H|_]; [by apply elem_of_nil in H|done].
  - assert (items (delete_if_empty db s) = items db ∧
            progress (delete_if_empty db s) = progress db ∧
            subjects_key (delete_if_empty db s) = subjects_key db ∧
            items_key (delete_if_empty db s) = items_key db ∧
            ∀ k, subjects (delete_if_empty db s) !! k =
              match getAllItemsWithProgress k db with
              | [] => if decide (k = s.1) then None else subjects db !! k
              | _ => subjects db !! k
              end) as (Hi & Hp & Hsk & Hik & Hs).
    { unfold delete_if_empty.
      destruct (getAllItemsWithProgress s.1 db) as [|m ms] eqn:E.
      - rewrite deleteSubject_empty by done. repeat (split; [done|]). intros k. cbn.
        destruct (decide (k = s.1)) as [->|Hne].
        + by rewrite E, lookup_delete_eq.
        + rewrite lookup_delete_ne by done. by destruct (getAllItemsWithProgress k db).
      - repeat (split; [done|]). intros k.
        destruct (getAllItemsWithProgress k db) eqn:E'; [|done].
        destruct (decide (k = s.1)) as [->|Hne]; [congruence|done]. }
    destruct (IH (delete_if_empty db s)) as (Hi' & Hp' & Hsk' & Hik' & Hs').
    split; [congruence|]. split; [congruence|]. split; [congruence|].
    split; [congruence|]. intros k. rewrite Hs', Hs.
    assert (getAllItemsWithProgress k (delete_if_empty db s) = getAllItemsWithProgress k db)
      as -> by (unfold getAllItemsWithProgress; by rewrite Hi, Hp).
    destruct (getAllItemsWithProgress k db); [|done]. cbn [fmap list_fmap].
    destruct (decide (k ∈ l.*1)) as [Hin|Hnin];
      destruct (decide (k = s.1)) as [Heq|Hne];
      destruct (decide (k ∈ s.1 :: l.*1)) as [Hin'|Hnin']; try done.
    + exfalso. apply Hnin'. by right.
    + exfalso. apply Hnin'. by right.
    + exfalso. apply Hnin'. rewrite Heq. by left.
    + by apply elem_of_cons in Hin' as [?|?].
Qed.

Lemma elem_of_generals (m : gmap Z SubjectRow) k row :
  (k, row) ∈ filter (λ s : Z * SubjectRow, name s.2 = "General") (os_getAll m) ↔
  m !! k = Some row ∧ name row = "General".
Proof. rewrite list_elem_of_filter, elem_of_os_getAll. cbn. tauto. Qed.

(** What the clean-up leaves of the database: the subjects but the empty
    ones named General that have an older one of that name. *)
Lemma cleanup_db app :
  App.subjects app = getSubjects (db app) →
  items (db (cleanup app)) = items (db app) ∧
  progress (db (cleanup app)) = progress (db app) ∧
  subjects_key (db (cleanup app)) = subjects_key (db app) ∧
  items_key (db (cleanup app)) = items_key (db app) ∧
  App.subjects (cleanup app) = getSubjects (db (cleanup app)) ∧
  (∀ k row, subjects (db (cleanup app)) !! k = Some row →
            subjects (db app) !! k = Some row) ∧
  (∀ k row, subjects (db app) !! k = Some row →
     (subjects (db (cleanup app)) !! k = None ↔
      name row = "General" ∧ getAllItemsWithProgress k (db app) = [] ∧
      ∃ k' row', k' < k ∧ subjects (db app) !! k' = Some row' ∧ name row' = "General")).
Proof.
  intros Hloaded.
  set (gs := filter (λ s : Z * SubjectRow, name s.2 = "General")
               (os_getAll (subjects (db app)))).
  assert (cleanup app =
          if (1 <? length gs)%nat
          then loadSubjects
                 (set_db (foldl delete_if_empty (db app) (tail (sort by_subject_id gs))) app)
          else app) as ->.
  { unfold cleanup. by rewrite Hloaded. }
  assert (NoDup gs.*1) as Hnd by apply NoDup_keys_filter, os_getAll_keys_NoDup.
  destruct (1 <? length gs)%nat eqn:Hlen.
  - pose proof (sort_Permutation fst gs) as Hperm.
    pose proof (sort_sorted fst gs) as Hsorted.
    change (sort (λ a b : Z * SubjectRow, a.1 - b.1) gs)
      with (sort by_subject_id gs) in Hperm, Hsorted.
    destruct (sort by_subject_id gs) as [|h t] eqn:Hsort.
    { apply Permutation_nil_l in Hperm. rewrite <-Hperm in Hlen. done. }
    rewrite <-Hperm in Hnd. cbn [fmap list_fmap] in Hnd.
    apply NoDup_cons in Hnd as [Hh Hnd].
    apply StronglySorted_inv in Hsorted as [_ Hmin].
    assert (h ∈ gs) as Hhgs by (rewrite <-Hperm; by left).
    destruct h as [hk hrow]. apply elem_of_generals in Hhgs as [Hhdb Hhname].
    assert (∀ k, k ∈ t.*1 ↔
              ∃ row, subjects (db app) !! k = Some row ∧ name row = "General" ∧
                ∃ k' row', k' < k ∧ subjects (db app) !! k' = Some row' ∧
                           name row' = "General") as Htail.
    { intros k. split.
      - intros ([k0 row] & -> & Hin)%list_elem_of_fmap. cbn.
        assert ((k0, row) ∈ gs) as [Hdb Hname]%elem_of_generals
          by (rewrite <-Hperm; by right).
        exists row. split; [done|]. split; [done|]. exists hk, hrow.
        split; [|done]. apply (proj1 (Forall_forall _ _) Hmin) in Hin as Hle. cbn in Hle.
        assert (hk ≠ k0); [|lia]. intros ->. apply Hh.
        apply list_elem_of_fmap. by exists (k0, row).
      - intros (row & Hdb & Hname & k' & row' & Hlt & Hdb' & Hname').
        assert ((k, row) ∈ (hk, hrow) :: t) as Hin
          by (rewrite Hperm; by apply elem_of_generals).
        assert ((k', row') ∈ (hk, hrow) :: t) as Hin'
          by (rewrite Hperm; by apply elem_of_generals).
        apply elem_of_cons in Hin as [[= -> ->]|Hin].
        + exfalso. apply elem_of_cons in Hin' as [[= -> ->]|Hin']; [lia|].
          apply (proj1 (Forall_forall _ _) Hmin) in Hin'. cbn in Hin'. lia.
        + apply list_elem_of_fmap. by exists (k, row). }
    cbn [tail db set_db loadSubjects App.set_subjects App.subjects].
    destruct (foldl_delete_if_empty t (db app)) as (Hi & Hp & Hsk & Hik & Hs).
    repeat (split; [done|]). split.
    + intros k row. rewrite Hs.
      destruct (getAllItemsWithProgress k (db app)); [|done]. by destruct (decide _).
    + intros k row Hrow. rewrite Hs, Hrow. split.
      * destruct (getAllItemsWithProgress k (db app)); [|done].
        destruct (decide (k ∈ t.*1)) as [Hin|]; [|done]. intros _.
        apply Htail in Hin as (row0 & Hrow0 & Hname & Holder).
        assert (row0 = row) as -> by congruence. done.
      * intros (Hname & -> & Holder). rewrite decide_True; [done|].
        apply Htail. eauto.
  - repeat (split; [done|]). intros k row Hrow. rewrite Hrow. split; [done|].
    intros (Hname & _ & k' & row' & Hlt & Hrow' & Hname'). exfalso.
    assert ((k, row) ∈ gs) as Hin by by apply elem_of_generals.
    assert ((k', row') ∈ gs) as Hin' by by apply elem_of_generals.
    destruct gs as [|x [|y gs']]; [by apply elem_of_nil in Hin| |done].
    apply list_elem_of_singleton in Hin, Hin'. subst x. injection Hin' as -> _. lia.
Qed.

Lemma cleanup_keeps_keys app :
  App.subjects app = getSubjects (db app) →
  generators_ahead (db app) → generators_ahead (db (cleanup app)).
Proof.
  intros Hloaded [Hs Hi].
  destruct (cleanup_db app Hloaded) as (Hitems & _ & Hsk & Hik & _ & Hsub & _).
  split.
  - rewrite Hsk. intros k row Hrow%Hsub. by apply Hs in Hrow.
  - by rewrite Hitems, Hik.
Qed.

Lemma getSubjects_nil (d : DB) : getSubjects d = [] → subjects d = ∅.
Proof.
  intros Hnil. apply map_empty. intros k.
  destruct (subjects d !! k) as [row|] eqn:E; [|done].
  apply elem_of_os_getAll in E. unfold getSubjects in Hnil. rewrite Hnil in E.
  by apply elem_of_nil in E.
Qed.

Lemma getSubjects_head (d : DB) first rest :
  getSubjects d = first :: rest →
  subjects d !! first.1 = Some first.2 ∧
  ∀ k row, subjects d !! k = Some row → first.1 ≤ k.
Proof.
  intros Hlist. pose proof (os_getAll_sorted (subjects d)) as Hsorted.
  fold (getSubjects d) in Hsorted. rewrite Hlist in Hsorted.
  apply StronglySorted_inv in Hsorted as [_ Hmin]. split.
  - apply elem_of_os_getAll. fold (getSubjects d). rewrite Hlist.
    destruct first. by left.
  - intros k row Hrow%elem_of_os_getAll. fold (getSubjects d) in Hrow.
    rewrite Hlist in Hrow. apply elem_of_cons in Hrow as [<-|Hin]; [done|].
    by apply (proj1 (Forall_forall _ _) Hmin) in Hin.
Qed.

Lemma createSubject_keeps_items nm now app :
  items (db (Manager.createSubject nm now app).2) = items (db app) ∧
  progress (db (Manager.createSubject nm now app).2) = progress (db app).
Proof.
  unfold Manager.createSubject, Store.createSubject, transaction, os_add.
  destruct (subjects (db app) !! subjects_key (db app)); [done|].
  cbn [snd]. by rewrite selectSubject_db.
Qed.

(** The subject of the smallest id has no older one. *)
Lemma oldest_subject_stays (d : DB) :
  subjects d ≠ ∅ →
  ∃ k row, subjects d !! k = Some row ∧
    ¬ ∃ k' (row' : SubjectRow), k' < k ∧ subjects d !! k' = Some row' ∧ name row' = "General".
Proof.
  intros Hne. destruct (getSubjects d) as [|first rest] eqn:Hlist.
  - by apply getSubjects_nil in Hlist.
  - destruct (getSubjects_head d first rest Hlist) as [Hfirst Hmin].
    exists first.1, first.2. split; [done|].
    intros (k' & row' & Hlt & Hrow' & _). apply Hmin in Hrow'. lia.
Qed.

(** X21. The start deletes the empty duplicates of the subject named
    General and nothing else: a subject there was is gone afterwards exactly
    when its name is General, it has no item, and an older subject of that
    name exists; every other subject is as it was, and no item and no
    progress row is touched. *)
Theorem init_deletes_empty_duplicates (lastId : option Z) (now : Z) (app : AppManager) :
  items (db (Manager.init lastId now app).2) = items (db app) ∧
  progress (db (Manager.init lastId now app).2) = progress (db app) ∧
  ∀ k row, subjects (db app) !! k = Some row →
    (subjects (db (Manager.init lastId now app).2) !! k = Some row ∨
     subjects (db (Manager.init lastId now app).2) !! k = None) ∧
    (subjects (db (Manager.init lastId now app).2) !! k = None ↔
       name row = "General" ∧ getAllItemsWithProgress k (db app) = [] ∧
       ∃ k' row', k' < k ∧ subjects (db app) !! k' = Some row' ∧ name row' = "General").
Proof.
  destruct (cleanup_db (loadSubjects app) eq_refl)
    as (Hitems & Hprog & _ & _ & Hloaded & Hsub & Hiff).
  change (db (loadSubjects app)) with (db app) in *.
  set (app1 := cleanup (loadSubjects app)) in *.
  assert (∀ k row, subjects (db app) !! k = Some row →
            (subjects (db app1) !! k = Some row ∨ subjects (db app1) !! k = None)) as Hkeep.
  { intros k row Hrow. destruct (subjects (db app1) !! k) as [row1|] eqn:E; [|by right].
    left. apply Hsub in E. congruence. }
  assert (db (Manager.init lastId now app).2 = db app1 ∨
          (subjects (db app) = ∅ ∧
           items (db (Manager.init lastId now app).2) = items (db app1) ∧
           progress (db (Manager.init lastId now app).2) = progress (db app1)))
    as [->|(Hempty & -> & ->)].
  { unfold Manager.init. fold app1. rewrite Hloaded.
    destruct (getSubjects (db app1)) as [|first rest] eqn:Hlist.
    - right. apply getSubjects_nil in Hlist.
      split.
      + destruct (decide (subjects (db app) = ∅)) as [|Hne]; [done|]. exfalso.
        destruct (oldest_subject_stays _ Hne) as (k & row & Hrow & Holdest).
        apply Holdest. apply (Hiff k row Hrow). by rewrite Hlist.
      + destruct (createSubject_keeps_items "General" now app1) as [Hi Hp].
        by destruct (Manager.createSubject "General" now app1) as [[id|e] app'].
    - left. destruct lastId as [id|]; [|apply selectSubject_db].
      destruct (list_find _ _) as [[i found]|]; apply selectSubject_db. }
  - split; [done|]. split; [done|]. intros k row Hrow. split; [by apply Hkeep|].
    by apply Hiff.
  - split; [done|]. split; [done|]. intros k row Hrow. by rewrite Hempty in Hrow.
Qed.

(** X22. On a database whose keys were issued the start resolves with a
    subject selected: a subject of the store, with the subjects and its items
    loaded.  It is the one of the last session when that still exists, and
    the one of the smallest id otherwise; with no subject at all, one named
    General is made and selected. *)
Theorem init_selects (lastId : option Z) (now : Z) (app : AppManager) :
  generators_ahead (db app) →
  ∃ app' s, Manager.init lastId now app = (Resolved tt, app') ∧
    currentSubject app' = Some s ∧
    subjects (db app') !! s.1 = Some s.2 ∧
    App.subjects app' = getSubjects (db app') ∧
    App.items app' = getAllItemsWithProgress s.1 (db app') ∧
    (∀ id row, lastId = Some id → subjects (db app') !! id = Some row → s = (id, row)) ∧
    ((∀ id, lastId = Some id → subjects (db app') !! id = None) →
     ∀ k row, subjects (db app') !! k = Some row → s.1 ≤ k) ∧
    (subjects (db app) = ∅ → name s.2 = "General").
Proof.
  intros Hg.
  destruct (cleanup_db (loadSubjects app) eq_refl)
    as (_ & _ & _ & _ & Hloaded & Hsub & _).
  pose proof (cleanup_keeps_keys (loadSubjects app) eq_refl Hg) as Hg1.
  change (db (loadSubjects app)) with (db app) in *.
  unfold Manager.init. set (app1 := cleanup (loadSubjects app)) in *.
  assert (∀ id row, subjects (db app1) !! id = Some row →
    ∃ app', selectSubject id app1 = app' ∧ db app' = db app1 ∧
      currentSubject app' = Some (id, row) ∧ App.subjects app' = getSubjects (db app') ∧
      App.items app' = getAllItemsWithProgress id (db app')) as Hselect.
  { intros id row Hrow. eexists. split; [reflexivity|].
    rewrite selectSubject_db, selectSubject_subjects. split; [done|].
    destruct (selectSubject_stored id row app1 Hloaded Hrow) as [Hcur Hitems]. done. }
  rewrite Hloaded. clear Hloaded.
  destruct (getSubjects (db app1)) as [|first rest] eqn:Hlist.
  - apply getSubjects_nil in Hlist.
    destruct (createSubject_selects "General" now app1 Hg1)
      as (app' & -> & Hdb & Hsubs & Hcur & Hitems).
    exists app', (subjects_key (db app1), mkSubject "General" defaultSettings now).
    split; [done|]. split; [done|]. rewrite Hdb in *. cbn [subjects fst snd] in *.
    rewrite Hlist in Hsubs, Hitems |- *.
    split; [apply lookup_insert_eq|]. split; [done|]. split; [done|].
    split; [|split; [|done]].
    + intros id row _ [[<- <-]|[_ H]]%lookup_insert_Some; [done|].
      by rewrite lookup_empty in H.
    + intros _ k row [[<- _]|[_ H]]%lookup_insert_Some; [done|].
      by rewrite lookup_empty in H.
  - destruct (getSubjects_head (db app1) first rest Hlist) as [Hfirst Hmin].
    assert (subjects (db app) ≠ ∅) as Hne.
    { intros Hempty. apply Hsub in Hfirst. by rewrite Hempty in Hfirst. }
    destruct (Hselect _ _ Hfirst) as (app0 & Happ0 & Hdb0 & Hcur0 & Hsubs0 & Hitems0).
    destruct lastId as [id|].
    + destruct (list_find (λ s : Z * SubjectRow, s.1 = id) (first :: rest))
        as [[i [fk frow]]|] eqn:Hfind.
      * apply list_find_Some in Hfind as (Hin & Hid & _). cbn in Hid. subst fk.
        apply list_elem_of_lookup_2 in Hin. rewrite <-Hlist in Hin.
        apply elem_of_os_getAll in Hin. cbn [fst].
        destruct (Hselect _ _ Hin) as (app' & -> & Hdb & Hcur & Hsubs & Hitems).
        exists app', (id, frow). cbn [fst snd]. rewrite Hdb in *.
        repeat (split; [done|]). split; [|split; [|by intros Hempty; destruct Hne]].
        -- intros ? row [= <-] Hrow. congruence.
        -- intros Hgone. specialize (Hgone id eq_refl). congruence.
      * apply list_find_None in Hfind.
        exists app0, (first.1, first.2). rewrite Happ0. cbn [fst snd]. rewrite Hdb0 in *.
        repeat (split; [done|]). split; [|split; [|by intros Hempty; destruct Hne]].
        -- intros ? row [= <-] Hrow. exfalso.
           apply elem_of_os_getAll in Hrow. fold (getSubjects (db app1)) in Hrow.
           rewrite Hlist in Hrow.
           by apply (proj1 (Forall_forall _ _) Hfind) in Hrow.
        -- intros _. exact Hmin.
    + exists app0, (first.1, first.2). rewrite Happ0. cbn [fst snd]. rewrite Hdb0 in *.
      repeat (split; [done|]). intros Hempty. by destruct Hne.
Qed.

(** The last session was on the empty duplicate. *)
Lemma init_selects_witness :
  generators_ahead (db duplicate_generals) ∧
  ∃ app' s, Manager.init (Some 2) 0 duplicate_generals = (Resolved tt, app') ∧
    currentSubject app' = Some s ∧ subjects (db app') !! s.1 = Some s.2 ∧
    subjects (db app') !! 2 = None.
Proof.
  assert (generators_ahead (db duplicate_generals)) as Hg by keys_by_evaluation.
  split; [exact Hg|].
  destruct (init_selects (Some 2) 0 duplicate_generals Hg)
    as (app' & s & Hinit & Hcur & Hstored & _).
  exists app', s. split; [exact Hinit|]. split; [exact Hcur|]. split; [exact Hstored|].
  apply (f_equal snd) in Hinit. cbn [snd] in Hinit. rewrite <-Hinit.
  vm_compute. reflexivity.
Defined.

(** *** Leaving a subject *)

(** X23. A deletion that was not confirmed changes nothing.  A confirmed
    one, on a database whose keys were issued and with the current subject,
    if any, one of the store: resolves, the subject is gone, the subjects
    are loaded, and the current subject afterwards is again one of the
    store and not the deleted one.  With another subject current, or none,
    the session stays where it is and the store is what [deleteSubject] of
    the store leaves.  When the deleted subject was the current one the
    session moves, its items loaded, to the subject of the smallest id the
    store has left, the store being what [deleteSubject] leaves; and when
    that leaves no subject, to a new one named General. *)
Theorem deleteSubject_moves_on (id now : Z) (app : AppManager) :
  generators_ahead (db app) →
  (∀ s, currentSubject app = Some s → subjects (db app) !! s.1 = Some s.2) →
  Manager.deleteSubject false id now app = (Resolved false, app) ∧
  ∃ app', Manager.deleteSubject true id now app = (Resolved true, app') ∧
    subjects (db app') !! id = None ∧
    App.subjects app' = getSubjects (db app') ∧
    (∀ s, currentSubject app' = Some s →
       s.1 ≠ id ∧ subjects (db app') !! s.1 = Some s.2) ∧
    (is_Some (currentSubject app) ↔ is_Some (currentSubject app')) ∧
    (∀ s, currentSubject app = Some s → s.1 ≠ id → currentSubject app' = Some s) ∧
    ((∀ s, currentSubject app = Some s → s.1 ≠ id) →
       db app' = (Store.deleteSubject id (db app)).2 ∧
       currentSubject app' = currentSubject app ∧ App.items app' = App.items app) ∧
    (∀ s, currentSubject app = Some s → s.1 = id →
       ∃ s', currentSubject app' = Some s' ∧
         App.items app' = getAllItemsWithProgress s'.1 (db app') ∧
         (∀ k row, subjects (db app') !! k = Some row → s'.1 ≤ k) ∧
         (subjects (Store.deleteSubject id (db app)).2 ≠ ∅ →
            db app' = (Store.deleteSubject id (db app)).2) ∧
         (subjects (Store.deleteSubject id (db app)).2 = ∅ →
            s' = (subjects_key (db app), mkSubject "General" defaultSettings now) ∧
            subjects (db app') = {[ s'.1 := s'.2 ]})).
Proof.
  intros Hg Hcur. split; [done|]. unfold Manager.deleteSubject.
  assert (∃ db1, Store.deleteSubject id (db app) = (Resolved tt, db1) ∧
                 subjects db1 = delete id (subjects (db app)) ∧
                 subjects_key db1 = subjects_key (db app)) as (db1 & Hdel & Hsubjects & Hkey).
  { eexists. split; [reflexivity|].
    by destruct (foldl_delete_subjects (set_subjects (delete id) (db app))
                   (index_getAllKeys id (items (set_subjects (delete id) (db app)))))
      as (-> & -> & _). }
  rewrite Hdel. cbn [snd].
  assert (subjects db1 !! id = None) as Hgone by (rewrite Hsubjects; apply lookup_delete_eq).
  assert (∀ k, k ≠ id → subjects db1 !! k = subjects (db app) !! k) as Hothers.
  { intros k Hk. rewrite Hsubjects. by apply lookup_delete_ne. }
  assert (generators_ahead db1) as Hg1.
  { pose proof (call_keeps_keys (DeleteSubject id) (db app) Hg) as [H _].
    cbn [call] in H. by rewrite Hdel in H. }
  set (app1 := loadSubjects (set_db db1 app)).
  assert (App.subjects app1 = getSubjects (db app1)) as Hloaded by done.
  change (currentSubject app1) with (currentSubject app).
  destruct (currentSubject app) as [[ck crow]|] eqn:Hc; cbn [fst].
  - specialize (Hcur _ eq_refl). cbn in Hcur.
    destruct (decide (ck = id)) as [->|Hne].
    + rewrite Hloaded. change (db app1) with db1.
      destruct (getSubjects db1) as [|first rest] eqn:Hlist.
      * apply getSubjects_nil in Hlist.
        destruct (createSubject_selects "General" now app1 Hg1)
          as (app' & -> & Hdb & Hsubs & Hcur' & Hitems').
        change (db app1) with db1 in *.
        exists app'. split; [done|]. rewrite Hitems', Hdb. cbn [subjects].
        assert (id < subjects_key (db app)) as Hlt by by apply (proj1 Hg) in Hcur.
        rewrite Hlist, Hkey. split; [rewrite lookup_insert_ne by lia; done|].
        split; [by rewrite Hsubs, Hdb, Hlist, Hkey|]. rewrite Hcur'.
        split; [|split; [|split; [|split]]].
        -- intros s [= <-]. cbn [fst snd]. rewrite Hkey. split; [lia|].
           apply lookup_insert_eq.
        -- split; eauto.
        -- intros s [= <-] Hs. by destruct Hs.
        -- intros Hs. by destruct (Hs _ eq_refl).
        -- intros s _ _. eexists. split; [reflexivity|]. cbn [fst snd]. rewrite Hkey.
           split; [done|]. split; [|split; [done|]].
           ++ intros k row [[<- _]|[_ H]]%lookup_insert_Some; [done|].
              by rewrite lookup_empty in H.
           ++ intros _. split; [done|]. by rewrite insert_empty.
      * destruct (getSubjects_head db1 first rest Hlist) as [Hfirst Hmin].
        destruct (selectSubject_stored first.1 first.2 app1 Hloaded Hfirst)
          as [Hsel Hitems'].
        eexists. split; [reflexivity|].
        rewrite selectSubject_db, selectSubject_subjects, Hsel, Hitems'.
        change (db app1) with db1. split; [done|]. split; [done|].
        split; [|split; [|split; [|split]]].
        -- intros s [= <-]. cbn [fst snd]. split; [|done]. intros Heq.
           rewrite Heq in Hfirst. congruence.
        -- split; eauto.
        -- intros s [= <-] Hs. by destruct Hs.
        -- intros Hs. by destruct (Hs _ eq_refl).
        -- intros s _ _. eexists. split; [reflexivity|]. cbn [fst snd].
           split; [done|]. split; [done|]. split; [done|].
           intros Hempty. by rewrite Hempty in Hfirst.
    + exists app1. split; [done|]. change (db app1) with db1.
      change (currentSubject app1) with (currentSubject app). rewrite Hc.
      split; [done|]. split; [done|]. split; [|split; [|split; [|split]]].
      * intros s [= <-]. cbn [fst snd]. split; [done|]. by rewrite Hothers.
      * done.
      * by intros s [= <-] _.
      * done.
      * intros s [= <-] Heq. by destruct Hne.
  - exists app1. split; [done|]. change (db app1) with db1.
    change (currentSubject app1) with (currentSubject app). rewrite Hc.
    split; [done|]. split; [done|]. split; [done|].
    split; [split; intros [? [=]]|]. split; [done|]. split; [done|]. by intros s [=].
Qed.

(** [stored] has the one subject Words, which is the current one. *)
Lemma deleteSubject_moves_on_witness :
  generators_ahead (db stored) ∧
  (∀ s, currentSubject stored = Some s → subjects (db stored) !! s.1 = Some s.2) ∧
  ∃ app', Manager.deleteSubject true 1 0 stored = (Resolved true, app') ∧
    subjects (db app') !! 1 = None ∧
    currentSubject app' = Some (2, mkSubject "General" defaultSettings 0).
Proof.
  assert (generators_ahead (db stored)) as Hg by keys_by_evaluation.
  assert (∀ s, currentSubject stored = Some s → subjects (db stored) !! s.1 = Some s.2)
    as Hcur by (by intros s [= <-]).
  split; [exact Hg|]. split; [exact Hcur|].
  destruct (deleteSubject_moves_on 1 0 stored Hg Hcur) as (_ & app' & Hdel & Hgone & _).
  exists app'. split; [exact Hdel|]. split; [exact Hgone|].
  apply (f_equal snd) in Hdel. cbn [snd] in Hdel. rewrite <-Hdel. reflexivity.
Defined.

(** *** The import of text *)

(** X24. [importDataRaw] answers -1 without a current subject and 0 for
    a text without items, and changes nothing in both cases.  Otherwise, on
    a database whose keys were issued, it resolves with the number of items
    the text holds, and the items loaded afterwards are those the subject
    had followed by one for each parsed line, in the order of the lines,
    with the texts of the line, level 0, never studied. *)
Theorem importDataRaw_counts (text : string) (clock : nat → Z) (app : AppManager) :
  generators_ahead (db app) → progress_issued (db app) →
  (currentSubject app = None →
     Manager.importDataRaw text clock app = (Resolved (-1), app)) ∧
  (∀ s, currentSubject app = Some s →
     ∃ app', Manager.importDataRaw text clock app =
               (Resolved (Z.of_nat (length (Csv.parseCSV text))), app') ∧
       (Csv.parseCSV text = [] → app' = app) ∧
       (Csv.parseCSV text ≠ [] →
        currentSubject app' = Some s ∧
        App.items app' =
          getAllItemsWithProgress s.1 (db app) ++
          imap (λ (i : nat) p,
                  mkMerged (items_key (db app) + Z.of_nat i) s.1
                           (Csv.front p) (Csv.front_info p)
                           (Csv.back p) (Csv.back_info p) 0 0)
               (Csv.parseCSV text))).
Proof.
  intros Hg Hp. unfold Manager.importDataRaw. split; [by intros ->|].
  intros s Hs. rewrite Hs.
  destruct (Csv.parseCSV text) as [|p ps] eqn:Hparsed.
  - exists app. done.
  - destruct (importItems_append_listing s.1 (record_of_parsed <$> p :: ps) clock
                (db app) Hg Hp) as (db' & -> & Hlist & _).
    eexists. split; [done|]. split; [done|]. intros _.
    unfold loadData. cbn [currentSubject set_db App.items App.set_items db].
    rewrite Hs. cbn [currentSubject set_db App.items App.set_items db].
    split; [done|]. rewrite Hlist. f_equal.
    apply list_eq. intros i. rewrite !list_lookup_imap, list_lookup_fmap.
    by destruct ((p :: ps) !! i).
Qed.

(** Two lines for the subject of [stored], which has one item. *)
Lemma importDataRaw_counts_witness :
  generators_ahead (db stored) ∧ progress_issued (db stored) ∧
  ∃ app', Manager.importDataRaw ("C,D" +:+ String Csv.lf "E,F") epoch stored
            = (Resolved 2, app') ∧
    m_id <$> App.items app' = [1; 2; 3].
Proof.
  assert (generators_ahead (db stored)) as Hg by keys_by_evaluation.
  assert (progress_issued (db stored)) as Hp by keys_by_evaluation.
  split; [exact Hg|]. split; [exact Hp|].
  destruct (importDataRaw_counts ("C,D" +:+ String Csv.lf "E,F") epoch stored Hg Hp)
    as [_ Hsome].
  destruct (Hsome _ eq_refl) as (app' & Himp & _ & Hitems).
  exists app'. split; [exact Himp|].
  destruct Hitems as [_ ->]; [discriminate|]. reflexivity.
Defined.



(** *** Restoring a backup *)

(** X25. A backup is restored beside what the store holds: on a
    database whose keys were issued and whose items are of subjects that
    were issued an id, every subject, every item and every progress row
    there was is in place after [importSubjectBackup], whatever the
    document holds and whether or not the restoring went through. *)
Theorem importSubjectBackup_only_adds (json : option Backup) (now : Z)
    (clock : nat → Z) (app : AppManager) :
  generators_ahead (db app) →
  (∀ k it, items (db app) !! k = Some it → subject_id it < subjects_key (db app)) →
  subjects (db app) ⊆ subjects (db (importSubjectBackup json now clock app).2) ∧
  items (db app) ⊆ items (db (importSubjectBackup json now clock app).2) ∧
  progress (db app) ⊆ progress (db (importSubjectBackup json now clock app).2).
Proof.
  intros Hg Hrefs. unfold importSubjectBackup.
  destruct json as [[v [subject|] [its|]]|]; cbn [b_subject b_items]; try done.
  destruct (createSubject_fresh (bs_name subject +:+ " (Imported)")
              (default noSettings (bs_settings subject)) now (db app) Hg) as [Hfree ->].
  set (newId := subjects_key (db app)) in *.
  set (db1 := mkDB _ _ _ _ _).
  assert (subjects (db app) ⊆ subjects db1) as Hsub1
    by (by apply insert_subseteq).
  assert (∀ db2, cleared newId db1 db2 →
            subjects db2 = subjects db1 ∧ items db2 = items (db app) ∧
            progress db2 = progress (db app)) as Hcleared.
  { intros db2 (Hs & _ & _ & Hitems & _ & Hprog). split; [done|]. split.
    - apply map_eq. intros k. destruct (items (db app) !! k) as [it|] eqn:E.
      + apply Hitems. split; [done|]. apply Hrefs in E. unfold newId. lia.
      + destruct (items db2 !! k) as [it|] eqn:E2; [|done].
        apply Hitems in E2 as [E2 _]. cbn in E2. congruence.
    - apply map_eq. intros k. apply Hprog. intros it Hit. cbn in Hit.
      apply Hrefs in Hit. unfold newId. lia. }
  destruct (importItems newId its true clock db1) as [[[]|e] db'] eqn:Himp.
  - apply importItems_resolved in Himp as (db2 & Hc & Hb & _).
    destruct (Hcleared db2 Hc) as (Hs2 & Hi2 & Hp2).
    destruct Hb as (Hs & _ & _ & Hrows & Hframe).
    cbn [snd]. rewrite selectSubject_db. cbn [db loadSubjects set_db App.set_subjects].
    assert (∀ k, (∃ (i : nat) r, its !! i = Some r ∧ k = items_key db2 + Z.of_nat i) ∨
                 (items db' !! k = items db2 !! k ∧ progress db' !! k = progress db2 !! k))
      as Hk.
    { intros k.
      destruct (decide (items_key db2 ≤ k < items_key db2 + Z.of_nat (length its)))
        as [Hin|Hout].
      - left. destruct (lookup_lt_is_Some_2 its (Z.to_nat (k - items_key db2)))
          as [r Hr]; [lia|].
        exists (Z.to_nat (k - items_key db2)), r. split; [done|lia].
      - right. apply Hframe. lia. }
    split; [by rewrite Hs, Hs2|]. split.
    + apply map_subseteq_spec. intros k it Hit. rewrite <-Hi2 in Hit.
      destruct (Hk k) as [(i & r & Hi & ->)|[-> _]]; [|done].
      destruct (Hrows i r Hi) as (Hnone & _). congruence.
    + apply map_subseteq_spec. intros k pr Hpr. rewrite <-Hp2 in Hpr.
      destruct (Hk k) as [(i & r & Hi & ->)|[_ ->]]; [|done].
      destruct (Hrows i r Hi) as (_ & Hnone & _). congruence.
  - apply importItems_rejected in Himp. destruct (Hcleared db' Himp) as (Hs2 & Hi2 & Hp2).
    cbn [snd db set_db]. by rewrite Hs2, Hi2, Hp2.
Qed.

(** [stored], and the document it exports itself. *)
Lemma importSubjectBackup_only_adds_witness :
  generators_ahead (db stored) ∧
  (∀ k it, items (db stored) !! k = Some it → subject_id it < subjects_key (db stored)) ∧
  items (db stored) ⊆ items (db (importSubjectBackup (exportSubjectBackup stored) 5 epoch stored).2).
Proof.
  assert (generators_ahead (db stored)) as Hg by keys_by_evaluation.
  assert (∀ k it, items (db stored) !! k = Some it → subject_id it < subjects_key (db stored))
    as Hrefs.
  { intros k it Hit. destruct (decide (k = 1)) as [->|Hne].
    - injection Hit as <-. reflexivity.
    - exfalso. revert Hit. change (items (db stored)) with
        (<[1 := mkItem 1 "A" EmptyString "B" EmptyString 0]> (∅ : gmap Z ItemRow)).
      rewrite lookup_insert_ne by done. by rewrite lookup_empty. }
  split; [exact Hg|]. split; [exact Hrefs|].
  exact (proj1 (proj2 (importSubjectBackup_only_adds
                         (exportSubjectBackup stored) 5 epoch stored Hg Hrefs))).
Defined.

End ManagerFacts.
